(** * Workflow visualizer: call extraction, dependency inference and layered
      layout ([parseWorkflow] of components/WorkflowVisualizer.tsx)

    A shallow embedding of [parseWorkflow] and of the effect of
    [WorkflowVisualizer] that calls it, followed by the properties of the
    extraction, the inferred graph and the layout.  The embedding also covers
    what the component renders, the handlers of App.tsx that add, update and
    delete the parameters and processes of the pipeline, and the submit
    handlers of ProcessEditor.tsx and ParameterEditor.tsx.

    Conventions of the embedding.
    - A JavaScript string is the list of its UTF-16 code units ([list N]).
    - A JavaScript number that holds a coordinate is a binary64 float
      ([PrimFloat.float]): the operations of the source are the IEEE 754
      operations of the same name, so equality of coordinates below is
      bit-for-bit equality.
    - The plain objects [G] and [inDegree] are used as dictionaries keyed by
      process name.  Each is the finite map of its own properties, and [G]
      has its prototype besides: a key that is not an own property is looked
      up along the prototype chain, so [G.constructor] is a function, and the
      assignment [G.__proto__ = []] replaces the prototype of [G].  Calling
      [includes] on a value that has no such method throws a [TypeError], and
      [parseWorkflow] then returns nothing; the effect catches the error.
      The members of [Object.prototype] and [Array.prototype] are those of
      ECMAScript 2023.
    - [nodeMap] holds references to the objects stored in [nodes]: it maps a
      process name to the index of its node in [nodes], and a write through
      the reference updates [nodes] at that index. *)

From Stdlib Require Import ZArith NArith List Lia PrimFloat Uint63 String Ascii DecimalString.
From stdpp Require Import gmap list.

Set Warnings "-inexact-float".

(** ** Strings *)

Abbreviation jsstring := (list N).

(** A string literal of the source, as code units. *)
Definition js (s : string) : jsstring :=
  map N_of_ascii (list_ascii_of_string s).

(** [String(n)] for a non-negative integer [n] (used by the template literal
    that builds [callId]). *)
Definition decimal (n : nat) : jsstring :=
  js (NilZero.string_of_uint (Nat.to_uint n)).

(** ** Regular expressions of the source *)

(** [\w] : [A-Za-z0-9_]. *)
Definition is_word (c : N) : bool :=
  ((48 <=? c) && (c <=? 57) || (65 <=? c) && (c <=? 90) || (c =? 95)
   || (97 <=? c) && (c <=? 122))%N.

(** [\s] : the white space and line terminator code units of ECMAScript. *)
Definition is_space (c : N) : bool :=
  ((9 <=? c) && (c <=? 13) || (c =? 32) || (c =? 160) || (c =? 5760)
   || (8192 <=? c) && (c <=? 8202) || (c =? 8232) || (c =? 8233)
   || (c =? 8239) || (c =? 8287) || (c =? 12288) || (c =? 65279))%N.

Definition LPAREN : N := 40.
Definition RPAREN : N := 41.
Definition DOT : N := 46.

(** Any code unit but a close parenthesis. *)
Definition not_rparen (c : N) : bool := negb (c =? RPAREN)%N.

(** The longest prefix whose code units satisfy [p], and the rest: what a
    greedy [c+] or [c*] consumes first. *)
Fixpoint span (p : N → bool) (s : jsstring) : jsstring * jsstring :=
  match s with
  | [] => ([], [])
  | c :: s' =>
      if p c then let '(w, r) := span p s' in (c :: w, r) else ([], s)
  end.

(** [strip_prefix p s] is the rest of [s] after the literal [p], if [s] starts
    with it. *)
Fixpoint strip_prefix (p s : jsstring) : option jsstring :=
  match p, s with
  | [], _ => Some s
  | a :: p', b :: s' => if (a =? b)%N then strip_prefix p' s' else None
  | _ :: _, [] => None
  end.

(** The pattern of [processCallRegex] anchored at the start of [s]: group 1
    (one or more word characters), optional white space, an open parenthesis,
    group 2 (any run of code units other than a close parenthesis) and a
    close parenthesis.  The result is the two groups and the text after the
    match.  Each greedy quantifier is followed by a code unit outside its
    class (the word run by white space or an open parenthesis, the white space
    by an open parenthesis, the argument run by a close parenthesis), so
    giving back code units can never turn a failure into a match: the longest
    runs are the only candidate. *)
Definition match_call_at (s : jsstring) : option (jsstring * jsstring * jsstring) :=
  let '(w, r) := span is_word s in
  match w with
  | [] => None
  | _ :: _ =>
      let '(_, r1) := span is_space r in
      match r1 with
      | c :: r2 =>
          if (c =? LPAREN)%N then
            let '(args, r3) := span not_rparen r2 in
            match r3 with
            | _ :: r4 => Some (w, args, r4)
            | [] => None
            end
          else None
      | [] => None
      end
  end.

(** [processCallRegex.exec] on the text from [lastIndex] on: the leftmost
    position at which the pattern matches. *)
Fixpoint exec_processCallRegex (s : jsstring) : option (jsstring * jsstring * jsstring) :=
  match match_call_at s with
  | Some m => Some m
  | None =>
      match s with
      | [] => None
      | _ :: s' => exec_processCallRegex s'
      end
  end.

(** The pattern of [sourceProcessRegex] anchored at the start of [s]: group 1
    (one or more word characters), the literal [.out], and optionally a dot
    with one or more word characters.  The result is group 1 and the text
    after the match.  The optional group is greedy and nothing follows it. *)
Definition match_ref_at (s : jsstring) : option (jsstring * jsstring) :=
  let '(w, r) := span is_word s in
  match w with
  | [] => None
  | _ :: _ =>
      match strip_prefix (js ".out") r with
      | None => None
      | Some r1 =>
          match r1 with
          | c :: r2 =>
              if (c =? DOT)%N then
                match span is_word r2 with
                | ([], _) => Some (w, r1)
                | (_ :: _, r3) => Some (w, r3)
                end
              else Some (w, r1)
          | [] => Some (w, r1)
          end
      end
  end.

(** [sourceProcessRegex.exec] on the text from [lastIndex] on. *)
Fixpoint exec_sourceProcessRegex (s : jsstring) : option (jsstring * jsstring) :=
  match match_ref_at s with
  | Some m => Some m
  | None =>
      match s with
      | [] => None
      | _ :: s' => exec_sourceProcessRegex s'
      end
  end.

(** ** Data of the source *)

Module NextflowProcess.
Record t := mk {
    id : jsstring;
    name : jsstring;
    description : jsstring;
    inputDeclarations : jsstring;
    outputDeclarations : jsstring;
    directiveDeclarations : jsstring;
    script : jsstring
  }.
End NextflowProcess.

(** A process of which only the name matters. *)
Definition process_named (n : jsstring) : NextflowProcess.t :=
  NextflowProcess.mk [] n [] [] [] [] [].

Module VisNode.
Record t := mk {
    id : jsstring;
    name : jsstring;
    x : float;
    y : float;
    width : float;
    height : float
  }.
End VisNode.

Module VisEdge.
Record t := mk {
    id : jsstring;
    source : jsstring;
    target : jsstring;
    startX : float;
    startY : float;
    endX : float;
    endY : float;
    controlX : float;
    controlY : float
  }.
End VisEdge.

(** An element of [calledProcessInstances]. *)
Module CallInstance.
Record t := mk {
    name : jsstring;
    callId : jsstring;
    inputs : jsstring
  }.
End CallInstance.

(** What [parseWorkflow] returns. *)
Record VisData := mkVisData {
  nodes : list VisNode.t;
  edges : list VisEdge.t
}.

(** The value of the [workflowContent] argument at run time: the declared type
    is [string], the function tests it. *)
Inductive js_value :=
| JString (s : jsstring)
| JUndefined
| JNull
| JBoolean (b : bool)
| JNumber (v : float)
| JObject.

Definition NODE_WIDTH : float := 180.
Definition NODE_HEIGHT : float := 60.
Definition X_SPACING : float := 80.
Definition Y_SPACING : float := 100.

(** ** Numbers *)

(** An array length or index as a number (exact below 2^53). *)
Definition of_nat (n : nat) : float :=
  PrimFloat.of_uint63 (Uint63.of_Z (Z.of_nat n)).

Definition Math_min (a b : float) : float :=
  if (is_nan a || is_nan b)%bool then nan
  else if (a <? b)%float then a
  else if (b <? a)%float then b
  else if get_sign a then a else b.

Definition Math_max (a b : float) : float :=
  if (is_nan a || is_nan b)%bool then nan
  else if (b <? a)%float then a
  else if (a <? b)%float then b
  else if get_sign a then b else a.

Definition Math_sign (a : float) : float :=
  if (0 <? a)%float then 1%float
  else if (a <? 0)%float then (-1)%float
  else a.

(** ** Phase 1: call extraction (the [while] loop over [processCallRegex]) *)

(** [fuel] bounds the number of iterations; every match consumes at least one
    code unit, so [S (length s)] iterations are never exhausted
    ([scan_calls_fuel]). *)
Fixpoint scan_calls (fuel : nat) (definedProcessNames : list jsstring)
    (s : jsstring) (callIndex : nat) : list CallInstance.t :=
  match fuel with
  | O => []
  | S fuel' =>
      match exec_processCallRegex s with
      | None => []
      | Some (processName, inputs, rest) =>
          if bool_decide (processName ∈ definedProcessNames) then
            CallInstance.mk processName
              (processName ++ js "_" ++ decimal callIndex) inputs
            :: scan_calls fuel' definedProcessNames rest (S callIndex)
          else scan_calls fuel' definedProcessNames rest callIndex
      end
  end.

Definition calledProcessInstances (workflowContent : jsstring)
    (processes : list NextflowProcess.t) : list CallInstance.t :=
  scan_calls (S (length workflowContent)) (map NextflowProcess.name processes)
    workflowContent 0.

(** The group-1 captures of [sourceProcessRegex] in [inputArgs], in order. *)
Fixpoint scan_refs (fuel : nat) (s : jsstring) : list jsstring :=
  match fuel with
  | O => []
  | S fuel' =>
      match exec_sourceProcessRegex s with
      | None => []
      | Some (sourceProcessName, rest) =>
          sourceProcessName :: scan_refs fuel' rest
      end
  end.

Definition references (inputArgs : jsstring) : list jsstring :=
  scan_refs (S (length inputArgs)) inputArgs.

(** ** Phase 2: one node per called process *)

(** The key whose assignment sets the prototype of an object. *)
Definition PROTO : jsstring := js "__proto__".

(** The locals [nodes], [nodeMap], [G] and [inDegree].  [ns_G] and
    [ns_inDegree] are the own properties of the two objects; [ns_Gproto] is
    the array that is the prototype of [G] once [G.__proto__] was assigned
    one, and [None] as long as the prototype is [Object.prototype].  The
    prototype of [inDegree] is always [Object.prototype]. *)
Record NodeState := mkNodeState {
  ns_nodes : list VisNode.t;
  ns_nodeMap : gmap jsstring nat;
  ns_G : gmap jsstring (list jsstring);
  ns_Gproto : option (list jsstring);
  ns_inDegree : gmap jsstring Z
}.

Definition new_node (n : jsstring) : VisNode.t :=
  VisNode.mk n n 0 0 NODE_WIDTH NODE_HEIGHT.

(** Body of the first [calledProcessInstances.forEach].  For the name
    [__proto__] the two assignments go to the setter inherited from
    [Object.prototype]: [G.__proto__ = []] makes the new array the prototype
    of [G], [inDegree.__proto__ = 0] does nothing (0 is not an object), and
    neither creates an own property. *)
Definition add_node (st : NodeState) (inst : CallInstance.t) : NodeState :=
  let n := CallInstance.name inst in
  match ns_nodeMap st !! n with
  | Some _ => st
  | None =>
      if bool_decide (n = PROTO) then
        mkNodeState
          (ns_nodes st ++ [new_node n])
          (<[n := length (ns_nodes st)]> (ns_nodeMap st))
          (ns_G st) (Some []) (ns_inDegree st)
      else
        mkNodeState
          (ns_nodes st ++ [new_node n])
          (<[n := length (ns_nodes st)]> (ns_nodeMap st))
          (<[n := []]> (ns_G st)) (ns_Gproto st)
          (<[n := 0%Z]> (ns_inDegree st))
  end.

Definition build_nodes (calls : list CallInstance.t) : NodeState :=
  foldl add_node (mkNodeState [] ∅ ∅ None ∅) calls.

(** ** Phase 3: dependency inference *)

(** The string-keyed properties of [Object.prototype]; all of them are
    functions, but [__proto__], an accessor whose getter gives the prototype
    of the object. *)
Definition Object_prototype : list jsstring :=
  map js ["constructor"; "hasOwnProperty"; "isPrototypeOf";
          "propertyIsEnumerable"; "toLocaleString"; "toString"; "valueOf";
          "__proto__"; "__defineGetter__"; "__defineSetter__";
          "__lookupGetter__"; "__lookupSetter__"]%string.

(** The string-keyed properties of [Array.prototype] other than [length],
    all of them functions. *)
Definition Array_prototype : list jsstring :=
  map js ["at"; "concat"; "constructor"; "copyWithin"; "entries"; "every";
          "fill"; "filter"; "find"; "findIndex"; "findLast"; "findLastIndex";
          "flat"; "flatMap"; "forEach"; "includes"; "indexOf"; "join"; "keys";
          "lastIndexOf"; "map"; "pop"; "push"; "reduce"; "reduceRight";
          "reverse"; "shift"; "slice"; "some"; "sort"; "splice";
          "toLocaleString"; "toReversed"; "toSorted"; "toSpliced"; "toString";
          "unshift"; "values"; "with"]%string.

(** The number that a run of decimal digits writes, after [acc]. *)
Fixpoint digits (acc : N) (s : jsstring) : option N :=
  match s with
  | [] => Some acc
  | c :: s' =>
      if ((48 <=? c) && (c <=? 57))%N then digits (10 * acc + (c - 48))%N s'
      else None
  end.

(** The array index that a property key denotes: the key is the canonical
    decimal form of a number (no leading zero). *)
Definition array_index (key : jsstring) : option N :=
  match key with
  | [] => None
  | c :: rest =>
      if (c =? 48)%N then match rest with [] => Some 0%N | _ :: _ => None end
      else digits 0 key
  end.

(** [String.prototype.includes]: [t] occurs in [x]. *)
Fixpoint String_includes (x t : jsstring) : bool :=
  match strip_prefix t x with
  | Some _ => true
  | None =>
      match x with
      | [] => false
      | _ :: x' => String_includes x' t
      end
  end.

(** What [G[key]] evaluates to: an array (the own property [key], or the
    prototype array itself for the key [__proto__]), a string (an element of
    the prototype array), a number (its length), another object (a function,
    or [Object.prototype]), or [undefined]. *)
Inductive G_value :=
| GArray (own : bool) (a : list jsstring)
| GString (x : jsstring)
| GNumber (n : nat)
| GObject
| GUndefined.

(** [G[key]]: the own property, or else the first property of that name
    along the prototype chain, which is [Object.prototype], or the array
    [a], [Array.prototype] and [Object.prototype]. *)
Definition G_get (G : gmap jsstring (list jsstring))
    (Gproto : option (list jsstring)) (key : jsstring) : G_value :=
  match G !! key with
  | Some a => GArray true a
  | None =>
      match Gproto with
      | None =>
          if bool_decide (key ∈ Object_prototype) then GObject else GUndefined
      | Some a =>
          if bool_decide (key = PROTO) then GArray false a
          else if bool_decide (key = js "length") then GNumber (length a)
          else
            match array_index key with
            | Some i =>
                if (i <? N.of_nat (length a))%N
                then match a !! N.to_nat i with
                     | Some x => GString x
                     | None => GUndefined
                     end
                else GUndefined
            | None =>
                if bool_decide (key ∈ Array_prototype ∨ key ∈ Object_prototype)
                then GObject else GUndefined
            end
      end
  end.

(** The locals [edges], [G] and [inDegree]; [es_Gproto] is as [ns_Gproto]. *)
Record EdgeState := mkEdgeState {
  es_edges : list VisEdge.t;
  es_G : gmap jsstring (list jsstring);
  es_Gproto : option (list jsstring);
  es_inDegree : gmap jsstring Z
}.

Definition edge_id (sourceProcessName targetProcessName : jsstring) : jsstring :=
  sourceProcessName ++ js "->" ++ targetProcessName.

Definition new_edge (sourceProcessName targetProcessName : jsstring) : VisEdge.t :=
  VisEdge.mk (edge_id sourceProcessName targetProcessName)
    sourceProcessName targetProcessName 0 0 0 0 0 0.

(** [edges.find(e => e.id === edgeId)] is not [undefined]. *)
Definition has_edge_id (edgeId : jsstring) (es : list VisEdge.t) : bool :=
  existsb (λ e, bool_decide (VisEdge.id e = edgeId)) es.

(** [inDegree[targetProcessName] = (inDegree[targetProcessName] || 0) + 1].
    The target is the name of a call: it has an own entry, a number, unless
    it is [__proto__], for which the value read is [Object.prototype], the
    sum is a string, and the assignment of a string to [__proto__] does
    nothing. *)
Definition count_edge (inDegree : gmap jsstring Z)
    (targetProcessName : jsstring) : gmap jsstring Z :=
  if bool_decide (targetProcessName = PROTO) then inDegree
  else <[targetProcessName :=
           (default 0 (inDegree !! targetProcessName) + 1)%Z]> inDegree.

(** Body of the inner [while] loop, for one capture [sourceProcessName];
    [None] when a [TypeError] is thrown.  After the edge is pushed,
    [G[sourceProcessName]] is read.  An array that has the target already is
    left as it is, another array gets the target pushed.  A string that is
    not empty is asked with its own [includes] and has no [push]; a number
    other than 0 and any other object have no [includes]: calling what is
    [undefined] throws.  The empty string, the number 0 and [undefined] are
    falsy. *)
Definition add_edge (definedProcessNames : list jsstring)
    (targetProcessName : jsstring) (st : EdgeState)
    (sourceProcessName : jsstring) : option EdgeState :=
  if bool_decide (sourceProcessName ∈ definedProcessNames)
     && negb (bool_decide (sourceProcessName = targetProcessName))
  then
    if has_edge_id (edge_id sourceProcessName targetProcessName) (es_edges st)
    then Some st
    else
      let edges := es_edges st ++ [new_edge sourceProcessName targetProcessName] in
      let inDegree := count_edge (es_inDegree st) targetProcessName in
      let unchanged := mkEdgeState edges (es_G st) (es_Gproto st) inDegree in
      match G_get (es_G st) (es_Gproto st) sourceProcessName with
      | GArray own succs =>
          if bool_decide (targetProcessName ∈ succs) then Some unchanged
          else if own then
            Some (mkEdgeState edges
                    (<[sourceProcessName := succs ++ [targetProcessName]]> (es_G st))
                    (es_Gproto st) inDegree)
          else
            Some (mkEdgeState edges (es_G st)
                    (Some (succs ++ [targetProcessName])) inDegree)
      | GString x =>
          if bool_decide (x = []) || String_includes x targetProcessName
          then Some unchanged else None
      | GNumber n => if (n =? 0)%nat then Some unchanged else None
      | GObject => None
      | GUndefined => Some unchanged
      end
  else Some st.

(** A loop whose body can throw: the first throw ends it. *)
Fixpoint foldl_throws {A B} (f : A → B → option A) (a : A) (l : list B)
    : option A :=
  match l with
  | [] => Some a
  | b :: l' =>
      match f a b with
      | Some a' => foldl_throws f a' l'
      | None => None
      end
  end.

(** Body of the second [calledProcessInstances.forEach].  [inputs] is a group
    of a successful match and hence always a string: the [typeof] guard of the
    source never fires. *)
Definition add_edges_of (definedProcessNames : list jsstring)
    (st : EdgeState) (targetInst : CallInstance.t) : option EdgeState :=
  foldl_throws (add_edge definedProcessNames (CallInstance.name targetInst)) st
    (references (CallInstance.inputs targetInst)).

Definition infer_edges (definedProcessNames : list jsstring)
    (calls : list CallInstance.t) (ns : NodeState) : option EdgeState :=
  foldl_throws (add_edges_of definedProcessNames)
    (mkEdgeState [] (ns_G ns) (ns_Gproto ns) (ns_inDegree ns)) calls.

(** ** Phase 4: layering *)

(** [nodes.forEach]: the initial queue.  [inDegree[node.id]] is the own
    entry of the node; the node [__proto__] has none, the value read for it
    is [Object.prototype], which is not [0]. *)
Definition initial_queue (nodes : list VisNode.t) (inDegree : gmap jsstring Z)
    : list jsstring :=
  map VisNode.id (filter (λ n, inDegree !! VisNode.id n = Some 0%Z) nodes).

(** The locals that one wave changes: the queue, the layer under
    construction ([layers[currentLayer]]), [nodeLayerMap] and [inDegree]. *)
Record WaveState := mkWaveState {
  ws_queue : list jsstring;
  ws_layer : list jsstring;
  ws_nodeLayerMap : gmap jsstring nat;
  ws_inDegree : gmap jsstring Z
}.

(** Body of [(G[u] || []).forEach]: [inDegree[v]--] and the test.  The
    names in the arrays of [G] are names of calls: each has an own entry in
    [inDegree], except [__proto__], for which the value read is
    [Object.prototype], the decrement gives [NaN], its assignment to
    [__proto__] does nothing, and [NaN] is not [0]. *)
Definition relax (qd : list jsstring * gmap jsstring Z) (v : jsstring)
    : list jsstring * gmap jsstring Z :=
  let inDegree := alter Z.pred v qd.2 in
  (if bool_decide (inDegree !! v = Some 0%Z) then qd.1 ++ [v] else qd.1,
   inDegree).

(** One iteration of the [for] loop: [queue.shift()], the falsy test (an
    exhausted queue gives [undefined], the empty string is falsy too), and
    the processing of [u].  A name is queued only when its own entry in
    [inDegree] is [0], and the names with such an entry have an own entry in
    [G]: [G[u]] is that own property. *)
Definition visit (G : gmap jsstring (list jsstring)) (currentLayer : nat)
    (st : WaveState) : WaveState :=
  match ws_queue st with
  | [] => st
  | [] :: queue => mkWaveState queue (ws_layer st) (ws_nodeLayerMap st) (ws_inDegree st)
  | u :: queue =>
      let qd := foldl relax (queue, ws_inDegree st) (default [] (G !! u)) in
      mkWaveState qd.1 (ws_layer st ++ [u])
        (<[u := currentLayer]> (ws_nodeLayerMap st)) qd.2
  end.

(** The [for] loop over [layerSize] iterations. *)
Fixpoint wave (G : gmap jsstring (list jsstring)) (currentLayer : nat)
    (layerSize : nat) (st : WaveState) : WaveState :=
  match layerSize with
  | O => st
  | S n => wave G currentLayer n (visit G currentLayer st)
  end.

(** The locals of the [while] loop.  [currentLayer] is [0] at first and grows
    by one with every layer that is added: it is [length (ks_layers st)], and
    [layers[currentLayer] = []] adds a layer at the end. *)
Record KahnState := mkKahnState {
  ks_queue : list jsstring;
  ks_layers : list (list jsstring);
  ks_nodeLayerMap : gmap jsstring nat;
  ks_inDegree : gmap jsstring Z
}.

(** One iteration of the [while] loop, entered with a non-empty queue. *)
Definition kahn_step (G : gmap jsstring (list jsstring)) (st : KahnState)
    : KahnState :=
  let currentLayer := length (ks_layers st) in
  let w := wave G currentLayer (length (ks_queue st))
             (mkWaveState (ks_queue st) [] (ks_nodeLayerMap st) (ks_inDegree st)) in
  mkKahnState (ws_queue w) (ks_layers st ++ [ws_layer w])
    (ws_nodeLayerMap w) (ws_inDegree w).

(** The [while] loop; [fuel] bounds the number of waves
    ([kahn_queue_empty]: with one more than the number of nodes the loop
    always ends because the queue is empty). *)
Fixpoint kahn (fuel : nat) (G : gmap jsstring (list jsstring)) (st : KahnState)
    : KahnState :=
  match fuel with
  | O => st
  | S fuel' =>
      match ks_queue st with
      | [] => st
      | _ :: _ => kahn fuel' G (kahn_step G st)
      end
  end.

(** ** Phase 5: coordinates *)

Definition place (n : VisNode.t) (x y : float) : VisNode.t :=
  VisNode.mk (VisNode.id n) (VisNode.name n) x y (VisNode.width n) (VisNode.height n).

(** [nodeMap.get(nodeId)]: the index of the node in [nodes] and the node. *)
Definition nodeMap_get (nodeMap : gmap jsstring nat) (nodes : list VisNode.t)
    (nodeId : jsstring) : option (nat * VisNode.t) :=
  match nodeMap !! nodeId with
  | Some i => match nodes !! i with Some n => Some (i, n) | None => None end
  | None => None
  end.

(** Body of [layer.forEach], on the pair of [nodes] and [currentX]. *)
Definition place_node (nodeMap : gmap jsstring nat) (layerIndex : nat)
    (st : list VisNode.t * float) (nodeId : jsstring) : list VisNode.t * float :=
  match nodeMap_get nodeMap st.1 nodeId with
  | Some (i, node) =>
      (<[i := place node st.2
                (of_nat layerIndex * (NODE_HEIGHT + Y_SPACING) + Y_SPACING)%float]> st.1,
       (st.2 + (NODE_WIDTH + X_SPACING))%float)
  | None => st
  end.

(** The first [currentX] of a layer of [n] nodes under canvas width [w]. *)
Definition layer_start (canvasWidth : float) (n : nat) : float :=
  let layerWidth := (of_nat n * NODE_WIDTH + (of_nat n - 1) * X_SPACING)%float in
  let currentX := ((canvasWidth - layerWidth) / 2)%float in
  if (currentX <? X_SPACING)%float then X_SPACING else currentX.

(** Body of [layers.forEach]. *)
Definition place_layer (canvasWidth : float) (nodeMap : gmap jsstring nat)
    (nodes : list VisNode.t) (layerIndex : nat) (layer : list jsstring)
    : list VisNode.t :=
  (foldl (place_node nodeMap layerIndex)
     (nodes, layer_start canvasWidth (length layer)) layer).1.

(** [layers.forEach], with the index of the first layer of [layers]. *)
Fixpoint place_layers (canvasWidth : float) (nodeMap : gmap jsstring nat)
    (layerIndex : nat) (layers : list (list jsstring)) (nodes : list VisNode.t)
    : list VisNode.t :=
  match layers with
  | [] => nodes
  | layer :: rest =>
      place_layers canvasWidth nodeMap (S layerIndex) rest
        (place_layer canvasWidth nodeMap nodes layerIndex layer)
  end.

(** ** Phase 6: edge geometry *)

(** Body of [edges.forEach] when both end nodes are found.  [control] is the
    pair of [edge.controlX] and [edge.controlY]; the first [if]/[else]
    assigns a control point that the second one always overwrites, and both
    are kept as in the source. *)
Definition route (edge : VisEdge.t) (sourceNode targetNode : VisNode.t) : VisEdge.t :=
  let startX := (VisNode.x sourceNode + VisNode.width sourceNode / 2)%float in
  let startY := (VisNode.y sourceNode + VisNode.height sourceNode)%float in
  let endX := (VisNode.x targetNode + VisNode.width targetNode / 2)%float in
  let endY := VisNode.y targetNode in
  let midX := ((startX + endX) / 2)%float in
  let midY := ((startY + endY) / 2)%float in
  let dx := (endX - startX)%float in
  let dy := (endY - startY)%float in
  let length := PrimFloat.sqrt (dx * dx + dy * dy)%float in
  let curvature := Math_min (length * 0.25)%float 50%float in
  let control :=
    if (abs dy <? abs dx)%float
    then (midX, (midY - curvature * Math_sign dx)%float)
    else ((midX + curvature)%float, midY) in
  let control :=
    if (startY <? endY)%float then
      let controlX :=
        ((startX + endX) / 2 + (if (startX =? endX)%float then 30 else 0))%float in
      let controlY := (startY + (endY - startY) * 0.6)%float in
      let controlX :=
        if (endX <? startX)%float
        then (startX - (startX - endX) * 0.5 - 30)%float
        else if (startX <? endX)%float
        then (startX + (endX - startX) * 0.5 + 30)%float
        else controlX in
      (controlX, controlY)
    else ((midX + curvature)%float, midY) in
  VisEdge.mk (VisEdge.id edge) (VisEdge.source edge) (VisEdge.target edge)
    startX startY endX endY control.1 control.2.

Definition route_edge (nodeMap : gmap jsstring nat) (nodes : list VisNode.t)
    (edge : VisEdge.t) : VisEdge.t :=
  match nodeMap_get nodeMap nodes (VisEdge.source edge),
        nodeMap_get nodeMap nodes (VisEdge.target edge) with
  | Some (_, sourceNode), Some (_, targetNode) => route edge sourceNode targetNode
  | _, _ => edge
  end.

(** ** [parseWorkflow] *)

(** All locals of [parseWorkflow] at its [return], for a textual
    [workflowContent]. *)
Record Locals := mkLocals {
  l_calledProcessInstances : list CallInstance.t;
  l_nodes : list VisNode.t;
  l_edges : list VisEdge.t;
  l_nodeMap : gmap jsstring nat;
  l_G : gmap jsstring (list jsstring);
  l_inDegree : gmap jsstring Z;
  l_queue : list jsstring;
  l_layers : list (list jsstring);
  l_nodeLayerMap : gmap jsstring nat
}.

(** The [while] loop run for at most [n] waves on the locals that the
    edge inference leaves. *)
Definition layering (n : nat) (ns : NodeState) (es : EdgeState) : KahnState :=
  kahn n (es_G es)
    (mkKahnState (initial_queue (ns_nodes ns) (es_inDegree es))
       [] ∅ (es_inDegree es)).

(** The part of [parseWorkflow] after the edge inference, which does not
    throw: layering, coordinates and edge geometry.  [canvasWidth] is the
    value of the module-level [canvasSizeForLayout.width] when the function
    is called. *)
Definition lay_out (canvasWidth : float) (calls : list CallInstance.t)
    (ns : NodeState) (es : EdgeState) : Locals :=
  let ks := layering (S (length (ns_nodes ns))) ns es in
  let nodes := place_layers canvasWidth (ns_nodeMap ns) 0 (ks_layers ks) (ns_nodes ns) in
  let edges := map (route_edge (ns_nodeMap ns) nodes) (es_edges es) in
  mkLocals calls nodes edges (ns_nodeMap ns) (es_G es) (ks_inDegree ks)
    (ks_queue ks) (ks_layers ks) (ks_nodeLayerMap ks).

(** The locals of the [while] loop after at most [n] waves; [None] when the
    edge inference throws. *)
Definition waves (n : nat) (workflowContent : jsstring)
    (processes : list NextflowProcess.t) : option KahnState :=
  let definedProcessNames := map NextflowProcess.name processes in
  let calls := calledProcessInstances workflowContent processes in
  let ns := build_nodes calls in
  match infer_edges definedProcessNames calls ns with
  | Some es => Some (layering n ns es)
  | None => None
  end.

(** The locals at the [return]; [None] when a [TypeError] is thrown. *)
Definition parseWorkflow_locals (canvasWidth : float) (workflowContent : jsstring)
    (processes : list NextflowProcess.t) : option Locals :=
  let definedProcessNames := map NextflowProcess.name processes in
  let calls := calledProcessInstances workflowContent processes in
  let ns := build_nodes calls in
  match infer_edges definedProcessNames calls ns with
  | Some es => Some (lay_out canvasWidth calls ns es)
  | None => None
  end.

(** What [parseWorkflow] returns; [None] when it throws a [TypeError]. *)
Definition parseWorkflow (canvasWidth : float) (workflowContent : js_value)
    (processes : list NextflowProcess.t) : option VisData :=
  match workflowContent with
  | JString s =>
      match parseWorkflow_locals canvasWidth s processes with
      | Some l => Some (mkVisData (l_nodes l) (l_edges l))
      | None => None
      end
  | _ => Some (mkVisData [] [])
  end.

(** ** The effect of [WorkflowVisualizer] *)

(** The module-level object [canvasSizeForLayout]. *)
Record CanvasSize := mkCanvasSize {
  cs_width : float;
  cs_height : float
}.

Definition initial_canvasSizeForLayout : CanvasSize := mkCanvasSize 800 600.

(** The fields of [Pipeline] that the effect reads. *)
Record Pipeline := mkPipeline {
  workflowContent : js_value;
  processes : list NextflowProcess.t
}.

(** The [nodes.forEach] of the effect, on the pair [(maxX, maxY)]. *)
Definition grow_bounds (m : float * float) (n : VisNode.t) : float * float :=
  (if (m.1 <? VisNode.x n + VisNode.width n)%float
   then (VisNode.x n + VisNode.width n)%float else m.1,
   if (m.2 <? VisNode.y n + VisNode.height n)%float
   then (VisNode.y n + VisNode.height n)%float else m.2).

(** The body of the effect: the data handed to [setVisData] and the value
    of [canvasSizeForLayout] afterwards.  When [parseWorkflow] throws, the
    [catch] branch hands over the empty graph and the canvas size stays as
    it was. *)
Definition effect (canvasSizeForLayout : CanvasSize) (pipeline : Pipeline)
    : VisData * CanvasSize :=
  match parseWorkflow (cs_width canvasSizeForLayout)
          (workflowContent pipeline) (processes pipeline) with
  | Some vis =>
      let m := foldl grow_bounds (0%float, 0%float) (nodes vis) in
      (vis,
       mkCanvasSize (Math_max 800 (m.1 + X_SPACING * 2)%float)
                    (Math_max 600 (m.2 + Y_SPACING * 2)%float))
  | None => (mkVisData [] [], canvasSizeForLayout)
  end.

(** The state [errorVisualizing] after the effect: [null], or in the
    [catch] branch the text made of a fixed prefix and the message of the
    error, which is the engine's ([message]). *)
Definition effect_error (message : jsstring) (canvasSizeForLayout : CanvasSize)
    (pipeline : Pipeline) : option jsstring :=
  match parseWorkflow (cs_width canvasSizeForLayout)
          (workflowContent pipeline) (processes pipeline) with
  | Some _ => None
  | None => Some (js "Could not visualize workflow: " ++ message)
  end.

(** Two runs of the effect in succession on the same pipeline. *)
Definition effect_twice (canvasSizeForLayout : CanvasSize) (pipeline : Pipeline)
    : VisData * VisData :=
  let r1 := effect canvasSizeForLayout pipeline in
  let r2 := effect r1.2 pipeline in
  (r1.1, r2.1).

(** ** What [WorkflowVisualizer] renders *)

(** Truthiness of a string: only the empty string is falsy. *)
Definition truthy (s : jsstring) : bool :=
  match s with [] => false | _ :: _ => true end.

(** [String.prototype.trimStart] and [String.prototype.trim]: the white
    space and line terminator code units (those of [\s]) are removed at the
    start, and at both ends. *)
Definition trimStart (s : jsstring) : jsstring := (span is_space s).2.

Definition trim (s : jsstring) : jsstring :=
  reverse (trimStart (reverse (trimStart s))).

(** The four things that the component can return: the error card, the card
    that asks for processes, the card that reports that no call was found,
    and the card with the drawing.  The last one carries the [disabled]
    attribute of the download button, whether the closing paragraph ("No
    process calls found ...") is shown, and the nodes and edges drawn. *)
Inductive View :=
| ErrorCard (message : jsstring)
| DefineProcessesCard
| NoCallsCard
| GraphCard (downloadDisabled noCallsNote : bool)
    (nodes : list VisNode.t) (edges : list VisEdge.t).

(** The body of the component after its hooks, on the state
    ([errorVisualizing], [visData]) and the fields of [pipeline] that it
    reads; [workflowContent] is a string, as its type says. *)
Definition render (errorVisualizing : option jsstring) (visData : VisData)
    (workflowContent : jsstring) (processes : list NextflowProcess.t) : View :=
  let error := match errorVisualizing with Some m => truthy m | None => false end in
  if error then ErrorCard (default [] errorVisualizing)
  else if (length processes =? 0)
          && (negb (truthy workflowContent) || negb (truthy (trim workflowContent)))
  then DefineProcessesCard
  else if (length (nodes visData) =? 0) && truthy workflowContent
          && truthy (trim workflowContent)
  then NoCallsCard
  else
    GraphCard (length (nodes visData) =? 0)
      ((length (nodes visData) =? 0) && truthy workflowContent
       && truthy (trim workflowContent) && negb error)
      (nodes visData) (edges visData).

(** What is shown once the effect has run for the current pipeline, with
    the states [errorVisualizing] and [visData] that the effect has set;
    [message] is the message of the engine's [TypeError]. *)
Definition WorkflowVisualizer (message : jsstring)
    (canvasSizeForLayout : CanvasSize)
    (workflowContent : jsstring) (processes : list NextflowProcess.t) : View :=
  let pipeline := mkPipeline (JString workflowContent) processes in
  render (effect_error message canvasSizeForLayout pipeline)
    (effect canvasSizeForLayout pipeline).1 workflowContent processes.

(** ** The list handlers of [App] and the submit handlers of the editors *)

Inductive ParameterType :=
| TString | TInteger | TBoolean | TPath | TFile | TDirectory.

Module PipelineParameter.
Record t := mk {
    id : jsstring;
    name : jsstring;
    defaultValue : jsstring;
    description : jsstring;
    type : ParameterType
  }.
End PipelineParameter.

Section handlers.
Context {A : Type} (id : A → jsstring).

(** The updater that [handleAddOrUpdateParameter] and
    [handleAddOrUpdateProcess] pass to [setPipeline], on the list that it
    changes: [findIndex] by id, then replacement at that index, or addition
    at the end when there is none. *)
Definition add_or_update (item : A) (items : list A) : list A :=
  match list_find (λ p, id p = id item) items with
  | Some (existingIndex, _) => <[existingIndex := item]> items
  | None => items ++ [item]
  end.

(** [handleDeleteParameter] and [handleDeleteProcess], on the list;
    [confirm] is the answer to [window.confirm]. *)
Definition delete_item (confirm : bool) (itemId : jsstring) (items : list A)
    : list A :=
  if confirm then filter (λ p, id p ≠ itemId) items else items.
End handlers.

Definition handleAddOrUpdateParameter := add_or_update PipelineParameter.id.
Definition handleDeleteParameter := delete_item PipelineParameter.id.
Definition handleAddOrUpdateProcess := add_or_update NextflowProcess.id.
Definition handleDeleteProcess := delete_item NextflowProcess.id.

(** [handleSubmit] of [ProcessEditor]: what is passed to [onSave], or
    nothing when the alert is shown. *)
Definition ProcessEditor_handleSubmit (currentProc : NextflowProcess.t)
    : option NextflowProcess.t :=
  let trimmedName := trim (NextflowProcess.name currentProc) in
  if negb (truthy trimmedName) then None
  else Some (NextflowProcess.mk (NextflowProcess.id currentProc) trimmedName
               (NextflowProcess.description currentProc)
               (NextflowProcess.inputDeclarations currentProc)
               (NextflowProcess.outputDeclarations currentProc)
               (NextflowProcess.directiveDeclarations currentProc)
               (NextflowProcess.script currentProc)).

(** [handleSubmit] of [ParameterEditor]: the test trims the name, what is
    saved is the parameter as typed. *)
Definition ParameterEditor_handleSubmit (currentParam : PipelineParameter.t)
    : option PipelineParameter.t :=
  if negb (truthy (trim (PipelineParameter.name currentParam))) then None
  else Some currentParam.

(** ** Specification-side notions used by the statements *)

(** [in_order s calls]: the pairs of [calls] are the name and the argument text
    of disjoint call occurrences of [s], in the order of the text; an
    occurrence is a non-empty word, white space, an open parenthesis, an
    argument text free of close parentheses, and a close parenthesis. *)
Inductive in_order : jsstring → list (jsstring * jsstring) → Prop :=
| in_order_nil s : in_order s []
| in_order_cons pre w ws args rest calls :
    w ≠ [] →
    Forall (λ c, is_word c = true) w →
    Forall (λ c, is_space c = true) ws →
    RPAREN ∉ args →
    in_order rest calls →
    in_order (pre ++ w ++ ws ++ LPAREN :: args ++ RPAREN :: rest)
      ((w, args) :: calls).

(** Name and argument text of a call instance. *)
Definition call_pair (c : CallInstance.t) : jsstring * jsstring :=
  (CallInstance.name c, CallInstance.inputs c).

(** ** Invariants and notions of the proofs *)

(** [nodeMap] and [nodes] describe the same objects: the entry of a name is
    the index of the node with that id, and every node is entered. *)
Definition node_index_ok (nodeMap : gmap jsstring nat) (nodes : list VisNode.t)
    : Prop :=
  (∀ n i, nodeMap !! n = Some i →
          ∃ nd, nodes !! i = Some nd ∧ VisNode.id nd = n)
  ∧ (∀ i nd, nodes !! i = Some nd → nodeMap !! VisNode.id nd = Some i).

(** The nodes that have own entries in [G] and [inDegree]: all but the
    node [__proto__]. *)
Definition ordinary (nodeMap : gmap jsstring nat) : gmap jsstring nat :=
  delete PROTO nodeMap.

(** Invariant of the first [forEach]: the nodes are those of the names of
    [calls], each as created, and [G] and [inDegree] have their initial
    entries for exactly the ordinary ones of these names. *)
Record nodes_inv (calls : list CallInstance.t) (st : NodeState) : Prop := {
  ni_index : node_index_ok (ns_nodeMap st) (ns_nodes st);
  ni_fresh : ∀ nd, nd ∈ ns_nodes st → nd = new_node (VisNode.id nd);
  ni_names : ∀ n, is_Some (ns_nodeMap st !! n)
                  ↔ ∃ c, c ∈ calls ∧ CallInstance.name c = n;
  ni_G : ∀ n, ns_G st !! n = (λ _, []) <$> ordinary (ns_nodeMap st) !! n;
  ni_inDegree : ∀ n, ns_inDegree st !! n
                     = (λ _, 0%Z) <$> ordinary (ns_nodeMap st) !! n
}.

(** The ordered pair (source, target) of an edge. *)
Definition edge_pair (e : VisEdge.t) : jsstring * jsstring :=
  (VisEdge.source e, VisEdge.target e).

(** Targets of the edges that leave [u], in the order of [es]. *)
Definition succs (es : list VisEdge.t) (u : jsstring) : list jsstring :=
  map VisEdge.target (filter (λ e, VisEdge.source e = u) es).

(** Number of edges that enter [t]. *)
Definition preds_count (es : list VisEdge.t) (t : jsstring) : nat :=
  length (filter (λ e, VisEdge.target e = t) es).

(** Specification side of the de-duplication: a pair is recorded unless it
    is already there. *)
Definition record_pair (acc : list (jsstring * jsstring))
    (p : jsstring * jsstring) : list (jsstring * jsstring) :=
  if bool_decide (p ∈ acc) then acc else acc ++ [p].

(** The discoveries [l] with every later duplicate dropped. *)
Definition first_wins (l : list (jsstring * jsstring)) : list (jsstring * jsstring) :=
  foldl record_pair [] l.

(** The references of one call that pass the guard of the source (declared,
    not the call's own process), as (source, target) pairs in the order of
    the argument text. *)
Definition discovered_of (defined : list jsstring) (c : CallInstance.t)
    : list (jsstring * jsstring) :=
  map (λ s, (s, CallInstance.name c))
    (filter (λ s, s ∈ defined ∧ s ≠ CallInstance.name c)
       (references (CallInstance.inputs c))).

(** All discoveries of a pass, in the order in which the source meets them. *)
Definition discovered (defined : list jsstring) (calls : list CallInstance.t)
    : list (jsstring * jsstring) :=
  concat (map (discovered_of defined) calls).

(** Invariant of the second [forEach]: every edge is as created, between a
    declared source and a called target that differ; ids are distinct; [G]
    lists the successors and [inDegree] counts the predecessors of every
    ordinary node. *)
Record edges_inv (defined : list jsstring) (nodeMap : gmap jsstring nat)
    (st : EdgeState) : Prop := {
  ei_shape : ∀ e, e ∈ es_edges st →
                  e = new_edge (VisEdge.source e) (VisEdge.target e);
  ei_guard : ∀ e, e ∈ es_edges st →
                  VisEdge.source e ∈ defined ∧ VisEdge.source e ≠ VisEdge.target e;
  ei_word : ∀ e, e ∈ es_edges st →
                 Forall (λ c, is_word c = true) (VisEdge.source e);
  ei_target : ∀ e, e ∈ es_edges st → is_Some (nodeMap !! VisEdge.target e);
  ei_nodup : NoDup (map VisEdge.id (es_edges st));
  ei_G : ∀ u, es_G st !! u
              = (λ _, succs (es_edges st) u) <$> ordinary nodeMap !! u;
  ei_inDegree : ∀ t, es_inDegree st !! t
                     = (λ _, Z.of_nat (preds_count (es_edges st) t))
                         <$> ordinary nodeMap !! t
}.

(** Number of edges into [v] whose source is not among [P]. *)
Definition pending (E : list VisEdge.t) (P : list jsstring) (v : jsstring) : nat :=
  length (filter (λ e, VisEdge.target e = v ∧ VisEdge.source e ∉ P) E).

(** [inDegree[v]--] for every [v] of [l]. *)
Definition dec_all (l : list jsstring) (inDegree : gmap jsstring Z)
    : gmap jsstring Z :=
  foldl (λ m v, alter Z.pred v m) inDegree l.

(** Invariant of the layering, on the processed nodes [P] (all layers so
    far, with the one under construction), the queue, [inDegree] and
    [nodeLayerMap]; [E] are the inferred edges and [nodeMap] holds the nodes
    that have an entry in [inDegree]. *)
Record kahn_inv (nodeMap : gmap jsstring nat) (E : list VisEdge.t)
    (P queue : list jsstring) (inDegree : gmap jsstring Z)
    (nodeLayerMap : gmap jsstring nat) : Prop := {
  ki_deg : ∀ v, is_Some (nodeMap !! v) →
                inDegree !! v = Some (Z.of_nat (pending E P v));
  ki_nodup : NoDup (P ++ queue);
  ki_node : ∀ v, v ∈ P ++ queue → is_Some (nodeMap !! v);
  ki_ready : ∀ v, v ∈ P ++ queue → pending E P v = 0;
  ki_layer : ∀ v, is_Some (nodeLayerMap !! v) ↔ v ∈ P;
  ki_dom : ∀ v, is_Some (inDegree !! v) → is_Some (nodeMap !! v)
}.

(** [currentX += NODE_WIDTH + X_SPACING]. *)
Definition next_x (x : float) : float := (x + (NODE_WIDTH + X_SPACING))%float.

(** The [y] of the nodes of layer [layerIndex]. *)
Definition layer_y (layerIndex : nat) : float :=
  (of_nat layerIndex * (NODE_HEIGHT + Y_SPACING) + Y_SPACING)%float.

(** The recognized calls of a run: none when the content is not a string
    (the function returns before the extraction loop). *)
Definition recognized_calls (workflowContent : js_value)
    (processes : list NextflowProcess.t) : list CallInstance.t :=
  match workflowContent with
  | JString s => calledProcessInstances s processes
  | _ => []
  end.

(** The processes with the given names. *)
Definition declared (names : list string) : list NextflowProcess.t :=
  map (λ s, process_named (js s)) names.

(** The leftmost [x] that centers a layer of [n] nodes under [canvasWidth]. *)
Definition centered (canvasWidth : float) (n : nat) : float :=
  ((canvasWidth - (of_nat n * NODE_WIDTH + (of_nat n - 1) * X_SPACING)) / 2)%float.

(** [edge_rel es u v]: some edge of [es] goes from [u] to [v]. *)
Definition edge_rel (es : list VisEdge.t) (u v : jsstring) : Prop :=
  ∃ e, e ∈ es ∧ VisEdge.source e = u ∧ VisEdge.target e = v.

(** The layers of a run (none when the content is not a string, and none
    when the run throws). *)
Definition layers_of (canvasWidth : float) (workflowContent : js_value)
    (processes : list NextflowProcess.t) : list (list jsstring) :=
  match workflowContent with
  | JString s =>
      match parseWorkflow_locals canvasWidth s processes with
      | Some l => l_layers l
      | None => []
      end
  | _ => []
  end.

(** The right edges [x + width] that a node can have under canvas width 800
    when no layer has more than two nodes. *)
Definition narrow_right_edge (v : float) : Prop :=
  v = 180%float ∨ v = 360%float ∨ v = 490%float ∨ v = 620%float.

(** Further invariant of the layering, on the completed layers [layers0], the
    layer under construction [cur] and the queue: a node with no pending
    edge is processed or queued; [nodeLayerMap] holds the layer index of
    every processed node; the sources of the edges into a completed layer
    are in earlier layers; no completed layer is empty. *)
Record layering_inv (nodeMap : gmap jsstring nat) (E : list VisEdge.t)
    (layers0 : list (list jsstring)) (cur queue : list jsstring)
    (inDegree : gmap jsstring Z) (nodeLayerMap : gmap jsstring nat) : Prop := {
  li_base : kahn_inv nodeMap E (concat layers0 ++ cur) queue inDegree nodeLayerMap;
  li_complete : ∀ v, is_Some (nodeMap !! v) →
                     pending E (concat layers0 ++ cur) v = 0 →
                     v ∈ (concat layers0 ++ cur) ++ queue;
  li_index : ∀ v k, nodeLayerMap !! v = Some k
                    ↔ (∃ layer, layers0 !! k = Some layer ∧ v ∈ layer)
                      ∨ (k = length layers0 ∧ v ∈ cur);
  li_order : ∀ k layer e, layers0 !! k = Some layer → e ∈ E →
                          VisEdge.target e ∈ layer →
                          ∃ j layer', j < k ∧ layers0 !! j = Some layer'
                                      ∧ VisEdge.source e ∈ layer';
  li_nonempty : ∀ layer, layer ∈ layers0 → layer ≠ []
}.

(** Every node of a layer but the first has an edge from the layer before,
    and so has every queued node from the last layer. *)
Definition chained (E : list VisEdge.t) (layers0 : list (list jsstring))
    (queue : list jsstring) : Prop :=
  (∀ k layer v, layers0 !! S k = Some layer → v ∈ layer →
     ∃ e layer', e ∈ E ∧ VisEdge.target e = v
                 ∧ layers0 !! k = Some layer' ∧ VisEdge.source e ∈ layer')
  ∧ (∀ v, v ∈ queue → layers0 ≠ [] →
       ∃ e layer', e ∈ E ∧ VisEdge.target e = v
                   ∧ last layers0 = Some layer' ∧ VisEdge.source e ∈ layer').

(** The names of [l], each once, in the order of their first occurrence. *)
Fixpoint first_seen (l : list jsstring) : list jsstring :=
  match l with
  | [] => []
  | n :: l' => n :: filter (λ m, m ≠ n) (first_seen l')
  end.

(** [s] has only white space. *)
Definition blank (s : jsstring) : bool := forallb is_space s.

(** * Properties *)

(** ** The scanners *)

Lemma span_spec p s w r :
  span p s = (w, r) →
  s = w ++ r ∧ Forall (λ c, p c = true) w
  ∧ match r with [] => True | c :: _ => p c = false end.
Proof.
  revert w r. induction s as [|c s IH]; intros w r; simpl.
  - intros [= <- <-]. by repeat split.
  - destruct (p c) eqn:Hc.
    + destruct (span p s) as [w' r'] eqn:Hs. intros [= <- <-].
      destruct (IH w' r' eq_refl) as (-> & Hw & Hr).
      split; [done|]. split; [by constructor|done].
    + intros [= <- <-]. by repeat split.
Qed.

(** A run followed by a code unit outside the class is what [span] takes. *)
Lemma span_run p w r :
  Forall (λ c, p c = true) w →
  match r with [] => True | c :: _ => p c = false end →
  span p (w ++ r) = (w, r).
Proof.
  intros Hw Hr. induction Hw as [|c w Hc Hw IH]; simpl.
  - destruct r as [|c r]; [done|]. simpl. by rewrite Hr.
  - by rewrite Hc, IH.
Qed.

Lemma not_rparen_false c : not_rparen c = false → c = RPAREN.
Proof. unfold not_rparen. intros H%negb_false_iff. by apply N.eqb_eq. Qed.

Lemma not_rparen_Forall args :
  Forall (λ c, not_rparen c = true) args ↔ RPAREN ∉ args.
Proof.
  rewrite Forall_forall. split.
  - intros H Hin. specialize (H _ Hin). unfold not_rparen in H.
    by rewrite N.eqb_refl in H.
  - intros H c Hc. unfold not_rparen. apply negb_true_iff, N.eqb_neq.
    by intros ->.
Qed.

Lemma match_call_at_Some s w args rest :
  match_call_at s = Some (w, args, rest) →
  ∃ ws, s = w ++ ws ++ LPAREN :: args ++ RPAREN :: rest
        ∧ w ≠ []
        ∧ Forall (λ c, is_word c = true) w
        ∧ Forall (λ c, is_space c = true) ws
        ∧ RPAREN ∉ args.
Proof.
  unfold match_call_at.
  destruct (span is_word s) as [w0 r] eqn:Hw.
  destruct w0 as [|c0 w0]; [done|].
  destruct (span is_space r) as [ws r1] eqn:Hws.
  destruct r1 as [|c r2]; [done|].
  destruct (c =? LPAREN)%N eqn:Hc; [|done].
  destruct (span not_rparen r2) as [a r3] eqn:Ha.
  destruct r3 as [|c3 r4]; [done|].
  intros [= <- <- <-].
  apply span_spec in Hw as (-> & Hw & _).
  apply span_spec in Hws as (-> & Hws & _).
  apply span_spec in Ha as (-> & Ha & Hc3).
  apply not_rparen_false in Hc3 as ->. apply N.eqb_eq in Hc as ->.
  exists ws. repeat split; try done. by apply not_rparen_Forall.
Qed.

(** The converse: an occurrence at the start of the text is matched with
    exactly its name and its argument text, whatever follows the first close
    parenthesis. *)
Lemma match_call_at_occurrence w ws args rest :
  w ≠ [] →
  Forall (λ c, is_word c = true) w →
  Forall (λ c, is_space c = true) ws →
  RPAREN ∉ args →
  match_call_at (w ++ ws ++ LPAREN :: args ++ RPAREN :: rest)
  = Some (w, args, rest).
Proof.
  intros Hne Hw Hws Ha. unfold match_call_at.
  rewrite (span_run is_word w (ws ++ LPAREN :: args ++ RPAREN :: rest)); [|done|].
  - destruct w as [|c w]; [done|].
    rewrite (span_run is_space ws (LPAREN :: args ++ RPAREN :: rest)); [|done|done].
    simpl. rewrite (span_run not_rparen args (RPAREN :: rest)); [done| |done].
    by apply not_rparen_Forall.
  - destruct ws as [|c ws]; [done|]. simpl.
    apply Forall_cons in Hws as [Hc _]. revert Hc.
    unfold is_space, is_word. clear. intros Hc.
    repeat match goal with
           | H : (_ || _)%bool = true |- _ => apply orb_true_iff in H as [H|H]
           | H : (_ && _)%bool = true |- _ => apply andb_true_iff in H as [? ?]
           | H : (_ <=? _)%N = true |- _ => apply N.leb_le in H
           | H : (_ =? _)%N = true |- _ => apply N.eqb_eq in H
           end;
      repeat match goal with
             | |- (_ || _)%bool = false => apply orb_false_iff; split
             | |- (_ && _)%bool = false => apply andb_false_iff
             end;
      try (apply N.eqb_neq; lia);
      try (left; apply N.leb_gt; lia);
      try (right; apply N.leb_gt; lia).
Qed.

Lemma exec_processCallRegex_Some s w args rest :
  exec_processCallRegex s = Some (w, args, rest) →
  ∃ pre ws, s = pre ++ w ++ ws ++ LPAREN :: args ++ RPAREN :: rest
            ∧ w ≠ []
            ∧ Forall (λ c, is_word c = true) w
            ∧ Forall (λ c, is_space c = true) ws
            ∧ RPAREN ∉ args.
Proof.
  induction s as [|c s IH]; simpl.
  - done.
  - destruct (match_call_at (c :: s)) as [m|] eqn:Hm.
    + intros [= ->]. apply match_call_at_Some in Hm as (ws & ? & ?).
      by exists [], ws.
    + intros H. destruct (IH H) as (pre & ws & -> & ?).
      by exists (c :: pre), ws.
Qed.

Lemma exec_processCallRegex_length s w args rest :
  exec_processCallRegex s = Some (w, args, rest) → length rest < length s.
Proof.
  intros (pre & ws & -> & _)%exec_processCallRegex_Some.
  repeat (rewrite ?length_app, ?length_cons). lia.
Qed.

(** The bound on the iterations of the extraction loop is never reached:
    any fuel above the length of the text gives the same calls. *)
Lemma scan_calls_fuel f1 f2 defined s k :
  length s < f1 → length s < f2 →
  scan_calls f1 defined s k = scan_calls f2 defined s k.
Proof.
  revert f2 s k. induction f1 as [|f1 IH]; intros f2 s k H1 H2; [lia|].
  destruct f2 as [|f2]; [lia|]. simpl.
  destruct (exec_processCallRegex s) as [[[w a] rest]|] eqn:He; [|done].
  apply exec_processCallRegex_length in He.
  case_bool_decide; [f_equal|]; apply IH; lia.
Qed.

Lemma scan_calls_unfold defined s k :
  scan_calls (S (length s)) defined s k =
  match exec_processCallRegex s with
  | None => []
  | Some (processName, inputs, rest) =>
      if bool_decide (processName ∈ defined) then
        CallInstance.mk processName (processName ++ js "_" ++ decimal k) inputs
        :: scan_calls (S (length rest)) defined rest (S k)
      else scan_calls (S (length rest)) defined rest k
  end.
Proof.
  change (scan_calls (S (length s)) defined s k) with
    (match exec_processCallRegex s with
     | None => []
     | Some (processName, inputs, rest) =>
         if bool_decide (processName ∈ defined) then
           CallInstance.mk processName (processName ++ js "_" ++ decimal k) inputs
           :: scan_calls (length s) defined rest (S k)
         else scan_calls (length s) defined rest k
     end).
  destruct (exec_processCallRegex s) as [[[w a] rest]|] eqn:He; [|done].
  apply exec_processCallRegex_length in He.
  case_bool_decide; [f_equal|]; apply scan_calls_fuel; lia.
Qed.

(** The call index only shows in [callId]. *)
Lemma scan_calls_index f defined s k k' :
  map call_pair (scan_calls f defined s k)
  = map call_pair (scan_calls f defined s k').
Proof.
  revert s k k'. induction f as [|f IH]; intros s k k'; [done|]. simpl.
  destruct (exec_processCallRegex s) as [[[w a] rest]|]; [|done].
  case_bool_decide; simpl; [f_equal|]; apply IH.
Qed.

Lemma scan_calls_declared f defined s k c :
  c ∈ scan_calls f defined s k → CallInstance.name c ∈ defined.
Proof.
  revert s k. induction f as [|f IH]; intros s k; simpl; [by intros ?%elem_of_nil|].
  destruct (exec_processCallRegex s) as [[[w a] rest]|]; [|by intros ?%elem_of_nil].
  case_bool_decide as Hd; [|by apply IH].
  intros [->|Hc]%elem_of_cons; [done|by eapply IH].
Qed.

Lemma scan_calls_word f defined s k c :
  c ∈ scan_calls f defined s k →
  CallInstance.name c ≠ [] ∧ Forall (λ c, is_word c = true) (CallInstance.name c).
Proof.
  revert s k. induction f as [|f IH]; intros s k; simpl; [by intros ?%elem_of_nil|].
  destruct (exec_processCallRegex s) as [[[w a] rest]|] eqn:He;
    [|by intros ?%elem_of_nil].
  apply exec_processCallRegex_Some in He as (pre & ws & _ & Hne & Hw & _).
  case_bool_decide as Hd; [|by apply IH].
  intros [->|Hc]%elem_of_cons; [done|by eapply IH].
Qed.

Lemma in_order_skip pre s calls : in_order s calls → in_order (pre ++ s) calls.
Proof.
  destruct 1 as [s|pre' w ws args rest calls]; [constructor|].
  rewrite (app_assoc pre pre'). by constructor.
Qed.

Lemma scan_calls_in_order f defined s k :
  in_order s (map call_pair (scan_calls f defined s k)).
Proof.
  revert s k. induction f as [|f IH]; intros s k; simpl; [constructor|].
  destruct (exec_processCallRegex s) as [[[w a] rest]|] eqn:He; [|constructor].
  apply exec_processCallRegex_Some in He as (pre & ws & -> & Hne & Hw & Hws & Ha).
  case_bool_decide as Hd; simpl.
  - by constructor.
  - replace (pre ++ w ++ ws ++ LPAREN :: a ++ RPAREN :: rest)
      with ((pre ++ w ++ ws ++ LPAREN :: a ++ [RPAREN]) ++ rest).
    + apply in_order_skip, IH.
    + rewrite <- !app_assoc. simpl. by rewrite <- app_assoc.
Qed.

Lemma strip_prefix_Some p s r : strip_prefix p s = Some r → s = p ++ r.
Proof.
  revert s. induction p as [|a p IH]; intros [|b s]; simpl; try done.
  - by intros [= ->].
  - by intros [= ->].
  - destruct (a =? b)%N eqn:Hab; [|done]. apply N.eqb_eq in Hab as ->.
    by intros ->%IH.
Qed.

Lemma match_ref_at_Some s w rest :
  match_ref_at s = Some (w, rest) →
  w ≠ [] ∧ Forall (λ c, is_word c = true) w ∧ length rest < length s.
Proof.
  unfold match_ref_at.
  destruct (span is_word s) as [w0 r] eqn:Hw.
  apply span_spec in Hw as (-> & Hw & _).
  destruct w0 as [|c0 w0]; [done|].
  destruct (strip_prefix (js ".out") r) as [r1|] eqn:Hp; [|done].
  apply strip_prefix_Some in Hp as ->.
  assert (∀ t : jsstring, length t ≤ length r1 →
               length t < length ((c0 :: w0) ++ js ".out" ++ r1)) as Hlen.
  { intros t Ht. rewrite !length_app. simpl. lia. }
  destruct r1 as [|c r2].
  { intros [= <- <-]. repeat split; try done. by apply Hlen. }
  destruct (c =? DOT)%N.
  - destruct (span is_word r2) as [w2 r3] eqn:H2.
    apply span_spec in H2 as (-> & _ & _).
    destruct w2; intros [= <- <-]; (repeat split; [done..|]); apply Hlen;
      simpl; rewrite ?length_app; lia.
  - intros [= <- <-]. repeat split; try done. by apply Hlen.
Qed.

Lemma exec_sourceProcessRegex_Some s w rest :
  exec_sourceProcessRegex s = Some (w, rest) →
  w ≠ [] ∧ Forall (λ c, is_word c = true) w ∧ length rest < length s.
Proof.
  induction s as [|c s IH]; simpl; [done|].
  destruct (match_ref_at (c :: s)) as [m|] eqn:Hm.
  - intros [= ->]. by apply match_ref_at_Some in Hm.
  - intros (? & ? & ?)%IH. repeat split; try done. lia.
Qed.

(** The bound on the iterations of the reference loop is never reached. *)
Lemma scan_refs_fuel f1 f2 s :
  length s < f1 → length s < f2 → scan_refs f1 s = scan_refs f2 s.
Proof.
  revert f2 s. induction f1 as [|f1 IH]; intros f2 s H1 H2; [lia|].
  destruct f2 as [|f2]; [lia|]. simpl.
  destruct (exec_sourceProcessRegex s) as [[w rest]|] eqn:He; [|done].
  apply exec_sourceProcessRegex_Some in He as (_ & _ & Hlen).
  f_equal. apply IH; lia.
Qed.

Lemma scan_refs_word f s r :
  r ∈ scan_refs f s → r ≠ [] ∧ Forall (λ c, is_word c = true) r.
Proof.
  revert s. induction f as [|f IH]; intros s; simpl; [by intros ?%elem_of_nil|].
  destruct (exec_sourceProcessRegex s) as [[w rest]|] eqn:He;
    [|by intros ?%elem_of_nil].
  apply exec_sourceProcessRegex_Some in He as (Hne & Hw & _).
  intros [->|Hr]%elem_of_cons; [done|by eapply IH].
Qed.

(** ** The nodes *)

Lemma foldl_snoc {A B} (f : A → B → A) a l x :
  foldl f a (l ++ [x]) = f (foldl f a l) x.
Proof. by rewrite foldl_app. Qed.

Lemma ordinary_lookup nodeMap n :
  ordinary nodeMap !! n = if bool_decide (n = PROTO) then None else nodeMap !! n.
Proof.
  unfold ordinary. case_bool_decide as Hn.
  - rewrite Hn. apply lookup_delete_eq.
  - by apply lookup_delete_ne.
Qed.

Lemma ordinary_is_Some nodeMap n :
  is_Some (ordinary nodeMap !! n) ↔ n ≠ PROTO ∧ is_Some (nodeMap !! n).
Proof.
  rewrite ordinary_lookup. case_bool_decide as Hn.
  - split; [by intros [? ?]|by intros [? _]].
  - tauto.
Qed.

Lemma add_node_inv calls st c :
  nodes_inv calls st → nodes_inv (calls ++ [c]) (add_node st c).
Proof.
  intros [[Hix1 Hix2] Hfresh Hnames HG Hdeg]. unfold add_node.
  destruct (ns_nodeMap st !! CallInstance.name c) as [i|] eqn:Hc.
  - split; try done. intros n. rewrite Hnames. split.
    + intros (c' & Hc' & <-). exists c'. split; [|done].
      apply elem_of_app. by left.
    + intros (c' & [Hc'| ->%list_elem_of_singleton]%elem_of_app & <-).
      * by exists c'.
      * apply Hnames. by rewrite Hc.
  - set (n0 := CallInstance.name c) in *.
    assert (node_index_ok (<[n0 := length (ns_nodes st)]> (ns_nodeMap st))
              (ns_nodes st ++ [new_node n0])) as Hindex'.
    { split.
      * intros n i. destruct (decide (n0 = n)) as [<-|Hne].
        -- rewrite lookup_insert_eq. intros [= <-].
           exists (new_node n0). split; [|done].
           by rewrite lookup_app_r, Nat.sub_diag.
        -- rewrite lookup_insert_ne by done. intros (nd & Hnd & <-)%Hix1.
           exists nd. split; [|done]. by apply lookup_app_l_Some.
      * intros i nd. rewrite lookup_app_Some.
        intros [Hnd|[Hi Hnd]].
        -- rewrite lookup_insert_ne; [by apply Hix2|].
           intros Heq. apply Hix2 in Hnd. congruence.
        -- apply list_lookup_singleton_Some in Hnd as [Hi0 <-]. simpl.
           rewrite lookup_insert_eq. f_equal. lia. }
    assert (∀ nd, nd ∈ ns_nodes st ++ [new_node n0] →
                  nd = new_node (VisNode.id nd)) as Hfresh'.
    { intros nd [Hnd| ->%list_elem_of_singleton]%elem_of_app;
        [by apply Hfresh|done]. }
    assert (∀ n, is_Some (<[n0 := length (ns_nodes st)]> (ns_nodeMap st) !! n)
                 ↔ ∃ c', c' ∈ calls ++ [c] ∧ CallInstance.name c' = n) as Hnames'.
    { intros n. destruct (decide (n0 = n)) as [<-|Hne].
      * rewrite lookup_insert_eq. split; [|done]. intros _. exists c.
        split; [|done]. apply elem_of_app. right. by apply list_elem_of_singleton.
      * rewrite lookup_insert_ne by done. rewrite Hnames. split.
        -- intros (c' & Hc' & <-). exists c'. split; [|done].
           apply elem_of_app. by left.
        -- intros (c' & [Hc'| ->%list_elem_of_singleton]%elem_of_app & <-);
             [by exists c'|done]. }
    case_bool_decide as Hp; split; simpl; try done.
    + intros n. rewrite HG, !ordinary_lookup. case_bool_decide as Hn; [done|].
      rewrite lookup_insert_ne; [done|]. congruence.
    + intros n. rewrite Hdeg, !ordinary_lookup. case_bool_decide as Hn; [done|].
      rewrite lookup_insert_ne; [done|]. congruence.
    + intros n. rewrite ordinary_lookup.
      destruct (decide (n0 = n)) as [<-|Hne].
      * rewrite !lookup_insert_eq. by rewrite bool_decide_eq_false_2.
      * rewrite !lookup_insert_ne by done. by rewrite HG, ordinary_lookup.
    + intros n. rewrite ordinary_lookup.
      destruct (decide (n0 = n)) as [<-|Hne].
      * rewrite !lookup_insert_eq. by rewrite bool_decide_eq_false_2.
      * rewrite !lookup_insert_ne by done. by rewrite Hdeg, ordinary_lookup.
Qed.

Lemma build_nodes_inv calls : nodes_inv calls (build_nodes calls).
Proof.
  unfold build_nodes. induction calls as [|c calls IH] using rev_ind.
  - split; simpl.
    + split; [by intros n i; rewrite lookup_empty|by intros i nd; rewrite lookup_nil].
    + by intros nd ?%elem_of_nil.
    + intros n. rewrite lookup_empty. split; [by intros [? ?]|].
      by intros (c & ?%elem_of_nil & _).
    + intros n. by rewrite !lookup_empty.
    + intros n. by rewrite !lookup_empty.
  - rewrite foldl_snoc. by apply add_node_inv.
Qed.

(** A node index that agrees with the nodes gives distinct ids. *)
Lemma node_index_ok_NoDup nodeMap nodes :
  node_index_ok nodeMap nodes → NoDup (map VisNode.id nodes).
Proof.
  intros [_ H2]. apply NoDup_alt. intros i j n Hi Hj.
  rewrite list_lookup_fmap in Hi, Hj.
  destruct (nodes !! i) as [ni|] eqn:Hni; [|done].
  destruct (nodes !! j) as [nj|] eqn:Hnj; [|done].
  simpl in *. apply H2 in Hni, Hnj. congruence.
Qed.

Lemma node_index_ok_dom nodeMap nodes n :
  node_index_ok nodeMap nodes →
  is_Some (nodeMap !! n) ↔ n ∈ map VisNode.id nodes.
Proof.
  intros [H1 H2]. split.
  - intros [i (nd & Hnd & <-)%H1]. apply list_elem_of_fmap. exists nd.
    split; [done|]. by eapply list_elem_of_lookup_2.
  - intros (nd & -> & [i Hi]%list_elem_of_lookup)%list_elem_of_fmap.
    apply H2 in Hi. by rewrite Hi.
Qed.

Lemma nodeMap_get_Some nodeMap nodes n i nd :
  node_index_ok nodeMap nodes →
  nodeMap_get nodeMap nodes n = Some (i, nd)
  ↔ nodes !! i = Some nd ∧ VisNode.id nd = n.
Proof.
  intros [H1 H2]. unfold nodeMap_get. split.
  - destruct (nodeMap !! n) as [j|] eqn:Hn; [|done].
    destruct (H1 _ _ Hn) as (nd' & Hnd' & Hid). rewrite Hnd'.
    by intros [= <- <-].
  - intros [Hnd <-]. by rewrite (H2 _ _ Hnd), Hnd.
Qed.

Lemma nodeMap_get_None nodeMap nodes n :
  node_index_ok nodeMap nodes →
  nodeMap_get nodeMap nodes n = None ↔ nodeMap !! n = None.
Proof.
  intros [H1 H2]. unfold nodeMap_get. split.
  - destruct (nodeMap !! n) as [j|] eqn:Hn; [|done].
    destruct (H1 _ _ Hn) as (nd' & Hnd' & Hid). by rewrite Hnd'.
  - by intros ->.
Qed.

(** ** The edges *)

Lemma has_edge_id_true i es :
  has_edge_id i es = true ↔ ∃ e, e ∈ es ∧ VisEdge.id e = i.
Proof.
  unfold has_edge_id. rewrite existsb_exists. split.
  - intros (e & He%list_elem_of_In & Hi%bool_decide_eq_true). by exists e.
  - intros (e & He & Hi). exists e. split; [by apply list_elem_of_In|].
    by apply bool_decide_eq_true.
Qed.

Lemma is_word_not_dash c : is_word c = true → c ≠ 45%N.
Proof. by intros H ->. Qed.

(** The id determines the pair when the source is a word. *)
Lemma edge_id_inj s t s' t' :
  Forall (λ c, is_word c = true) s → Forall (λ c, is_word c = true) s' →
  edge_id s t = edge_id s' t' → s = s' ∧ t = t'.
Proof.
  unfold edge_id. intros Hs. revert s'.
  induction Hs as [|c s Hc Hs IH]; intros s' Hs'; destruct Hs' as [|c' s' Hc' Hs'];
    simpl.
  - by intros [= ->].
  - intros [= <- _]. by apply is_word_not_dash in Hc'.
  - intros [= -> _]. by apply is_word_not_dash in Hc.
  - intros [= -> H]. destruct (IH s' Hs' H) as [-> ->]. done.
Qed.

Lemma succs_snoc es e u :
  succs (es ++ [e]) u
  = succs es u ++ (if decide (VisEdge.source e = u) then [VisEdge.target e] else []).
Proof.
  unfold succs. rewrite filter_app, fmap_app. f_equal.
  rewrite filter_cons, filter_nil. by case_decide.
Qed.

Lemma preds_count_snoc es e t :
  preds_count (es ++ [e]) t
  = preds_count es t + (if decide (VisEdge.target e = t) then 1 else 0).
Proof.
  unfold preds_count. rewrite filter_app, length_app. f_equal.
  rewrite filter_cons, filter_nil. by case_decide.
Qed.

Lemma elem_of_succs es u v :
  v ∈ succs es u ↔ ∃ e, e ∈ es ∧ VisEdge.source e = u ∧ VisEdge.target e = v.
Proof.
  unfold succs. rewrite list_elem_of_fmap. split.
  - intros (e & -> & [? ?]%list_elem_of_filter). by exists e.
  - intros (e & He & Hs & <-). exists e. split; [done|].
    by apply list_elem_of_filter.
Qed.

(** When a new edge is added and nothing is thrown, the own properties
    of [G] change only for a source that has an own entry. *)
Lemma add_edge_Some defined t st s st' :
  s ∈ defined → s ≠ t →
  has_edge_id (edge_id s t) (es_edges st) = false →
  add_edge defined t st s = Some st' →
  es_edges st' = es_edges st ++ [new_edge s t]
  ∧ es_G st' = match es_G st !! s with
               | Some succs =>
                   if bool_decide (t ∈ succs) then es_G st
                   else <[s := succs ++ [t]]> (es_G st)
               | None => es_G st
               end
  ∧ es_inDegree st' = count_edge (es_inDegree st) t.
Proof.
  intros Hdef Hne Hhas. unfold add_edge, G_get.
  rewrite (bool_decide_eq_true_2 _ Hdef), (bool_decide_eq_false_2 _ Hne), Hhas.
  cbn [negb andb]. cbv zeta.
  destruct (es_G st !! s) as [succs|].
  - case_bool_decide; by intros [= <-].
  - intros H. repeat (case_match; try done); by injection H as <-.
Qed.

Lemma add_edge_old defined t st s :
  ¬ (s ∈ defined ∧ s ≠ t) ∨ has_edge_id (edge_id s t) (es_edges st) = true →
  add_edge defined t st s = Some st.
Proof.
  unfold add_edge. intros [Hg|Hhas].
  - destruct (bool_decide (s ∈ defined)) eqn:Hdef; [|done].
    destruct (bool_decide (s = t)) eqn:Hst; [done|].
    apply bool_decide_eq_true in Hdef. apply bool_decide_eq_false in Hst.
    by destruct Hg.
  - rewrite Hhas. by destruct (_ && _).
Qed.

Section add_edge.
Context (defined : list jsstring) (nodeMap : gmap jsstring nat).

  (** A discovery whose pair is already an edge changes nothing; a new one
      adds the edge, the successor and the in-degree. *)
Lemma add_edge_inv t st s st' :
    is_Some (nodeMap !! t) →
    Forall (λ c, is_word c = true) s →
    edges_inv defined nodeMap st →
    add_edge defined t st s = Some st' →
    edges_inv defined nodeMap st'
    ∧ map edge_pair (es_edges st')
      = (if bool_decide (s ∈ defined ∧ s ≠ t)
         then record_pair (map edge_pair (es_edges st)) (s, t)
         else map edge_pair (es_edges st)).
Proof.
    intros [i Ht] Hs Hinv Hadd.
    pose proof Hinv as [Hshape Hguard Hword Htarget Hnodup HG Hdeg].
    case_bool_decide as Hg.
    2:{ rewrite add_edge_old in Hadd by (by left). by injection Hadd as <-. }
    destruct Hg as [Hdef Hst]. unfold record_pair.
    destruct (has_edge_id (edge_id s t) (es_edges st)) eqn:Hhas.
    - rewrite add_edge_old in Hadd by (by right). injection Hadd as <-.
      split; [done|]. rewrite bool_decide_eq_true_2; [done|].
      apply has_edge_id_true in Hhas as (e & He & Hid).
      apply list_elem_of_fmap. exists e. split; [|done].
      rewrite (Hshape e He) in Hid. simpl in Hid.
      apply edge_id_inj in Hid as [<- <-]; [done|by apply Hword|done].
    - destruct (add_edge_Some defined t st s st' Hdef Hst Hhas Hadd)
        as (Hedges & HG' & Hdeg').
      assert (∀ e, e ∈ es_edges st → edge_pair e ≠ (s, t)) as Hnew.
      { intros e He [= Hes Het]. apply not_true_iff_false in Hhas. apply Hhas.
        apply has_edge_id_true. exists e. split; [done|].
        rewrite (Hshape e He). simpl. by rewrite Hes, Het. }
      split.
      + split; rewrite ?Hedges.
        * intros e [He| ->%list_elem_of_singleton]%elem_of_app; [by apply Hshape|done].
        * intros e [He| ->%list_elem_of_singleton]%elem_of_app; [by apply Hguard|done].
        * intros e [He| ->%list_elem_of_singleton]%elem_of_app; [by apply Hword|done].
        * intros e [He| ->%list_elem_of_singleton]%elem_of_app; [by apply Htarget|].
          simpl. by rewrite Ht.
        * rewrite fmap_app. apply NoDup_app. split; [done|]. split.
          -- intros x Hx ->%list_elem_of_singleton.
             apply list_elem_of_fmap in Hx as (e & Hid & He).
             apply not_true_iff_false in Hhas. apply Hhas.
             apply has_edge_id_true. by exists e.
          -- apply NoDup_singleton.
        * intros u. rewrite HG', succs_snoc. simpl.
          pose proof (HG s) as HGs.
          destruct (ordinary nodeMap !! s) as [j|] eqn:Hns; simpl in HGs; rewrite HGs.
          -- rewrite bool_decide_eq_false_2.
             ++ destruct (decide (s = u)) as [<-|Hne].
                ** by rewrite lookup_insert_eq, Hns.
                ** rewrite lookup_insert_ne by done. rewrite HG.
                   by rewrite app_nil_r.
             ++ intros (e & He & Hes & Het)%elem_of_succs.
                apply (Hnew e He). unfold edge_pair. by rewrite Hes, Het.
          -- destruct (decide (s = u)) as [<-|Hne].
             ++ by rewrite HGs, Hns.
             ++ rewrite HG. by rewrite app_nil_r.
        * intros t'. rewrite Hdeg', preds_count_snoc. simpl.
          unfold count_edge. case_bool_decide as Hp.
          -- rewrite Hdeg, ordinary_lookup. case_bool_decide as Hp'; [done|].
             rewrite decide_False by congruence. by rewrite Nat.add_0_r.
          -- destruct (decide (t = t')) as [<-|Hne].
             ++ rewrite lookup_insert_eq, Hdeg, ordinary_lookup.
                rewrite bool_decide_eq_false_2 by done. rewrite Ht. simpl.
                f_equal. lia.
             ++ rewrite lookup_insert_ne by done. rewrite Hdeg.
                by rewrite Nat.add_0_r.
      + rewrite Hedges, fmap_app. simpl. rewrite bool_decide_eq_false_2; [done|].
        intros (e & Hp & He)%list_elem_of_fmap. by apply (Hnew e He).
Qed.

Lemma add_edges_of_inv st c st' :
    is_Some (nodeMap !! CallInstance.name c) →
    edges_inv defined nodeMap st →
    add_edges_of defined st c = Some st' →
    edges_inv defined nodeMap st'
    ∧ map edge_pair (es_edges st')
      = foldl record_pair (map edge_pair (es_edges st)) (discovered_of defined c).
Proof.
    intros Hc. unfold add_edges_of, discovered_of.
    assert (∀ r, r ∈ references (CallInstance.inputs c) →
                 Forall (λ c, is_word c = true) r) as Hw.
    { intros r Hr. by apply scan_refs_word in Hr as [_ ?]. }
    revert st Hw.
    induction (references (CallInstance.inputs c)) as [|r refs IH];
      intros st Hw Hinv Hrun.
    - injection Hrun as <-. done.
    - cbn [foldl_throws] in Hrun.
      destruct (add_edge defined (CallInstance.name c) st r) as [st1|] eqn:H1;
        [|done].
      destruct (add_edge_inv (CallInstance.name c) st r st1 Hc) as [Hinv' Hp];
        [apply Hw; by left|done|done|].
      destruct (IH st1) as [Hinv'' Hp''];
        [intros r' Hr'; apply Hw; by right|done|done|].
      split; [done|]. rewrite Hp'', Hp. rewrite filter_cons.
      case_bool_decide; case_decide; done.
Qed.
End add_edge.

Lemma discovered_cons defined c calls :
  discovered defined (c :: calls)
  = discovered_of defined c ++ discovered defined calls.
Proof. done. Qed.

Lemma infer_edges_fold defined nodeMap calls st st' :
  (∀ c, c ∈ calls → is_Some (nodeMap !! CallInstance.name c)) →
  edges_inv defined nodeMap st →
  foldl_throws (add_edges_of defined) st calls = Some st' →
  edges_inv defined nodeMap st'
  ∧ map edge_pair (es_edges st')
    = foldl record_pair (map edge_pair (es_edges st)) (discovered defined calls).
Proof.
  revert st. induction calls as [|c calls IH]; intros st Hcalls Hinv Hrun.
  - injection Hrun as <-. done.
  - cbn [foldl_throws] in Hrun.
    destruct (add_edges_of defined st c) as [st1|] eqn:H1; [|done].
    rewrite discovered_cons, foldl_app.
    destruct (add_edges_of_inv defined nodeMap st c st1) as [Hinv' Hp];
      [apply Hcalls; by left|done|done|].
    destruct (IH st1) as [Hinv'' Hp''];
      [intros c' Hc'; apply Hcalls; by right|done|done|].
    split; [done|]. by rewrite Hp'', Hp.
Qed.

Lemma infer_edges_inv defined calls es :
  infer_edges defined calls (build_nodes calls) = Some es →
  edges_inv defined (ns_nodeMap (build_nodes calls)) es
  ∧ map edge_pair (es_edges es) = first_wins (discovered defined calls).
Proof.
  set (ns := build_nodes calls). intros Hrun.
  pose proof (build_nodes_inv calls) as Hn. fold ns in Hn.
  apply (infer_edges_fold defined (ns_nodeMap ns) calls
           (mkEdgeState [] (ns_G ns) (ns_Gproto ns) (ns_inDegree ns))).
  - intros c Hc. apply (ni_names _ _ Hn). by exists c.
  - split; simpl; try done.
    + by intros e ?%elem_of_nil.
    + by intros e ?%elem_of_nil.
    + by intros e ?%elem_of_nil.
    + by intros e ?%elem_of_nil.
    + constructor.
    + intros u. by rewrite (ni_G _ _ Hn).
    + intros t. by rewrite (ni_inDegree _ _ Hn).
  - done.
Qed.

Lemma edges_inv_pairs_NoDup defined nodeMap st :
  edges_inv defined nodeMap st → NoDup (map edge_pair (es_edges st)).
Proof.
  intros Hinv. apply NoDup_alt. intros i j p Hi Hj.
  rewrite list_lookup_fmap in Hi, Hj.
  destruct (es_edges st !! i) as [ei|] eqn:Hei; [|done].
  destruct (es_edges st !! j) as [ej|] eqn:Hej; [|done].
  simpl in *. injection Hi as <-.
  assert (edge_pair ej = edge_pair ei) as Hp by congruence.
  pose proof (ei_nodup _ _ _ Hinv) as Hnd.
  eapply NoDup_lookup; [exact Hnd| |]; rewrite list_lookup_fmap.
  - by rewrite Hei.
  - rewrite Hej. simpl. f_equal.
    rewrite (ei_shape _ _ _ Hinv ei), (ei_shape _ _ _ Hinv ej);
      [|by eapply list_elem_of_lookup_2..].
    simpl. unfold edge_pair in Hp. by injection Hp as -> ->.
Qed.

(** ** The layering *)

Lemma dec_all_notin l inDegree v :
  v ∉ l → dec_all l inDegree !! v = inDegree !! v.
Proof.
  revert inDegree. induction l as [|a l IH]; intros inDegree Hv; [done|].
  apply not_elem_of_cons in Hv as [Hva Hv]. simpl.
  change (dec_all l (alter Z.pred a inDegree) !! v = inDegree !! v).
  rewrite IH by done. by rewrite lookup_alter_ne.
Qed.

Lemma dec_all_in l inDegree v :
  NoDup l → v ∈ l → dec_all l inDegree !! v = Z.pred <$> inDegree !! v.
Proof.
  revert inDegree. induction l as [|a l IH]; intros inDegree Hnd Hv.
  - by apply elem_of_nil in Hv.
  - apply NoDup_cons in Hnd as [Ha Hnd]. simpl.
    change (dec_all l (alter Z.pred a inDegree) !! v = Z.pred <$> inDegree !! v).
    apply elem_of_cons in Hv as [->|Hv].
    + rewrite dec_all_notin by done. by rewrite lookup_alter_eq.
    + rewrite IH by done. rewrite lookup_alter_ne; [done|]. by intros ->.
Qed.

Lemma filter_ext_elem {A} (P Q : A → Prop) `{∀ x, Decision (P x)}
    `{∀ x, Decision (Q x)} (l : list A) :
  (∀ x, x ∈ l → P x ↔ Q x) → filter P l = filter Q l.
Proof.
  induction l as [|a l IH]; intros HPQ; [done|].
  rewrite !filter_cons. rewrite IH by (intros x Hx; apply HPQ; by right).
  pose proof (HPQ a (list_elem_of_here a l)) as Ha.
  repeat case_decide; tauto.
Qed.

(** The inner [forEach] over a duplicate-free successor list: every
    successor is decremented once, and those that were at [1] join the
    queue in order. *)
Lemma relax_fold l q inDegree :
  NoDup l →
  foldl relax (q, inDegree) l
  = (q ++ filter (λ v, inDegree !! v = Some 1%Z) l, dec_all l inDegree).
Proof.
  revert q inDegree. induction l as [|a l IH]; intros q inDegree Hnd.
  - simpl. by rewrite app_nil_r.
  - apply NoDup_cons in Hnd as [Ha Hnd]. simpl. unfold relax at 2. simpl.
    rewrite lookup_alter_eq.
    assert (filter (λ v, alter Z.pred a inDegree !! v = Some 1%Z) l
            = filter (λ v, inDegree !! v = Some 1%Z) l) as Hf.
    { apply filter_ext_elem. intros v Hv.
      rewrite lookup_alter_ne; [done|]. by intros ->. }
    rewrite filter_cons.
    destruct (inDegree !! a) as [d|] eqn:Hd; simpl.
    + case_bool_decide as H0; case_decide as H1.
      * rewrite IH by done. rewrite Hf. by rewrite <- app_assoc.
      * exfalso. apply H1. f_equal. injection H0. lia.
      * exfalso. apply H0. f_equal. injection H1. lia.
      * rewrite IH by done. by rewrite Hf.
    + rewrite IH by done. by rewrite Hf.
Qed.

Lemma filter_split_length {A} (P Q R : A → Prop) `{∀ x, Decision (P x)}
    `{∀ x, Decision (Q x)} `{∀ x, Decision (R x)} (l : list A) :
  (∀ x, x ∈ l → (P x ↔ Q x ∨ R x) ∧ ¬ (Q x ∧ R x)) →
  length (filter P l) = length (filter Q l) + length (filter R l).
Proof.
  induction l as [|a l IH]; intros Hl; [done|].
  rewrite !filter_cons.
  pose proof (Hl a (list_elem_of_here a l)) as [Ha Hna].
  specialize (IH (λ x Hx, Hl x (list_elem_of_further x a l Hx))).
  repeat case_decide; simpl; try lia; tauto.
Qed.

Lemma succs_cons e es u :
  succs (e :: es) u
  = if decide (VisEdge.source e = u) then VisEdge.target e :: succs es u
    else succs es u.
Proof. unfold succs. rewrite filter_cons. by case_decide. Qed.

Lemma succs_NoDup es u : NoDup (map edge_pair es) → NoDup (succs es u).
Proof.
  induction es as [|e es IH]; [constructor|].
  rewrite fmap_cons, NoDup_cons. intros [He Hnd]. rewrite succs_cons.
  case_decide as Hs; [|by apply IH].
  apply NoDup_cons. split; [|by apply IH].
  intros (e' & He' & Hs' & Ht')%elem_of_succs. apply He.
  apply list_elem_of_fmap. exists e'. split; [|done].
  unfold edge_pair. by rewrite Hs, Hs', Ht'.
Qed.

(** With distinct pairs, at most one edge goes from [u] to [v]. *)
Lemma count_pair es u v :
  NoDup (map edge_pair es) →
  length (filter (λ e, VisEdge.target e = v ∧ VisEdge.source e = u) es)
  = if decide (v ∈ succs es u) then 1 else 0.
Proof.
  induction es as [|e es IH]; [done|].
  rewrite fmap_cons, NoDup_cons. intros [He Hnd].
  rewrite filter_cons, succs_cons. specialize (IH Hnd).
  destruct (decide (VisEdge.source e = u)) as [Hs|Hs].
  - assert (v ∉ succs es u ∨ VisEdge.target e ≠ v) as Hfresh.
    { destruct (decide (VisEdge.target e = v)) as [Ht|Ht]; [left|by right].
      intros (e' & He' & Hs' & Ht')%elem_of_succs. apply He.
      apply list_elem_of_fmap. exists e'. split; [|done].
      unfold edge_pair. by rewrite Hs, Hs', Ht, Ht'. }
    destruct (decide (VisEdge.target e = v ∧ VisEdge.source e = u)) as [[Ht _]|Hn];
      simpl; rewrite IH.
    + destruct Hfresh as [Hv|]; [|done].
      rewrite (decide_False (P := v ∈ succs es u)) by done.
      rewrite decide_True; [done|]. rewrite Ht. apply elem_of_cons. by left.
    + assert (VisEdge.target e ≠ v) as Ht by tauto.
      destruct (decide (v ∈ succs es u)) as [Hv|Hv].
      * rewrite decide_True; [done|]. apply elem_of_cons. by right.
      * rewrite decide_False; [done|]. intros [?|?]%elem_of_cons; congruence.
  - rewrite decide_False by tauto. done.
Qed.

Lemma pending_snoc E P u v :
  NoDup (map edge_pair E) → u ∉ P →
  pending E P v
  = pending E (P ++ [u]) v + (if decide (v ∈ succs E u) then 1 else 0).
Proof.
  intros Hnd Hu. rewrite <- (count_pair E u v Hnd). unfold pending.
  apply filter_split_length. intros e _.
  rewrite elem_of_app, list_elem_of_singleton. split.
  - destruct (decide (VisEdge.source e = u)) as [->|Hne]; tauto.
  - intros [[_ H1] [_ H2]]. tauto.
Qed.

Lemma pending_nil E v : pending E [] v = preds_count E v.
Proof.
  unfold pending, preds_count. f_equal. apply filter_ext_elem.
  intros e _. split; [tauto|]. intros ?. split; [done|]. apply not_elem_of_nil.
Qed.

(** If no edge into [v] is pending, the sources of its edges are in [P]. *)
Lemma pending_0 E P v e :
  pending E P v = 0 → e ∈ E → VisEdge.target e = v → VisEdge.source e ∈ P.
Proof.
  unfold pending. intros H0 He Ht.
  destruct (decide (VisEdge.source e ∈ P)) as [|Hn]; [done|].
  apply length_zero_iff_nil in H0.
  exfalso. by apply (filter_nil_not_elem_of _ _ e H0).
Qed.

Lemma visit_cons G cl u q layer nlm inD :
  u ≠ [] →
  visit G cl (mkWaveState (u :: q) layer nlm inD)
  = mkWaveState (foldl relax (q, inD) (default [] (G !! u))).1 (layer ++ [u])
      (<[u := cl]> nlm) (foldl relax (q, inD) (default [] (G !! u))).2.
Proof. by destruct u. Qed.

Lemma dec_all_is_Some l inDegree v :
  is_Some (dec_all l inDegree !! v) → is_Some (inDegree !! v).
Proof.
  revert inDegree. induction l as [|a l IH]; intros inDegree; [done|].
  simpl. change (is_Some (dec_all l (alter Z.pred a inDegree) !! v)
                 → is_Some (inDegree !! v)).
  intros H%IH. destruct (decide (a = v)) as [->|Hne].
  - rewrite lookup_alter_eq in H. by apply fmap_is_Some in H.
  - by rewrite lookup_alter_ne in H.
Qed.

Section kahn.
Context (nodeMap : gmap jsstring nat) (nodes0 : list VisNode.t)
          (E : list VisEdge.t) (G : gmap jsstring (list jsstring)).
Hypothesis Hdom : ∀ v, is_Some (nodeMap !! v) → v ∈ map VisNode.id nodes0.
Hypothesis HG : ∀ u, G !! u = (λ _, succs E u) <$> nodeMap !! u.
Hypothesis Hpairs : NoDup (map edge_pair E).
Hypothesis Hnonempty : nodeMap !! [] = None.

Local Abbreviation kinv := (kahn_inv nodeMap E).

Lemma visit_inv P u q layer nlm inD cl :
    kinv P (u :: q) inD nlm →
    let st' := visit G cl (mkWaveState (u :: q) layer nlm inD) in
    ws_layer st' = layer ++ [u]
    ∧ ∃ new, ws_queue st' = q ++ new
             ∧ kinv (P ++ [u]) (q ++ new) (ws_inDegree st')
                 (ws_nodeLayerMap st').
Proof.
    intros [Hdeg Hnd Hnode Hready Hlayer Hown]. cbv zeta.
    assert (is_Some (nodeMap !! u)) as Hu.
    { apply Hnode, elem_of_app. right. apply elem_of_cons. by left. }
    assert (u ∉ P) as HuP.
    { apply NoDup_app in Hnd as (_ & Hd & _). intros HP.
      apply (Hd u HP), elem_of_cons. by left. }
    assert (G !! u = Some (succs E u)) as HGu.
    { rewrite HG. by destruct Hu as [i ->]. }
    assert (u ≠ []) as Hne.
    { intros ->. rewrite Hnonempty in Hu. by destruct Hu. }
    rewrite visit_cons by done. rewrite HGu. cbn [default].
    rewrite relax_fold by (by apply succs_NoDup).
    cbn [fst snd ws_queue ws_layer ws_nodeLayerMap ws_inDegree].
    split; [done|].
    set (new := filter (λ v, inD !! v = Some 1%Z) (succs E u)).
    exists new. split; [done|].
    assert (∀ v, v ∈ new → is_Some (nodeMap !! v)) as Hnew_node.
    { intros v [Hv1 Hv]%list_elem_of_filter. apply Hown. by rewrite Hv1. }
    assert (∀ v, v ∈ new → v ∈ succs E u ∧ pending E P v = 1) as Hnew.
    { intros v Hv. pose proof (Hnew_node v Hv) as Hnode_v.
      apply list_elem_of_filter in Hv as [Hv1 Hv]. split; [done|].
      rewrite (Hdeg v Hnode_v) in Hv1. injection Hv1. lia. }
    assert ((P ++ [u]) ++ q ++ new = (P ++ u :: q) ++ new) as Hre.
    { by rewrite <- !app_assoc. }
    split.
    - intros v Hv. pose proof (pending_snoc E P u v Hpairs HuP) as Hp.
      destruct (decide (v ∈ succs E u)) as [Hin|Hin].
      + rewrite dec_all_in by (done || by apply succs_NoDup).
        rewrite (Hdeg v Hv). simpl. f_equal. lia.
      + rewrite dec_all_notin by done. rewrite (Hdeg v Hv). f_equal. lia.
    - rewrite Hre. apply NoDup_app. split; [done|]. split.
      + intros v Hv Hv'. apply Hnew in Hv' as [_ Hv'].
        rewrite (Hready v Hv) in Hv'. lia.
      + apply NoDup_filter. by apply succs_NoDup.
    - intros v. rewrite Hre.
      intros [Hv|Hv]%elem_of_app; [by apply Hnode|]. by apply Hnew_node.
    - intros v. pose proof (pending_snoc E P u v Hpairs HuP) as Hp.
      rewrite Hre.
      intros [Hv|Hv]%elem_of_app.
      + specialize (Hready v Hv). lia.
      + apply Hnew in Hv as [Hin Hv]. rewrite decide_True in Hp by done. lia.
    - intros v. rewrite elem_of_app, list_elem_of_singleton, <- Hlayer.
      destruct (decide (u = v)) as [<-|Huv].
      + rewrite lookup_insert_eq. split; [by right|done].
      + rewrite lookup_insert_ne by done. split; [by left|].
        intros [?|?]; [done|congruence].
    - intros v Hv%dec_all_is_Some. by apply Hown.
Qed.

Lemma wave_inv cl q1 : ∀ P q2 layer nlm inD,
    kinv P (q1 ++ q2) inD nlm →
    let st' := wave G cl (length q1) (mkWaveState (q1 ++ q2) layer nlm inD) in
    ws_layer st' = layer ++ q1
    ∧ ∃ new, ws_queue st' = q2 ++ new
             ∧ kinv (P ++ q1) (q2 ++ new) (ws_inDegree st')
                 (ws_nodeLayerMap st').
Proof.
    induction q1 as [|u q1 IH]; intros P q2 layer nlm inD Hinv; cbv zeta.
    - simpl. rewrite !app_nil_r. split; [done|]. exists [].
      by rewrite !app_nil_r.
    - cbn [length wave].
      destruct (visit_inv P u (q1 ++ q2) layer nlm inD cl Hinv)
        as (Hl & new1 & Hq & Hinv1).
      change ((u :: q1) ++ q2) with (u :: q1 ++ q2).
      destruct (visit G cl (mkWaveState (u :: q1 ++ q2) layer nlm inD))
        as [queue1 layer1 nlm1 inD1].
      simpl in Hl, Hq, Hinv1. subst queue1 layer1.
      rewrite <- app_assoc in Hinv1 |- *.
      destruct (IH (P ++ [u]) (q2 ++ new1) (layer ++ [u]) nlm1 inD1 Hinv1)
        as (Hl2 & new2 & Hq2 & Hinv2).
      split.
      + rewrite Hl2, <- app_assoc. done.
      + exists (new1 ++ new2). rewrite Hq2. rewrite <- !app_assoc in *.
        done.
Qed.

Lemma kahn_step_inv st :
    kinv (concat (ks_layers st)) (ks_queue st) (ks_inDegree st)
      (ks_nodeLayerMap st) →
    let st' := kahn_step G st in
    ks_layers st' = ks_layers st ++ [ks_queue st]
    ∧ kinv (concat (ks_layers st')) (ks_queue st') (ks_inDegree st')
        (ks_nodeLayerMap st').
Proof.
    intros Hinv. unfold kahn_step. cbv zeta.
    rewrite <- (app_nil_r (ks_queue st)) in Hinv.
    destruct (wave_inv (length (ks_layers st)) (ks_queue st) _ [] []
                (ks_nodeLayerMap st) (ks_inDegree st) Hinv)
      as (Hl & new & Hq & Hinv').
    rewrite app_nil_r in Hl, Hq, Hinv'. simpl in Hl, Hq. simpl.
    rewrite Hl. split; [done|].
    rewrite concat_app. simpl. rewrite app_nil_r. by rewrite Hq.
Qed.

(** The invariant holds after any number of waves. *)
Lemma kahn_any fuel : ∀ st,
  kinv (concat (ks_layers st)) (ks_queue st) (ks_inDegree st)
    (ks_nodeLayerMap st) →
  let st' := kahn fuel G st in
  kinv (concat (ks_layers st')) (ks_queue st') (ks_inDegree st')
    (ks_nodeLayerMap st').
Proof.
  induction fuel as [|fuel IH]; intros st Hinv; cbv zeta; [done|].
  simpl. destruct (ks_queue st) as [|u q] eqn:Hq.
  - by rewrite Hq.
  - rewrite <- Hq in *. apply IH. by apply kahn_step_inv.
Qed.

Lemma kahn_inv_length P q inD nlm :
    kinv P q inD nlm → length P + length q ≤ length nodes0.
Proof.
    intros Hinv. rewrite <- length_app.
    rewrite <- (length_map VisNode.id nodes0).
    apply submseteq_length, NoDup_submseteq; [apply (ki_nodup _ _ _ _ _ _ Hinv)|].
    intros v Hv. by apply Hdom, (ki_node _ _ _ _ _ _ Hinv).
Qed.

  (** The loop ends with an empty queue before the fuel is used up, and the
      invariant holds at the end. *)
Lemma kahn_end fuel : ∀ st,
    kinv (concat (ks_layers st)) (ks_queue st) (ks_inDegree st)
      (ks_nodeLayerMap st) →
    length nodes0 < fuel + length (concat (ks_layers st)) →
    let st' := kahn fuel G st in
    ks_queue st' = []
    ∧ kinv (concat (ks_layers st')) [] (ks_inDegree st')
        (ks_nodeLayerMap st').
Proof.
    induction fuel as [|fuel IH]; intros st Hinv Hfuel; cbv zeta.
    - apply kahn_inv_length in Hinv. simpl in *. lia.
    - simpl. destruct (ks_queue st) as [|u q] eqn:Hq.
      + by rewrite Hq.
      + rewrite <- Hq in *. destruct (kahn_step_inv st Hinv) as [Hl Hinv'].
        apply IH; [done|]. rewrite Hl, concat_app, length_app. simpl.
        rewrite app_nil_r, Hq. simpl. lia.
Qed.
End kahn.

(** ** The coordinates *)

Lemma elem_of_concat {A} (x : A) (ls : list (list A)) :
  x ∈ concat ls ↔ ∃ l, x ∈ l ∧ l ∈ ls.
Proof.
  induction ls as [|l0 ls IH]; simpl.
  - split; [by intros ?%elem_of_nil|]. by intros (l & _ & ?%elem_of_nil).
  - rewrite elem_of_app, IH. split.
    + intros [H|(l & Hx & Hl)].
      * exists l0. split; [done|]. apply elem_of_cons. by left.
      * exists l. split; [done|]. apply elem_of_cons. by right.
    + intros (l & Hx & [->|Hl]%elem_of_cons); [by left|right; by exists l].
Qed.

Lemma ids_lookup (l l' : list VisNode.t) i nd :
  map VisNode.id l' = map VisNode.id l → l !! i = Some nd →
  ∃ nd', l' !! i = Some nd' ∧ VisNode.id nd' = VisNode.id nd.
Proof.
  intros Hids Hnd.
  assert (map VisNode.id l' !! i = Some (VisNode.id nd)) as H.
  { by rewrite Hids, list_lookup_fmap, Hnd. }
  rewrite list_lookup_fmap in H. destruct (l' !! i) as [nd'|]; [|done].
  exists nd'. split; [done|]. simpl in H. congruence.
Qed.

Lemma node_index_ok_ids nodeMap nodes nodes' :
  map VisNode.id nodes' = map VisNode.id nodes →
  node_index_ok nodeMap nodes → node_index_ok nodeMap nodes'.
Proof.
  intros Hids [H1 H2]. split.
  - intros n i (nd & Hnd & <-)%H1. by apply (ids_lookup nodes nodes').
  - intros i nd Hnd.
    destruct (ids_lookup nodes' nodes i nd (eq_sym Hids) Hnd) as (nd0 & H0 & <-).
    by apply H2.
Qed.

Lemma place_ids nodes i nd x y :
  nodes !! i = Some nd →
  map VisNode.id (<[i := place nd x y]> nodes) = map VisNode.id nodes.
Proof.
  intros Hnd. rewrite list_fmap_insert. simpl. apply list_insert_id.
  by rewrite list_lookup_fmap, Hnd.
Qed.

Section place.
Context (nodeMap : gmap jsstring nat).

Lemma place_fold layerIndex layer : ∀ nodes x0,
    node_index_ok nodeMap nodes →
    NoDup layer →
    (∀ n, n ∈ layer → is_Some (nodeMap !! n)) →
    let r := foldl (place_node nodeMap layerIndex) (nodes, x0) layer in
    map VisNode.id r.1 = map VisNode.id nodes
    ∧ (∀ i nd, nodes !! i = Some nd → VisNode.id nd ∉ layer → r.1 !! i = Some nd)
    ∧ (∀ j n, layer !! j = Some n →
              ∃ i nd, nodes !! i = Some nd ∧ VisNode.id nd = n
                      ∧ r.1 !! i = Some (place nd (Nat.iter j next_x x0)
                                           (layer_y layerIndex))).
Proof.
    induction layer as [|n0 layer IH]; intros nodes x0 Hok Hnd Hin; cbv zeta.
    - simpl. split; [done|]. split; [done|]. intros j n. by rewrite lookup_nil.
    - apply NoDup_cons in Hnd as [Hn0 Hnd].
      destruct (Hin n0) as [i0 Hi0]; [apply elem_of_cons; by left|].
      destruct (proj1 Hok _ _ Hi0) as (nd0 & Hnd0 & Hid0).
      assert (nodeMap_get nodeMap nodes n0 = Some (i0, nd0)) as Hget.
      { by apply nodeMap_get_Some. }
      assert (place_node nodeMap layerIndex (nodes, x0) n0
              = (<[i0 := place nd0 x0 (layer_y layerIndex)]> nodes, next_x x0))
        as Hstep.
      { unfold place_node. cbn [fst snd]. by rewrite Hget. }
      cbn [foldl]. rewrite Hstep.
      set (nodes1 := <[i0 := place nd0 x0 (layer_y layerIndex)]> nodes).
      assert (map VisNode.id nodes1 = map VisNode.id nodes) as Hids1.
      { by apply place_ids. }
      assert (∀ i : nat, i ≠ i0 → nodes1 !! i = nodes !! i) as Hother.
      { intros i Hi. unfold nodes1. by rewrite list_lookup_insert_ne. }
      assert (nodes1 !! i0 = Some (place nd0 x0 (layer_y layerIndex))) as Hself.
      { unfold nodes1. apply list_lookup_insert_eq. by eapply lookup_lt_Some. }
      destruct (IH nodes1 (next_x x0)) as (Hids & Hkeep & Hput).
      { by eapply node_index_ok_ids. }
      { done. }
      { intros n Hn. apply Hin, elem_of_cons. by right. }
      split; [by rewrite Hids|]. split.
      + intros i nd Hi Hnotin. apply not_elem_of_cons in Hnotin as [Hne Hnotin].
        apply Hkeep; [|done]. rewrite Hother; [done|].
        intros ->. rewrite Hnd0 in Hi. injection Hi as <-. by rewrite Hid0 in Hne.
      + intros [|j] n Hj; simpl in Hj.
        * injection Hj as <-. exists i0, nd0. split; [done|]. split; [done|].
          apply Hkeep; [done|]. simpl. by rewrite Hid0.
        * destruct (Hput j n Hj) as (i & nd1 & Hi & Hid & Hr).
          assert (i ≠ i0) as Hne.
          { intros ->. rewrite Hself in Hi. injection Hi as <-. simpl in Hid.
            rewrite Hid0 in Hid. subst n. apply Hn0.
            by eapply list_elem_of_lookup_2. }
          exists i, nd1. rewrite <- Hother by done. split; [done|]. split; [done|].
          rewrite Hr. by rewrite Nat.iter_succ_r.
Qed.

Lemma place_layers_spec canvasWidth layers : ∀ layerIndex nodes,
    node_index_ok nodeMap nodes →
    NoDup (concat layers) →
    (∀ n, n ∈ concat layers → is_Some (nodeMap !! n)) →
    let r := place_layers canvasWidth nodeMap layerIndex layers nodes in
    map VisNode.id r = map VisNode.id nodes
    ∧ (∀ i nd, nodes !! i = Some nd → VisNode.id nd ∉ concat layers →
               r !! i = Some nd)
    ∧ (∀ k layer j n, layers !! k = Some layer → layer !! j = Some n →
         ∃ i nd, nodes !! i = Some nd ∧ VisNode.id nd = n
                 ∧ r !! i = Some (place nd
                                    (Nat.iter j next_x
                                       (layer_start canvasWidth (length layer)))
                                    (layer_y (layerIndex + k)))).
Proof.
    induction layers as [|layer0 layers IH]; intros layerIndex nodes Hok Hnd Hin;
      cbv zeta.
    - simpl. split; [done|]. split; [done|]. intros k layer j n.
      by rewrite lookup_nil.
    - simpl in Hnd, Hin. apply NoDup_app in Hnd as (Hnd0 & Hdisj & Hnd).
      destruct (place_fold layerIndex layer0 nodes
                  (layer_start canvasWidth (length layer0)) Hok Hnd0)
        as (Hids0 & Hkeep0 & Hput0).
      { intros n Hn. apply Hin, elem_of_app. by left. }
      cbn [place_layers]. unfold place_layer.
      set (nodes1 := (foldl (place_node nodeMap layerIndex)
                        (nodes, layer_start canvasWidth (length layer0)) layer0).1)
        in *.
      destruct (IH (S layerIndex) nodes1) as (Hids & Hkeep & Hput).
      { by eapply node_index_ok_ids. }
      { done. }
      { intros n Hn. apply Hin, elem_of_app. by right. }
      split; [by rewrite Hids|]. split.
      + intros i nd Hi Hnotin. apply not_elem_of_app in Hnotin as [Hn0 Hn1].
        apply Hkeep; [|done]. by apply Hkeep0.
      + intros [|k] layer j n Hk Hj; simpl in Hk.
        * injection Hk as <-. destruct (Hput0 j n Hj) as (i & nd & Hi & Hid & Hr).
          exists i, nd. split; [done|]. split; [done|].
          rewrite Nat.add_0_r. apply Hkeep; [done|]. simpl. rewrite Hid.
          apply Hdisj. by eapply list_elem_of_lookup_2.
        * destruct (Hput k layer j n Hk Hj) as (i & nd1 & Hi & Hid & Hr).
          assert (n ∉ layer0) as Hn0.
          { intros Hn0. apply (Hdisj n Hn0). apply elem_of_concat.
            exists layer. split; by eapply list_elem_of_lookup_2. }
          assert (nodes !! i = Some nd1) as Hi'.
          { destruct (ids_lookup nodes1 nodes i nd1 (eq_sym Hids0) Hi)
              as (nd & Hnd' & Hidn).
            rewrite (Hkeep0 i nd Hnd') in Hi by (by rewrite Hidn, Hid).
            congruence. }
          exists i, nd1. split; [done|]. split; [done|].
          by rewrite Hr, Nat.add_succ_comm.
Qed.
End place.

(** ** One pass of [parseWorkflow] *)

Lemma NoDup_fmap_filter {A B} (f : A → B) (P : A → Prop)
    `{∀ x, Decision (P x)} (l : list A) :
  NoDup (map f l) → NoDup (map f (filter P l)).
Proof.
  induction l as [|a l IH]; [done|].
  rewrite fmap_cons, NoDup_cons. intros [Ha Hnd]. rewrite filter_cons.
  case_decide; [|by apply IH].
  rewrite fmap_cons. apply NoDup_cons. split; [|by apply IH].
  intros (a' & Hf & [_ Ha']%list_elem_of_filter)%list_elem_of_fmap.
  apply Ha. apply list_elem_of_fmap. by exists a'.
Qed.

Lemma locals_Some canvasWidth workflowContent processes l :
  parseWorkflow_locals canvasWidth workflowContent processes = Some l →
  ∃ es,
    infer_edges (map NextflowProcess.name processes)
      (calledProcessInstances workflowContent processes)
      (build_nodes (calledProcessInstances workflowContent processes)) = Some es
    ∧ l = lay_out canvasWidth (calledProcessInstances workflowContent processes)
            (build_nodes (calledProcessInstances workflowContent processes)) es.
Proof.
  unfold parseWorkflow_locals. cbv zeta.
  destruct (infer_edges _ _ _) as [es|]; [|done].
  intros [= <-]. by exists es.
Qed.

Section pass.
Context (canvasWidth : float) (workflowContent : jsstring)
        (processes : list NextflowProcess.t) (es : EdgeState).

Let definedProcessNames := map NextflowProcess.name processes.
Let calls := calledProcessInstances workflowContent processes.
Let ns := build_nodes calls.
Hypothesis Hes : infer_edges definedProcessNames calls ns = Some es.
Let l := lay_out canvasWidth calls ns es.

Lemma pass_nodes_inv : nodes_inv calls ns.
Proof. apply build_nodes_inv. Qed.

Lemma pass_edges_inv : edges_inv definedProcessNames (ns_nodeMap ns) es.
Proof. by apply infer_edges_inv. Qed.

Lemma pass_pairs :
  map edge_pair (es_edges es) = first_wins (discovered definedProcessNames calls).
Proof. by apply infer_edges_inv. Qed.

Lemma pass_nonempty : ns_nodeMap ns !! [] = None.
Proof.
  destruct (ns_nodeMap ns !! []) as [i|] eqn:Hi; [|done].
  destruct (proj1 (ni_names _ _ pass_nodes_inv []) (mk_is_Some _ _ Hi))
    as (c & Hc & Hname).
  apply scan_calls_word in Hc as [Hne _]. done.
Qed.

Lemma pass_ordinary_nonempty : ordinary (ns_nodeMap ns) !! [] = None.
Proof. rewrite ordinary_lookup. case_bool_decide; [done|apply pass_nonempty]. Qed.

Lemma pass_ordinary_dom v :
  is_Some (ordinary (ns_nodeMap ns) !! v) → v ∈ map VisNode.id (ns_nodes ns).
Proof.
  intros [_ Hv]%ordinary_is_Some.
  by apply (node_index_ok_dom _ _ v (ni_index _ _ pass_nodes_inv)).
Qed.

Lemma pass_initial :
  kahn_inv (ordinary (ns_nodeMap ns)) (es_edges es) []
    (initial_queue (ns_nodes ns) (es_inDegree es)) (es_inDegree es) ∅.
Proof.
  pose proof pass_nodes_inv as Hn. pose proof pass_edges_inv as He.
  assert (∀ nd, nd ∈ ns_nodes ns → es_inDegree es !! VisNode.id nd = Some 0%Z →
                is_Some (ordinary (ns_nodeMap ns) !! VisNode.id nd)) as Hq.
  { intros nd Hnd H0. rewrite (ei_inDegree _ _ _ He) in H0.
    by destruct (ordinary (ns_nodeMap ns) !! VisNode.id nd). }
  split.
  - intros v [i Hv]. rewrite (ei_inDegree _ _ _ He), Hv. simpl.
    by rewrite pending_nil.
  - simpl. unfold initial_queue. apply NoDup_fmap_filter.
    by eapply node_index_ok_NoDup, (ni_index _ _ Hn).
  - simpl. unfold initial_queue.
    intros v (nd & -> & [H0 Hnd]%list_elem_of_filter)%list_elem_of_fmap.
    by apply Hq.
  - simpl. unfold initial_queue.
    intros v (nd & -> & [H0 Hnd]%list_elem_of_filter)%list_elem_of_fmap.
    destruct (Hq nd Hnd H0) as [i Hi].
    rewrite (ei_inDegree _ _ _ He), Hi in H0. simpl in H0.
    rewrite pending_nil. injection H0. lia.
  - intros v. rewrite lookup_empty. split; [by intros [? ?]|].
    by intros ?%elem_of_nil.
  - intros v. rewrite (ei_inDegree _ _ _ He). by intros H%fmap_is_Some.
Qed.

(** After any number of waves the invariant holds. *)
Lemma pass_waves n :
  let st := layering n ns es in
  kahn_inv (ordinary (ns_nodeMap ns)) (es_edges es) (concat (ks_layers st))
    (ks_queue st) (ks_inDegree st) (ks_nodeLayerMap st).
Proof.
  pose proof pass_edges_inv as He. unfold layering.
  apply (kahn_any (ordinary (ns_nodeMap ns)) (es_edges es) (es_G es)).
  - apply (ei_G _ _ _ He).
  - by eapply edges_inv_pairs_NoDup.
  - apply pass_ordinary_nonempty.
  - apply pass_initial.
Qed.

(** The loop of the source ends because its queue is empty. *)
Lemma pass_kahn :
  l_queue l = []
  ∧ kahn_inv (ordinary (ns_nodeMap ns)) (es_edges es) (concat (l_layers l)) []
      (l_inDegree l) (l_nodeLayerMap l).
Proof.
  pose proof pass_edges_inv as He.
  unfold l, lay_out. cbn [l_queue l_layers l_inDegree l_nodeLayerMap].
  unfold layering.
  apply (kahn_end (ordinary (ns_nodeMap ns)) (ns_nodes ns) (es_edges es) (es_G es)).
  - apply pass_ordinary_dom.
  - apply (ei_G _ _ _ He).
  - by eapply edges_inv_pairs_NoDup.
  - apply pass_ordinary_nonempty.
  - apply pass_initial.
  - simpl. lia.
Qed.

Lemma pass_layers_NoDup : NoDup (concat (l_layers l)).
Proof.
  destruct pass_kahn as [_ Hk]. pose proof (ki_nodup _ _ _ _ _ _ Hk) as H.
  by rewrite app_nil_r in H.
Qed.

Lemma pass_layers_ordinary n :
  n ∈ concat (l_layers l) → is_Some (ordinary (ns_nodeMap ns) !! n).
Proof.
  destruct pass_kahn as [_ Hk]. intros Hn.
  apply (ki_node _ _ _ _ _ _ Hk). by rewrite app_nil_r.
Qed.

Lemma pass_layers_node n :
  n ∈ concat (l_layers l) → is_Some (ns_nodeMap ns !! n).
Proof. by intros [_ ?]%pass_layers_ordinary%ordinary_is_Some. Qed.

(** What [parseWorkflow] returns, from the locals of the phases. *)
Lemma pass_nodes :
  l_nodes l = place_layers canvasWidth (ns_nodeMap ns) 0 (l_layers l) (ns_nodes ns).
Proof. done. Qed.

Lemma pass_edges :
  l_edges l = map (route_edge (ns_nodeMap ns) (l_nodes l)) (es_edges es).
Proof. done. Qed.

Lemma pass_nodes_ids : map VisNode.id (l_nodes l) = map VisNode.id (ns_nodes ns).
Proof.
  rewrite pass_nodes.
  apply (place_layers_spec (ns_nodeMap ns) canvasWidth (l_layers l) 0 (ns_nodes ns)).
  - apply (ni_index _ _ pass_nodes_inv).
  - apply pass_layers_NoDup.
  - apply pass_layers_node.
Qed.

Lemma pass_index_ok : node_index_ok (ns_nodeMap ns) (l_nodes l).
Proof.
  eapply node_index_ok_ids; [apply pass_nodes_ids|].
  apply (ni_index _ _ pass_nodes_inv).
Qed.

(** A node outside every layer is returned as it was created. *)
Lemma pass_unplaced nd :
  nd ∈ l_nodes l → VisNode.id nd ∉ concat (l_layers l) →
  nd = new_node (VisNode.id nd).
Proof.
  intros [i Hi]%list_elem_of_lookup Hnot.
  destruct (ids_lookup (l_nodes l) (ns_nodes ns) i nd (eq_sym pass_nodes_ids) Hi)
    as (nd0 & H0 & Hid).
  destruct (place_layers_spec (ns_nodeMap ns) canvasWidth (l_layers l) 0 (ns_nodes ns)
              (ni_index _ _ pass_nodes_inv) pass_layers_NoDup pass_layers_node)
    as (_ & Hkeep & _).
  rewrite <- pass_nodes in Hkeep.
  rewrite (Hkeep i nd0 H0) in Hi by (by rewrite Hid).
  injection Hi as <-.
  apply (ni_fresh _ _ pass_nodes_inv). by eapply list_elem_of_lookup_2.
Qed.

(** The node at position [j] of layer [k]. *)
Lemma pass_placed k layer j n :
  l_layers l !! k = Some layer → layer !! j = Some n →
  VisNode.mk n n (Nat.iter j next_x (layer_start canvasWidth (length layer)))
    (layer_y k) NODE_WIDTH NODE_HEIGHT ∈ l_nodes l.
Proof.
  intros Hk Hj.
  destruct (place_layers_spec (ns_nodeMap ns) canvasWidth (l_layers l) 0 (ns_nodes ns)
              (ni_index _ _ pass_nodes_inv) pass_layers_NoDup pass_layers_node)
    as (_ & _ & Hput).
  rewrite <- pass_nodes in Hput.
  destruct (Hput k layer j n Hk Hj) as (i & nd & Hi & Hid & Hr).
  apply list_elem_of_lookup. exists i. rewrite Hr. f_equal.
  rewrite (ni_fresh _ _ pass_nodes_inv nd) by (by eapply list_elem_of_lookup_2).
  by rewrite Hid.
Qed.
End pass.

(** ** Statements about what [parseWorkflow] returns *)

Lemma route_edge_pair nodeMap nodes e :
  edge_pair (route_edge nodeMap nodes e) = edge_pair e.
Proof.
  unfold route_edge.
  destruct (nodeMap_get nodeMap nodes (VisEdge.source e)) as [[? ?]|]; [|done].
  by destruct (nodeMap_get nodeMap nodes (VisEdge.target e)) as [[? ?]|].
Qed.

Lemma routed_pairs nodeMap nodes es :
  map edge_pair (map (route_edge nodeMap nodes) es) = map edge_pair es.
Proof.
  rewrite map_map. apply map_ext. intros e. apply route_edge_pair.
Qed.

Lemma record_pair_elem acc p q :
  q ∈ record_pair acc p ↔ q ∈ acc ∨ q = p.
Proof.
  unfold record_pair. case_bool_decide as Hp.
  - split; [by left|]. by intros [?| ->].
  - by rewrite elem_of_app, list_elem_of_singleton.
Qed.

Lemma foldl_record_pair_elem l : ∀ acc q,
  q ∈ foldl record_pair acc l ↔ q ∈ acc ∨ q ∈ l.
Proof.
  induction l as [|p l IH]; intros acc q; simpl.
  - split; [by left|]. by intros [?|?%elem_of_nil].
  - rewrite IH, record_pair_elem, elem_of_cons. tauto.
Qed.

Lemma record_pair_NoDup acc p : NoDup acc → NoDup (record_pair acc p).
Proof.
  intros Hnd. unfold record_pair. case_bool_decide as Hp; [done|].
  apply NoDup_app. split; [done|]. split; [|apply NoDup_singleton].
  by intros x Hx ->%list_elem_of_singleton.
Qed.

Lemma first_wins_NoDup l : NoDup (first_wins l).
Proof.
  unfold first_wins. assert (NoDup ([] : list (jsstring * jsstring))) as H
    by constructor.
  revert H. generalize ([] : list (jsstring * jsstring)).
  induction l as [|p l IH]; intros acc Hacc; [done|].
  simpl. apply IH. by apply record_pair_NoDup.
Qed.

(** A duplicate discovery is a no-op, a new one is added at the end. *)
Lemma first_wins_snoc l p :
  first_wins (l ++ [p])
  = if bool_decide (p ∈ first_wins l) then first_wins l else first_wins l ++ [p].
Proof. unfold first_wins. by rewrite foldl_snoc. Qed.

Lemma exec_processCallRegex_occurrence w ws args rest :
  w ≠ [] →
  Forall (λ c, is_word c = true) w →
  Forall (λ c, is_space c = true) ws →
  RPAREN ∉ args →
  exec_processCallRegex (w ++ ws ++ LPAREN :: args ++ RPAREN :: rest)
  = Some (w, args, rest).
Proof.
  intros Hne Hw Hws Ha.
  pose proof (match_call_at_occurrence w ws args rest Hne Hw Hws Ha) as Hm.
  destruct w as [|c w]; [done|]. simpl in *. by rewrite Hm.
Qed.

(** A string content that does not throw gives the nodes and the edges of
    the locals. *)
Lemma parseWorkflow_Some canvasWidth s processes v :
  parseWorkflow canvasWidth (JString s) processes = Some v →
  ∃ l, parseWorkflow_locals canvasWidth s processes = Some l
       ∧ v = mkVisData (l_nodes l) (l_edges l).
Proof.
  unfold parseWorkflow.
  destruct (parseWorkflow_locals canvasWidth s processes) as [l|]; [|done].
  intros [= <-]. by exists l.
Qed.

Lemma returned_ids canvasWidth s processes l n :
  parseWorkflow_locals canvasWidth s processes = Some l →
  n ∈ map VisNode.id (l_nodes l)
  ↔ ∃ c, c ∈ calledProcessInstances s processes ∧ CallInstance.name c = n.
Proof.
  intros (es & Hes & ->)%locals_Some.
  pose proof (pass_nodes_inv s processes) as Hn.
  rewrite (pass_nodes_ids canvasWidth s processes es Hes).
  rewrite <- (node_index_ok_dom _ _ n (ni_index _ _ Hn)).
  apply (ni_names _ _ Hn).
Qed.

(** C5. For every workflow source and process list, the returned node set
    has exactly one node per distinct process name that occurs in at least
    one recognized call, with that name as id: the ids of the returned nodes
    are pairwise distinct, and a name is the id of a returned node exactly
    when some recognized call has it. *)
Theorem one_node_per_called_process (canvasWidth : float)
    (workflowContent : js_value) (processes : list NextflowProcess.t)
    (v : VisData) :
  parseWorkflow canvasWidth workflowContent processes = Some v →
  NoDup (map VisNode.id (nodes v))
  ∧ (∀ n, n ∈ map VisNode.id (nodes v)
          ↔ ∃ c, c ∈ recognized_calls workflowContent processes
                 ∧ CallInstance.name c = n)
  ∧ (∀ nd, nd ∈ nodes v → VisNode.name nd = VisNode.id nd).
Proof.
  destruct workflowContent as [s| | | | |];
    try (intros [= <-]; simpl; split; [constructor|]; split;
         [intros n; split; [by intros ?%elem_of_nil|by intros (c & ?%elem_of_nil & _)]
         |by intros nd ?%elem_of_nil]).
  intros (l & Hl & ->)%parseWorkflow_Some. cbn [nodes recognized_calls].
  pose proof (returned_ids canvasWidth s processes l) as Hret.
  destruct (locals_Some _ _ _ _ Hl) as (es & Hes & ->).
  pose proof (pass_nodes_inv s processes) as Hn.
  pose proof (pass_nodes_ids canvasWidth s processes es Hes) as Hids.
  split; [|split].
  - rewrite Hids. by eapply node_index_ok_NoDup, (ni_index _ _ Hn).
  - intros n. by apply Hret.
  - intros nd [i Hi]%list_elem_of_lookup.
    pose proof (pass_index_ok canvasWidth s processes es Hes) as Hok.
    destruct (ids_lookup _ _ i nd (eq_sym Hids) Hi) as (nd0 & H0 & Hid).
    pose proof (ni_fresh _ _ Hn nd0 (list_elem_of_lookup_2 _ _ _ H0)) as Hfresh.
    destruct (decide (VisNode.id nd ∈ concat
                        (l_layers (lay_out canvasWidth
                           (calledProcessInstances s processes)
                           (build_nodes (calledProcessInstances s processes)) es))))
      as [Hin|Hout].
    + apply elem_of_concat in Hin as (layer & [j Hj]%list_elem_of_lookup
                                      & [k Hk]%list_elem_of_lookup).
      pose proof (pass_placed canvasWidth s processes es Hes k layer j _ Hk Hj) as Hp.
      apply list_elem_of_lookup in Hp as [i' Hi'].
      assert (i' = i) as ->.
      { pose proof (proj2 Hok _ _ Hi) as H1. pose proof (proj2 Hok _ _ Hi') as H2.
        simpl in H2. congruence. }
      rewrite Hi in Hi'. by injection Hi' as ->.
    + rewrite (pass_unplaced canvasWidth s processes es Hes nd); [done| |done].
      by eapply list_elem_of_lookup_2.
Qed.

Lemma one_node_per_called_process_witness :
  ∃ v, parseWorkflow 800 (JString (js "A(x) A(y) B(A.out) A(z)"))
         (declared ["A"; "B"]%string) = Some v
       ∧ NoDup (map VisNode.id (nodes v))
       ∧ (∀ n, n ∈ map VisNode.id (nodes v)
               ↔ ∃ c, c ∈ recognized_calls (JString (js "A(x) A(y) B(A.out) A(z)"))
                            (declared ["A"; "B"]%string)
                      ∧ CallInstance.name c = n)
       ∧ (∀ nd, nd ∈ nodes v → VisNode.name nd = VisNode.id nd).
Proof.
  eexists. split; [vm_compute; reflexivity|].
  apply (one_node_per_called_process 800 (JString (js "A(x) A(y) B(A.out) A(z)"))
           (declared ["A"; "B"]%string)).
  vm_compute. reflexivity.
Defined.

Lemma returned_pairs canvasWidth s processes l :
  parseWorkflow_locals canvasWidth s processes = Some l →
  map edge_pair (l_edges l)
  = first_wins (discovered (map NextflowProcess.name processes)
                  (calledProcessInstances s processes)).
Proof.
  intros (es & Hes & ->)%locals_Some.
  rewrite pass_edges, routed_pairs. by apply pass_pairs.
Qed.

Lemma discovered_guard defined calls p :
  p ∈ discovered defined calls →
  p.1 ∈ defined ∧ p.1 ≠ p.2
  ∧ ∃ c, c ∈ calls ∧ CallInstance.name c = p.2
         ∧ p.1 ∈ references (CallInstance.inputs c).
Proof.
  unfold discovered. rewrite elem_of_concat.
  intros (d & Hp & (c & -> & Hc)%list_elem_of_fmap).
  unfold discovered_of in Hp.
  apply list_elem_of_fmap in Hp as (s & -> & [[Hdef Hne] Hs]%list_elem_of_filter).
  simpl. split; [done|]. split; [done|]. by exists c.
Qed.

Lemma discovered_elem defined calls c s :
  c ∈ calls → s ∈ references (CallInstance.inputs c) →
  s ∈ defined → s ≠ CallInstance.name c →
  (s, CallInstance.name c) ∈ discovered defined calls.
Proof.
  intros Hc Hs Hdef Hne. unfold discovered. apply elem_of_concat.
  exists (discovered_of defined c). split.
  - unfold discovered_of. apply list_elem_of_fmap. exists s. split; [done|].
    by apply list_elem_of_filter.
  - apply list_elem_of_fmap. by exists c.
Qed.

(** C6. For every workflow source and process list, the returned edge set
    has at most one edge per ordered (source, target) pair and no self-loop;
    the pairs of the returned edges are the discoveries of the pass with
    every later duplicate dropped (the first discovery wins). *)
Theorem edges_unique_and_loop_free (canvasWidth : float)
    (workflowContent : js_value) (processes : list NextflowProcess.t)
    (v : VisData) :
  parseWorkflow canvasWidth workflowContent processes = Some v →
  NoDup (map edge_pair (edges v))
  ∧ (∀ e, e ∈ edges v → VisEdge.source e ≠ VisEdge.target e)
  ∧ map edge_pair (edges v)
    = first_wins (discovered (map NextflowProcess.name processes)
                    (recognized_calls workflowContent processes)).
Proof.
  destruct workflowContent as [s| | | | |];
    try (intros [= <-]; simpl; split; [constructor|]; split;
         [by intros e ?%elem_of_nil|done]).
  intros (l & Hl & ->)%parseWorkflow_Some. cbn [edges recognized_calls].
  pose proof (returned_pairs canvasWidth s processes l Hl) as Hp.
  split; [|split; [|done]].
  - rewrite Hp. apply first_wins_NoDup.
  - intros e He.
    assert (edge_pair e ∈ map edge_pair (l_edges l)) as Hin.
    { apply list_elem_of_fmap. by exists e. }
    rewrite Hp in Hin. unfold first_wins in Hin.
    apply foldl_record_pair_elem in Hin as [Hin%elem_of_nil|Hin]; [done|].
    by apply discovered_guard in Hin as (_ & Hne & _).
Qed.

Lemma edges_unique_and_loop_free_witness :
  ∃ v, parseWorkflow 800 (JString (js "A(A.out) B(A.out, A.out.x) A(B.out)"))
         (declared ["A"; "B"]%string) = Some v
       ∧ map edge_pair (edges v) = [(js "A", js "B"); (js "B", js "A")].
Proof.
  eexists. split; [vm_compute; reflexivity|].
  refine (eq_trans (proj2 (proj2 (edges_unique_and_loop_free 800
            (JString (js "A(A.out) B(A.out, A.out.x) A(B.out)"))
            (declared ["A"; "B"]%string) _ _))) _).
  - vm_compute. reflexivity.
  - vm_compute. reflexivity.
Defined.

(** C9. For every workflow source and process list, a name outside the
    declared process list never produces a node or an edge: every recognized
    call, every returned node and both ends of every returned edge carry a
    declared name; a call occurrence with an undeclared identifier is
    dropped by the extraction, which goes on after its close parenthesis;
    and with no recognized call the result is empty. *)
Theorem undeclared_names_produce_nothing (canvasWidth : float)
    (workflowContent : js_value) (processes : list NextflowProcess.t) :
  let definedProcessNames := map NextflowProcess.name processes in
  (∀ c, c ∈ recognized_calls workflowContent processes →
        CallInstance.name c ∈ definedProcessNames)
  ∧ (∀ v, parseWorkflow canvasWidth workflowContent processes = Some v →
          (∀ nd, nd ∈ nodes v → VisNode.id nd ∈ definedProcessNames)
          ∧ (∀ e, e ∈ edges v → VisEdge.source e ∈ definedProcessNames
                                ∧ VisEdge.target e ∈ definedProcessNames))
  ∧ (∀ w ws args rest,
       w ∉ definedProcessNames →
       w ≠ [] →
       Forall (λ c, is_word c = true) w →
       Forall (λ c, is_space c = true) ws →
       RPAREN ∉ args →
       calledProcessInstances (w ++ ws ++ LPAREN :: args ++ RPAREN :: rest)
         processes
       = calledProcessInstances rest processes)
  ∧ (recognized_calls workflowContent processes = [] →
     parseWorkflow canvasWidth workflowContent processes
     = Some (mkVisData [] [])).
Proof.
  assert (∀ w ws args rest,
            w ∉ map NextflowProcess.name processes →
            w ≠ [] →
            Forall (λ c, is_word c = true) w →
            Forall (λ c, is_space c = true) ws →
            RPAREN ∉ args →
            calledProcessInstances (w ++ ws ++ LPAREN :: args ++ RPAREN :: rest)
              processes
            = calledProcessInstances rest processes) as Hdrop.
  { intros w ws args rest Hundef Hne Hw Hws Ha. unfold calledProcessInstances.
    rewrite scan_calls_unfold.
    rewrite (exec_processCallRegex_occurrence w ws args rest Hne Hw Hws Ha).
    by rewrite bool_decide_eq_false_2. }
  destruct workflowContent as [s| | | | |]; cbv zeta;
    try (simpl; split; [by intros c ?%elem_of_nil|]; split;
         [intros ? [= <-]; split; [by intros nd ?%elem_of_nil
                                  |by intros e ?%elem_of_nil]|];
         split; [exact Hdrop|done]).
  cbn [recognized_calls].
  assert (∀ c, c ∈ calledProcessInstances s processes →
               CallInstance.name c ∈ map NextflowProcess.name processes) as Hcalls.
  { intros c Hc. by eapply scan_calls_declared. }
  split; [done|]. split; [|split; [exact Hdrop|]].
  - intros v (l & Hl & ->)%parseWorkflow_Some. cbn [nodes edges]. split.
    + intros nd Hnd.
      destruct (proj1 (returned_ids canvasWidth s processes l (VisNode.id nd) Hl))
        as (c & Hc & <-).
      { apply list_elem_of_fmap. by exists nd. }
      by apply Hcalls.
    + intros e He.
      assert (edge_pair e ∈ map edge_pair (l_edges l)) as Hin.
      { apply list_elem_of_fmap. by exists e. }
      rewrite (returned_pairs canvasWidth s processes l Hl) in Hin.
      unfold first_wins in Hin.
      apply foldl_record_pair_elem in Hin as [Hin%elem_of_nil|Hin]; [done|].
      apply discovered_guard in Hin as (Hdef & _ & c & Hc & Hname & _).
      split; [done|]. simpl in Hname. rewrite <- Hname. by apply Hcalls.
  - intros Hnone. unfold parseWorkflow, parseWorkflow_locals.
    rewrite Hnone. reflexivity.
Qed.

Lemma undeclared_names_produce_nothing_witness :
  calledProcessInstances (js "X(A.out) A(Y.out)") (declared ["A"]%string)
  = calledProcessInstances (js " A(Y.out)") (declared ["A"]%string)
  ∧ (λ v, (map VisNode.id (nodes v), edges v))
      <$> parseWorkflow 800 (JString (js "X(A.out) A(Y.out)"))
            (declared ["A"]%string)
    = Some ([js "A"], []).
Proof.
  destruct (undeclared_names_produce_nothing 800
              (JString (js "X(A.out) A(Y.out)")) (declared ["A"]%string))
    as (_ & _ & Hdrop & _).
  split; [|vm_compute; reflexivity].
  apply (Hdrop (js "X") [] (js "A.out") (js " A(Y.out)")).
  - vm_compute. intros [H|H%elem_of_nil]%elem_of_cons; done.
  - done.
  - by repeat constructor.
  - constructor.
  - vm_compute. intros H. repeat (apply elem_of_cons in H as [H|H]; [done|]).
    by apply elem_of_nil in H.
Defined.

(** A process invoked three times yields one node. *)
Example three_calls_one_node :
  (λ v, map VisNode.id (nodes v))
    <$> parseWorkflow 800 (JString (js "A(x) A(y) B(A.out) A(z)"))
          (declared ["A"; "B"]%string)
  = Some [js "A"; js "B"].
Proof. vm_compute. reflexivity. Qed.

(** C10. If the workflow source is not a string, [parseWorkflow] returns an
    empty node set and an empty edge set; the result is a value, not an
    error. *)
Theorem non_string_source_gives_empty_graph (canvasWidth : float)
    (workflowContent : js_value) (processes : list NextflowProcess.t) :
  (∀ s, workflowContent ≠ JString s) →
  parseWorkflow canvasWidth workflowContent processes = Some (mkVisData [] []).
Proof.
  intros Hns. destruct workflowContent as [s| | | | |]; try done.
  by destruct (Hns s).
Qed.

Lemma non_string_source_gives_empty_graph_witness :
  (∀ s, JUndefined ≠ JString s)
  ∧ parseWorkflow 800 JUndefined [process_named (js "A")]
    = Some (mkVisData [] []).
Proof.
  split; [done|].
  apply (non_string_source_gives_empty_graph 800 JUndefined [process_named (js "A")]).
  done.
Defined.

(** C8. For every workflow source, the extracted calls are call occurrences
    of the text in left-to-right order, each with the raw text between its
    open parenthesis and the first close parenthesis after it as argument
    text; and a call of a declared process at the start of a text is
    extracted with exactly the text up to the first close parenthesis,
    whatever follows (the scan is flat: an inner close parenthesis ends the
    argument text). *)
Theorem calls_in_text_order_flat_arguments (processes : list NextflowProcess.t) :
  (∀ workflowContent,
     in_order workflowContent
       (map call_pair (calledProcessInstances workflowContent processes)))
  ∧ (∀ w ws args rest,
       w ∈ map NextflowProcess.name processes →
       w ≠ [] →
       Forall (λ c, is_word c = true) w →
       Forall (λ c, is_space c = true) ws →
       RPAREN ∉ args →
       map call_pair
         (calledProcessInstances (w ++ ws ++ LPAREN :: args ++ RPAREN :: rest)
            processes)
       = (w, args) :: map call_pair (calledProcessInstances rest processes)).
Proof.
  split.
  - intros s. apply scan_calls_in_order.
  - intros w ws args rest Hdef Hne Hw Hws Ha. unfold calledProcessInstances.
    rewrite scan_calls_unfold.
    rewrite (exec_processCallRegex_occurrence w ws args rest Hne Hw Hws Ha).
    rewrite bool_decide_eq_true_2 by done. rewrite map_cons. f_equal.
    apply scan_calls_index.
Qed.

Lemma calls_in_text_order_flat_arguments_witness :
  map call_pair
    (calledProcessInstances (js "A(f(x), B.out) B(A.out)")
       [process_named (js "A"); process_named (js "B")])
  = [(js "A", js "f(x"); (js "B", js "A.out")].
Proof.
  destruct (calls_in_text_order_flat_arguments
              [process_named (js "A"); process_named (js "B")]) as [_ H].
  refine (eq_trans (H (js "A") [] (js "f(x") (js ", B.out) B(A.out)") _ _ _ _ _) _).
  - apply elem_of_cons. by left.
  - done.
  - by repeat constructor.
  - constructor.
  - vm_compute. intros H1. repeat (apply elem_of_cons in H1 as [H1|H1]; [done|]).
    by apply elem_of_nil in H1.
  - reflexivity.
Defined.

(** ** The examples of the specification *)

(** C1, as stated, fails: for the calls [A(B.out)] and [B(A.out)] with [A]
    and [B] declared the returned node set is not empty. *)
Lemma two_cycle_nodes_not_omitted :
  ∃ v, parseWorkflow 800 (JString (js "A(B.out) B(A.out)"))
         (declared ["A"; "B"]%string) = Some v
       ∧ nodes v ≠ [].
Proof. eexists. split; [vm_compute; reflexivity|]. intros H. discriminate H. Qed.

Lemma foldl_throws_Forall2 {A B C} (f : A → B → option A) (g : A → C → option A)
    l l' :
  Forall2 (λ x y, ∀ a, f a x = g a y) l l' →
  ∀ a, foldl_throws f a l = foldl_throws g a l'.
Proof.
  induction 1 as [|x y l l' Hxy _ IH]; intros a; [done|].
  simpl. rewrite Hxy. destruct (g a y); [apply IH|done].
Qed.

Lemma add_edge_skip defined t st r :
  r ∉ defined ∨ r = t → add_edge defined t st r = Some st.
Proof.
  intros [Hr| ->]; unfold add_edge.
  - by rewrite bool_decide_eq_false_2.
  - rewrite (bool_decide_eq_true_2 (t = t)) by done. simpl.
    by rewrite andb_false_r.
Qed.

Lemma add_edges_skip defined t refs : ∀ st,
  (∀ r, r ∈ refs → r ∉ defined ∨ r = t) →
  foldl_throws (add_edge defined t) st refs = Some st.
Proof.
  induction refs as [|r refs IH]; intros st Hall; [done|].
  simpl. rewrite add_edge_skip by (apply Hall, elem_of_cons; by left).
  apply IH. intros r' Hr'. apply Hall, elem_of_cons. by right.
Qed.

(** [add_edge] reads the declared names only to test its source. *)
Lemma add_edge_ext defined defined' t st s :
  (s ∈ defined ↔ s ∈ defined') →
  add_edge defined t st s = add_edge defined' t st s.
Proof.
  intros Hsame. unfold add_edge. by rewrite (bool_decide_ext _ _ Hsame).
Qed.

Lemma add_edges_of_ext defined defined' st c :
  (∀ r, r ∈ references (CallInstance.inputs c) → r ∈ defined ↔ r ∈ defined') →
  add_edges_of defined st c = add_edges_of defined' st c.
Proof.
  intros Hsame. unfold add_edges_of. apply foldl_throws_Forall2.
  induction (references (CallInstance.inputs c)) as [|r refs IH]; constructor.
  - intros a. apply add_edge_ext, Hsame, elem_of_cons. by left.
  - apply IH. intros r' Hr'. apply Hsame, elem_of_cons. by right.
Qed.

(** A call whose references are all skipped is as good as a call without
    arguments. *)
Lemma add_edges_of_skip defined defined' st c callId :
  (∀ r, r ∈ references (CallInstance.inputs c) →
        r ∉ defined ∨ r = CallInstance.name c) →
  add_edges_of defined st c
  = add_edges_of defined' st (CallInstance.mk (CallInstance.name c) callId []).
Proof.
  intros Hall. unfold add_edges_of. by rewrite add_edges_skip.
Qed.

Lemma infer_edges_congr defined defined' calls calls' ns :
  Forall2 (λ c c', ∀ st, add_edges_of defined st c = add_edges_of defined' st c')
    calls calls' →
  infer_edges defined calls ns = infer_edges defined' calls' ns.
Proof. intros H. unfold infer_edges. by apply foldl_throws_Forall2. Qed.

Lemma infer_edges_ext defined defined' calls ns :
  (∀ n, n ∈ defined ↔ n ∈ defined') →
  infer_edges defined calls ns = infer_edges defined' calls ns.
Proof.
  intros Hsame. apply infer_edges_congr.
  induction calls as [|c calls IH]; constructor; [|done].
  intros st. apply add_edges_of_ext. intros r _. apply Hsame.
Qed.

Lemma build_nodes_names calls calls' :
  map CallInstance.name calls = map CallInstance.name calls' →
  build_nodes calls = build_nodes calls'.
Proof.
  unfold build_nodes. generalize (mkNodeState [] ∅ ∅ None ∅).
  revert calls'. induction calls as [|c calls IH]; intros [|c' calls'] st Hn;
    try done.
  injection Hn as Hc Hn. simpl.
  replace (add_node st c') with (add_node st c); [by apply IH|].
  unfold add_node. by rewrite Hc.
Qed.

Lemma called_declared workflowContent processes c :
  c ∈ calledProcessInstances workflowContent processes →
  CallInstance.name c ∈ map NextflowProcess.name processes.
Proof. apply scan_calls_declared. Qed.

Lemma declared_same (defined names refs : list jsstring) :
  (∀ n, n ∈ names → n ∈ defined) →
  (∀ r, r ∈ refs → r ∈ names) →
  ∀ r, r ∈ refs → r ∈ defined ↔ r ∈ names.
Proof. intros Hall Hsub r Hr. split; [by intros _; apply Hsub|apply Hall]. Qed.

(** The references of a concrete argument text are among the given names. *)
Ltac refs_among :=
  let r := fresh "r" in
  let Hr := fresh "Hr" in
  intros r Hr; vm_compute in Hr;
  repeat (apply elem_of_cons in Hr as [->|Hr]; [by repeat constructor|]);
  by apply elem_of_nil in Hr.

(** C1, amended. When the recognized calls are [A(B.out)] and [B(A.out)]
    (so [A] and [B] are declared), under any canvas width, [parseWorkflow]
    returns a value (no error is thrown): both nodes are in the returned
    node set, at their initial coordinates (0, 0); no layer is produced and
    neither node gets a layer index; both edges are returned, routed between
    the two nodes at the origin. *)
Theorem two_cycle_nodes_stay_unplaced (canvasWidth : float)
    (workflowContent : jsstring) (processes : list NextflowProcess.t)
    (idA idB : jsstring) :
  calledProcessInstances workflowContent processes
  = [CallInstance.mk (js "A") idA (js "B.out");
     CallInstance.mk (js "B") idB (js "A.out")] →
  ∃ l, parseWorkflow_locals canvasWidth workflowContent processes = Some l
  ∧ l_nodes l = [VisNode.mk (js "A") (js "A") 0 0 NODE_WIDTH NODE_HEIGHT;
                 VisNode.mk (js "B") (js "B") 0 0 NODE_WIDTH NODE_HEIGHT]
  ∧ l_layers l = []
  ∧ l_nodeLayerMap l = ∅
  ∧ l_queue l = []
  ∧ l_edges l
    = [VisEdge.mk (js "B->A") (js "B") (js "A") 90 60 90 0 105 30;
       VisEdge.mk (js "A->B") (js "A") (js "B") 90 60 90 0 105 30]
  ∧ parseWorkflow canvasWidth (JString workflowContent) processes
    = Some (mkVisData (l_nodes l) (l_edges l)).
Proof.
  intros Hcalls.
  assert (∀ n, n ∈ [js "A"; js "B"] → n ∈ map NextflowProcess.name processes)
    as Hdecl.
  { intros n [->|[->|[]%elem_of_nil]%elem_of_cons]%elem_of_cons.
    - apply (called_declared workflowContent processes
               (CallInstance.mk (js "A") idA (js "B.out"))).
      rewrite Hcalls. apply elem_of_cons. by left.
    - apply (called_declared workflowContent processes
               (CallInstance.mk (js "B") idB (js "A.out"))).
      rewrite Hcalls. apply elem_of_cons. right. apply elem_of_cons. by left. }
  unfold parseWorkflow, parseWorkflow_locals. cbv zeta. rewrite Hcalls.
  rewrite (infer_edges_congr _ [js "A"; js "B"] _
             [CallInstance.mk (js "A") idA (js "B.out");
              CallInstance.mk (js "B") idB (js "A.out")]).
  2:{ repeat constructor; intros st; apply add_edges_of_ext;
        apply (declared_same _ [js "A"; js "B"] _ Hdecl); refs_among. }
  rewrite (build_nodes_names _ [CallInstance.mk (js "A") [] [];
                                CallInstance.mk (js "B") [] []]) by done.
  eexists. split; [vm_compute; reflexivity|].
  repeat split; vm_compute; reflexivity.
Qed.

Lemma two_cycle_nodes_stay_unplaced_witness :
  (λ v, map (λ nd, (VisNode.id nd, VisNode.x nd, VisNode.y nd)) (nodes v))
    <$> parseWorkflow 800 (JString (js "A(B.out) B(A.out)"))
          (declared ["A"; "B"]%string)
  = Some [(js "A", 0%float, 0%float); (js "B", 0%float, 0%float)].
Proof.
  destruct (two_cycle_nodes_stay_unplaced 800 (js "A(B.out) B(A.out)")
              (declared ["A"; "B"]%string) (js "A_0") (js "B_1"))
    as (l & _ & Hnodes & _ & _ & _ & _ & Hret).
  - vm_compute. reflexivity.
  - rewrite Hret. cbn [fmap option_fmap option_map nodes]. by rewrite Hnodes.
Defined.

(** C4. When the recognized calls are [A(...)] and [B(A.out)], where the
    arguments of [A] refer to no other declared process, the nodes are
    exactly [A] and [B], there is exactly one edge, [A->B], and the layer
    index of [B] (1) is strictly greater than that of [A] (0); when they
    are [A(...)], [B(A.out)] and [C(A.out, B.out)], the layer index of [C]
    (2) is strictly greater than those of [A] (0) and [B] (1).  In both
    cases [parseWorkflow] returns (no error is thrown). *)
Theorem chain_examples_layering (canvasWidth : float)
    (workflowContent : jsstring) (processes : list NextflowProcess.t)
    (idA idB idC argsA : jsstring) :
  (∀ r, r ∈ references argsA →
        r ∉ map NextflowProcess.name processes ∨ r = js "A") →
  (calledProcessInstances workflowContent processes
   = [CallInstance.mk (js "A") idA argsA;
      CallInstance.mk (js "B") idB (js "A.out")] →
   ∃ l, parseWorkflow_locals canvasWidth workflowContent processes = Some l
   ∧ map VisNode.id (l_nodes l) = [js "A"; js "B"]
   ∧ map VisEdge.id (l_edges l) = [js "A->B"]
   ∧ map edge_pair (l_edges l) = [(js "A", js "B")]
   ∧ l_layers l = [[js "A"]; [js "B"]]
   ∧ l_nodeLayerMap l !! js "A" = Some 0
   ∧ l_nodeLayerMap l !! js "B" = Some 1
   ∧ 0 < 1)
  ∧ (calledProcessInstances workflowContent processes
     = [CallInstance.mk (js "A") idA argsA;
        CallInstance.mk (js "B") idB (js "A.out");
        CallInstance.mk (js "C") idC (js "A.out, B.out")] →
     ∃ l, parseWorkflow_locals canvasWidth workflowContent processes = Some l
     ∧ map VisNode.id (l_nodes l) = [js "A"; js "B"; js "C"]
     ∧ map edge_pair (l_edges l)
       = [(js "A", js "B"); (js "A", js "C"); (js "B", js "C")]
     ∧ l_layers l = [[js "A"]; [js "B"]; [js "C"]]
     ∧ l_nodeLayerMap l !! js "A" = Some 0
     ∧ l_nodeLayerMap l !! js "B" = Some 1
     ∧ l_nodeLayerMap l !! js "C" = Some 2
     ∧ 0 < 2 ∧ 1 < 2).
Proof.
  intros HargsA. split; intros Hcalls.
  - assert (∀ n, n ∈ [js "A"] → n ∈ map NextflowProcess.name processes) as Hdecl.
    { intros n ->%list_elem_of_singleton.
      apply (called_declared workflowContent processes
               (CallInstance.mk (js "A") idA argsA)).
      rewrite Hcalls. apply elem_of_cons. by left. }
    unfold parseWorkflow_locals. cbv zeta. rewrite Hcalls.
    rewrite (infer_edges_congr _ [js "A"] _
               [CallInstance.mk (js "A") idA [];
                CallInstance.mk (js "B") idB (js "A.out")]).
    2:{ repeat constructor; intros st.
        - by apply (add_edges_of_skip _ _ st (CallInstance.mk (js "A") idA argsA)).
        - apply add_edges_of_ext, (declared_same _ [js "A"] _ Hdecl). refs_among. }
    rewrite (build_nodes_names _ [CallInstance.mk (js "A") [] [];
                                  CallInstance.mk (js "B") [] []]) by done.
    eexists. split; [vm_compute; reflexivity|].
    repeat split; try lia; vm_compute; reflexivity.
  - assert (∀ n, n ∈ [js "A"; js "B"] → n ∈ map NextflowProcess.name processes)
      as Hdecl.
    { intros n [->|[->|[]%elem_of_nil]%elem_of_cons]%elem_of_cons.
      - apply (called_declared workflowContent processes
                 (CallInstance.mk (js "A") idA argsA)).
        rewrite Hcalls. apply elem_of_cons. by left.
      - apply (called_declared workflowContent processes
                 (CallInstance.mk (js "B") idB (js "A.out"))).
        rewrite Hcalls. apply elem_of_cons. right. apply elem_of_cons. by left. }
    unfold parseWorkflow_locals. cbv zeta. rewrite Hcalls.
    rewrite (infer_edges_congr _ [js "A"; js "B"] _
               [CallInstance.mk (js "A") idA [];
                CallInstance.mk (js "B") idB (js "A.out");
                CallInstance.mk (js "C") idC (js "A.out, B.out")]).
    2:{ repeat constructor; intros st.
        - by apply (add_edges_of_skip _ _ st (CallInstance.mk (js "A") idA argsA)).
        - apply add_edges_of_ext, (declared_same _ [js "A"; js "B"] _ Hdecl).
          refs_among.
        - apply add_edges_of_ext, (declared_same _ [js "A"; js "B"] _ Hdecl).
          refs_among. }
    rewrite (build_nodes_names _ [CallInstance.mk (js "A") [] [];
                                  CallInstance.mk (js "B") [] [];
                                  CallInstance.mk (js "C") [] []]) by done.
    eexists. split; [vm_compute; reflexivity|].
    repeat split; try lia; vm_compute; reflexivity.
Qed.

Lemma chain_examples_layering_witness :
  (∃ l, parseWorkflow_locals 800 (js "A(...) B(A.out)")
          (declared ["A"; "B"]%string) = Some l
        ∧ l_layers l = [[js "A"]; [js "B"]]
        ∧ map edge_pair (l_edges l) = [(js "A", js "B")])
  ∧ (∃ l, parseWorkflow_locals 800 (js "A(...) B(A.out) C(A.out, B.out)")
            (declared ["A"; "B"; "C"]%string) = Some l
     ∧ l_layers l = [[js "A"]; [js "B"]; [js "C"]]
     ∧ l_nodeLayerMap l !! js "C" = Some 2).
Proof.
  split.
  - destruct (chain_examples_layering 800 (js "A(...) B(A.out)")
                (declared ["A"; "B"]%string) (js "A_0") (js "B_1") [] (js "..."))
      as [H _].
    + intros r. vm_compute. by intros ?%elem_of_nil.
    + destruct H as (l & Hl & _ & _ & Hp & Hlay & _); [by vm_compute|].
      by exists l.
  - destruct (chain_examples_layering 800 (js "A(...) B(A.out) C(A.out, B.out)")
                (declared ["A"; "B"; "C"]%string) (js "A_0") (js "B_1") (js "C_2")
                (js "..."))
      as [_ H].
    + intros r. vm_compute. by intros ?%elem_of_nil.
    + destruct H as (l & Hl & _ & _ & Hlay & _ & _ & HC & _); [by vm_compute|].
      by exists l.
Defined.

(** ** Coordinates of the layers *)

Lemma returned_node_unique canvasWidth s processes l nd nd' :
  parseWorkflow_locals canvasWidth s processes = Some l →
  nd ∈ l_nodes l → nd' ∈ l_nodes l → VisNode.id nd = VisNode.id nd' → nd = nd'.
Proof.
  intros (es & Hes & ->)%locals_Some.
  intros [i Hi]%list_elem_of_lookup [i' Hi']%list_elem_of_lookup Hid.
  pose proof (pass_index_ok canvasWidth s processes es Hes) as [_ Hok].
  pose proof (Hok _ _ Hi) as H1. pose proof (Hok _ _ Hi') as H2.
  rewrite Hid in H1. rewrite H1 in H2. injection H2 as ->. congruence.
Qed.

(** C7, as stated, fails: with three independent calls under the initial
    canvas width 800 the centered position of the only layer is 50, which is
    not negative, and yet the leftmost node is at the margin 80. *)
Lemma margin_fallback_without_negative_center :
  ∃ l, parseWorkflow_locals 800 (js "A() B() C()")
         (declared ["A"; "B"; "C"]%string) = Some l
  ∧ l_layers l = [[js "A"; js "B"; js "C"]]
  ∧ centered 800 3 = 50%float
  ∧ (centered 800 3 <? 0)%float = false
  ∧ VisNode.x <$> l_nodes l !! 0 = Some 80%float
  ∧ (80 =? centered 800 3)%float = false.
Proof.
  eexists. split; [vm_compute; reflexivity|].
  repeat split; vm_compute; reflexivity.
Qed.

(** C7, amended. For every layer produced by the layout, the node at
    position [j] of layer [k] has [x] equal to the leftmost [x] of the layer
    advanced [j] times by the node width plus the horizontal gap, where the
    leftmost [x] centers the layer under the current canvas width and is
    replaced by the horizontal gap (80) whenever the centered position is
    below that gap; its [y] is [k] times (node height plus vertical gap)
    plus the vertical gap. *)
Theorem layer_coordinates (canvasWidth : float) (workflowContent : jsstring)
    (processes : list NextflowProcess.t) (l : Locals) (k j : nat)
    (layer : list jsstring) (n : jsstring) :
  parseWorkflow_locals canvasWidth workflowContent processes = Some l →
  l_layers l !! k = Some layer →
  layer !! j = Some n →
  (∃ nd, nd ∈ l_nodes l ∧ VisNode.id nd = n)
  ∧ (∀ nd, nd ∈ l_nodes l → VisNode.id nd = n →
       VisNode.x nd
       = Nat.iter j (λ x, x + (NODE_WIDTH + X_SPACING))%float
           (if (centered canvasWidth (length layer) <? X_SPACING)%float
            then X_SPACING else centered canvasWidth (length layer))
       ∧ VisNode.y nd = (of_nat k * (NODE_HEIGHT + Y_SPACING) + Y_SPACING)%float).
Proof.
  intros Hl Hk Hj.
  pose proof (returned_node_unique canvasWidth workflowContent processes l) as Hu.
  destruct (locals_Some _ _ _ _ Hl) as (es & Hes & ->).
  pose proof (pass_placed canvasWidth workflowContent processes es Hes
                k layer j n Hk Hj) as Hp.
  split; [by eexists|]. intros nd Hnd Hid.
  by rewrite (Hu nd _ Hl Hnd Hp Hid).
Qed.

Lemma layer_coordinates_witness :
  ∃ l, parseWorkflow_locals 800 (js "A() B() C()")
         (declared ["A"; "B"; "C"]%string) = Some l
  ∧ l_layers l !! 0 = Some [js "A"; js "B"; js "C"]
  ∧ [js "A"; js "B"; js "C"] !! 1 = Some (js "B")
  ∧ ∀ nd, nd ∈ l_nodes l → VisNode.id nd = js "B" →
          VisNode.x nd = 340%float ∧ VisNode.y nd = 100%float.
Proof.
  eexists. split; [vm_compute; reflexivity|].
  split; [by vm_compute|]. split; [done|].
  apply (layer_coordinates 800 (js "A() B() C()")
           (declared ["A"; "B"; "C"]%string) _ 0 1 [js "A"; js "B"; js "C"] (js "B")).
  - vm_compute. reflexivity.
  - by vm_compute.
  - done.
Defined.

(** ** A reference to a declared process that is never called *)

Lemma pending_pos E P v e :
  e ∈ E → VisEdge.target e = v → VisEdge.source e ∉ P → 0 < pending E P v.
Proof.
  intros He Ht Hs. unfold pending.
  destruct (filter _ E) as [|a l] eqn:Hf; [|simpl; lia].
  exfalso. by apply (filter_nil_not_elem_of _ _ e Hf).
Qed.

Lemma edge_rel_routed nodeMap nodes es u v :
  edge_rel (map (route_edge nodeMap nodes) es) u v ↔ edge_rel es u v.
Proof.
  unfold edge_rel. split.
  - intros (e & (e0 & -> & He0)%list_elem_of_fmap & Hs & Ht).
    exists e0. split; [done|].
    pose proof (route_edge_pair nodeMap nodes e0) as Hp. unfold edge_pair in Hp.
    injection Hp as Hp1 Hp2. by rewrite <- Hp1, <- Hp2.
  - intros (e & He & Hs & Ht). exists (route_edge nodeMap nodes e). split.
    + apply list_elem_of_fmap. by exists e.
    + pose proof (route_edge_pair nodeMap nodes e) as Hp. unfold edge_pair in Hp.
      injection Hp as Hp1 Hp2. by rewrite Hp1, Hp2.
Qed.

Lemma waves_Some n workflowContent processes ks :
  waves n workflowContent processes = Some ks →
  ∃ es,
    infer_edges (map NextflowProcess.name processes)
      (calledProcessInstances workflowContent processes)
      (build_nodes (calledProcessInstances workflowContent processes)) = Some es
    ∧ ks = layering n (build_nodes (calledProcessInstances workflowContent processes))
             es.
Proof.
  unfold waves. cbv zeta.
  destruct (infer_edges _ _ _) as [es|]; [|done].
  intros [= <-]. by exists es.
Qed.

Section blocked.
Context (canvasWidth : float) (workflowContent : jsstring)
        (processes : list NextflowProcess.t) (es : EdgeState).

Let definedProcessNames := map NextflowProcess.name processes.
Let calls := calledProcessInstances workflowContent processes.
Let ns := build_nodes calls.
Hypothesis Hes : infer_edges definedProcessNames calls ns = Some es.
Let l := lay_out canvasWidth calls ns es.

(** A node that is placed has all its predecessors placed. *)
Lemma placed_preds u v :
  edge_rel (es_edges es) u v →
  v ∈ concat (l_layers l) → u ∈ concat (l_layers l).
Proof.
  intros (e & He & <- & <-) Hv.
  destruct (pass_kahn canvasWidth workflowContent processes es Hes) as [_ Hk].
  fold definedProcessNames calls ns l in Hk.
  eapply pending_0; [|done|done].
  apply (ki_ready _ _ _ _ _ _ Hk). by rewrite app_nil_r.
Qed.

Lemma unplaced_reach u v :
  rtc (edge_rel (es_edges es)) u v →
  u ∉ concat (l_layers l) → v ∉ concat (l_layers l).
Proof.
  induction 1 as [|u w v Huw _ IH]; [done|].
  intros Hu. apply IH. intros Hw. apply Hu. by eapply placed_preds.
Qed.

Lemma unplaced_node V :
  is_Some (ns_nodeMap ns !! V) → V ∉ concat (l_layers l) →
  l_nodeLayerMap l !! V = None
  ∧ new_node V ∈ l_nodes l
  ∧ ∀ nd, nd ∈ l_nodes l → VisNode.id nd = V → nd = new_node V.
Proof.
  intros HV Hout.
  destruct (pass_kahn canvasWidth workflowContent processes es Hes) as [_ Hk].
  fold definedProcessNames calls ns l in Hk.
  assert (∀ nd, nd ∈ l_nodes l → VisNode.id nd = V → nd = new_node V) as Hall.
  { intros nd Hnd <-.
    by apply (pass_unplaced canvasWidth workflowContent processes es Hes nd). }
  split; [|split; [|done]].
  - destruct (l_nodeLayerMap l !! V) as [i|] eqn:Hl; [|done].
    destruct Hout. apply (ki_layer _ _ _ _ _ _ Hk). by rewrite Hl.
  - apply (node_index_ok_dom _ (l_nodes l)) in HV;
      [|apply (pass_index_ok canvasWidth workflowContent processes es Hes)].
    apply list_elem_of_fmap in HV as (nd & -> & Hnd).
    by rewrite <- (Hall nd Hnd eq_refl).
Qed.
End blocked.

Lemma route_edge_unknown_source nodeMap nodes e :
  node_index_ok nodeMap nodes →
  nodeMap !! VisEdge.source e = None → route_edge nodeMap nodes e = e.
Proof.
  intros Hok Hs. unfold route_edge.
  by rewrite (proj2 (nodeMap_get_None nodeMap nodes _ Hok) Hs).
Qed.

(** C3. A declared process [P] that is referenced and never called is meant
    to give the edge [P->T]; the guard [G[sourceProcessName] && ...] that
    lets such a source pass misses the names that the plain object [G]
    inherits.  For the workflow [T(constructor.out)] with [T] and
    [constructor] declared, the only recognized call is that of [T], its
    argument text refers to [constructor], which is declared and never
    called; [G[sourceProcessName]] is the inherited member [constructor],
    which has no [includes], and [parseWorkflow] throws a [TypeError]
    instead of returning the edge: the effect shows the empty graph, keeps
    the canvas size and sets the error text. *)
Theorem inherited_member_source_throws (message : jsstring) :
  let workflowContent := js "T(constructor.out)" in
  let processes := declared ["T"; "constructor"]%string in
  let pipeline := mkPipeline (JString workflowContent) processes in
  calledProcessInstances workflowContent processes
  = [CallInstance.mk (js "T") (js "T_0") (js "constructor.out")]
  ∧ references (js "constructor.out") = [js "constructor"]
  ∧ js "constructor" ∈ map NextflowProcess.name processes
  ∧ G_get ∅ None (js "constructor") = GObject
  ∧ parseWorkflow 800 (JString workflowContent) processes = None
  ∧ effect initial_canvasSizeForLayout pipeline
    = (mkVisData [] [], initial_canvasSizeForLayout)
  ∧ effect_error message initial_canvasSizeForLayout pipeline
    = Some (js "Could not visualize workflow: " ++ message).
Proof.
  cbv zeta. split; [by vm_compute|]. split; [by vm_compute|].
  split; [apply elem_of_cons; right; apply elem_of_cons; by left|].
  split; [by vm_compute|].
  assert (parseWorkflow 800 (JString (js "T(constructor.out)"))
            (declared ["T"; "constructor"]%string) = None) as Hthrow
    by (by vm_compute).
  split; [done|].
  unfold effect, effect_error.
  cbn [workflowContent processes cs_width initial_canvasSizeForLayout].
  by rewrite Hthrow.
Qed.

(** X22. When [parseWorkflow] returns: if the argument text of a call to a
    declared process [T] has a reference to a declared process [P] that is
    never called, then the returned edge set has the edge [P->T], with all
    its coordinates at the placeholder 0, although no returned node has id
    [P]; the in-degree of [T] is never 0, after any number of waves of the
    layering (it is a positive number, unless [T] is [__proto__], which has
    no entry); and [T], like every node that can be reached from [T] along
    edges, is in no layer, has no layer index, and is returned at the
    coordinates (0, 0) at which it was created. *)
Theorem uncalled_source_blocks_target (canvasWidth : float)
    (workflowContent : jsstring) (processes : list NextflowProcess.t)
    (l : Locals) (c : CallInstance.t) (P : jsstring) :
  let T := CallInstance.name c in
  parseWorkflow_locals canvasWidth workflowContent processes = Some l →
  c ∈ calledProcessInstances workflowContent processes →
  P ∈ references (CallInstance.inputs c) →
  P ∈ map NextflowProcess.name processes →
  (∀ c', c' ∈ calledProcessInstances workflowContent processes →
         CallInstance.name c' ≠ P) →
  VisEdge.mk (edge_id P T) P T 0 0 0 0 0 0 ∈ l_edges l
  ∧ (∀ e, e ∈ l_edges l → VisEdge.source e = P → VisEdge.target e = T →
          e = VisEdge.mk (edge_id P T) P T 0 0 0 0 0 0)
  ∧ (P ∉ map VisNode.id (l_nodes l))
  ∧ (∀ n ks, waves n workflowContent processes = Some ks →
             ks_inDegree ks !! T ≠ Some 0%Z
             ∧ (T ≠ PROTO → ∃ d, ks_inDegree ks !! T = Some d ∧ (0 < d)%Z))
  ∧ (∀ V, rtc (edge_rel (l_edges l)) T V →
          (V ∉ concat (l_layers l))
          ∧ l_nodeLayerMap l !! V = None
          ∧ VisNode.mk V V 0 0 NODE_WIDTH NODE_HEIGHT ∈ l_nodes l
          ∧ ∀ nd, nd ∈ l_nodes l → VisNode.id nd = V →
                  nd = VisNode.mk V V 0 0 NODE_WIDTH NODE_HEIGHT).
Proof.
  cbv zeta. intros Hl Hc HP Hdef Hnever.
  pose proof (returned_ids canvasWidth workflowContent processes l P Hl) as Hids.
  destruct (locals_Some _ _ _ _ Hl) as (es & Hes & ->).
  set (T := CallInstance.name c).
  set (calls := calledProcessInstances workflowContent processes) in *.
  set (ns := build_nodes calls) in *.
  set (l := lay_out canvasWidth calls ns es) in *.
  pose proof (pass_nodes_inv workflowContent processes) as Hn.
  pose proof (pass_edges_inv workflowContent processes es Hes) as He.
  pose proof (pass_index_ok canvasWidth workflowContent processes es Hes) as Hok.
  pose proof (pass_pairs workflowContent processes es Hes) as Hpairs.
  pose proof (pass_edges canvasWidth workflowContent processes es) as Hedges.
  fold calls ns l in Hn, He, Hok, Hpairs, Hedges.
  assert (P ≠ T) as HPT by (intros ->; by apply (Hnever c)).
  assert (ns_nodeMap ns !! P = None) as HPnode.
  { destruct (ns_nodeMap ns !! P) as [i|] eqn:Hi; [|done].
    destruct (proj1 (ni_names _ _ Hn P) (mk_is_Some _ _ Hi)) as (c' & Hc' & Hname).
    by destruct (Hnever c' Hc'). }
  assert (is_Some (ns_nodeMap ns !! T)) as HTnode.
  { apply (ni_names _ _ Hn). by exists c. }
  assert (new_edge P T ∈ es_edges es) as Hedge.
  { assert ((P, T) ∈ map edge_pair (es_edges es)) as Hin.
    { rewrite Hpairs. unfold first_wins.
      apply foldl_record_pair_elem. right. by apply discovered_elem. }
    apply list_elem_of_fmap in Hin as (e & Hp & Hin).
    pose proof (ei_shape _ _ _ He e Hin) as Hshape. unfold edge_pair in Hp.
    injection Hp as Hs Ht. rewrite <- Hs, <- Ht in Hshape. by rewrite <- Hshape. }
  assert (∀ P' : list jsstring,
            (∀ v, v ∈ P' → is_Some (ns_nodeMap ns !! v)) → P ∉ P') as HPout.
  { intros P' HP' Hin. apply HP' in Hin. rewrite HPnode in Hin. by destruct Hin. }
  assert (T ∉ concat (l_layers l)) as HTout.
  { intros HT.
    apply (HPout _ (pass_layers_node canvasWidth workflowContent processes es Hes)).
    eapply (placed_preds canvasWidth workflowContent processes es Hes);
      [|exact HT].
    by exists (new_edge P T). }
  split; [|split; [|split; [|split]]].
  - rewrite Hedges. apply list_elem_of_fmap. exists (new_edge P T).
    split; [|done]. symmetry. by apply route_edge_unknown_source.
  - intros e He' Hs Ht. rewrite Hedges in He'.
    apply list_elem_of_fmap in He' as (e0 & -> & He0).
    pose proof (route_edge_pair (ns_nodeMap ns) (l_nodes l) e0) as Hp.
    unfold edge_pair in Hp. injection Hp as Hs0 Ht0.
    assert (VisEdge.source e0 = P) as Hs1 by (rewrite <- Hs0; exact Hs).
    assert (VisEdge.target e0 = T) as Ht1 by (rewrite <- Ht0; exact Ht).
    pose proof (ei_shape _ _ _ He e0 He0) as Hshape. rewrite Hs1, Ht1 in Hshape.
    rewrite Hshape. by apply route_edge_unknown_source.
  - intros (c' & Hc' & Hname)%Hids. by destruct (Hnever c' Hc').
  - intros n ks (es' & Hes' & ->)%waves_Some.
    fold calls ns in Hes'. rewrite Hes in Hes'. injection Hes' as <-.
    pose proof (pass_waves workflowContent processes es Hes n) as Hw.
    cbv zeta in Hw. fold calls ns in Hw.
    assert (T ≠ PROTO →
            ∃ d, ks_inDegree (layering n ns es) !! T = Some d ∧ (0 < d)%Z) as Hpos.
    { intros HT.
      assert (is_Some (ordinary (ns_nodeMap ns) !! T)) as HTord
        by (by apply ordinary_is_Some).
      rewrite (ki_deg _ _ _ _ _ _ Hw T HTord). eexists. split; [done|].
      apply (inj_lt 0). apply (pending_pos _ _ _ (new_edge P T)); [done|done|].
      simpl. intros Hin.
      apply (HPout (concat (ks_layers (layering n ns es)))); [|done].
      intros v Hv.
      eapply ordinary_is_Some, (ki_node _ _ _ _ _ _ Hw), elem_of_app. by left. }
    split; [|exact Hpos].
    destruct (decide (T = PROTO)) as [HT|HT].
    + intros H0.
      assert (is_Some (ordinary (ns_nodeMap ns) !! T)) as [? _]%ordinary_is_Some
        by (apply (ki_dom _ _ _ _ _ _ Hw); exact (mk_is_Some _ _ H0)).
      done.
    + destruct (Hpos HT) as (d & Hd & Hlt). intros H0.
      pose proof (eq_trans (eq_sym Hd) H0) as [= ->]. lia.
  - intros V HV.
    assert (rtc (edge_rel (es_edges es)) T V) as HV'.
    { eapply rtc_subrel; [|exact HV]. intros u v Huv. rewrite Hedges in Huv.
      by apply edge_rel_routed in Huv. }
    assert (V ∉ concat (l_layers l)) as HVout.
    { by eapply (unplaced_reach canvasWidth workflowContent processes es Hes). }
    split; [done|].
    apply (unplaced_node canvasWidth workflowContent processes es Hes); [|done].
    apply rtc_inv_r in HV' as [<-|(u & _ & e & He' & _ & <-)]; [done|].
    by apply (ei_target _ _ _ He).
Qed.

Lemma uncalled_source_blocks_target_witness :
  ∃ l, parseWorkflow_locals 800 (js "T(P.out) V(T.out) W(x)")
         (declared ["T"; "P"; "V"; "W"]%string) = Some l
  ∧ VisEdge.mk (js "P->T") (js "P") (js "T") 0 0 0 0 0 0 ∈ l_edges l
  ∧ (js "P" ∉ map VisNode.id (l_nodes l))
  ∧ (js "V" ∉ concat (l_layers l))
  ∧ VisNode.mk (js "V") (js "V") 0 0 NODE_WIDTH NODE_HEIGHT ∈ l_nodes l.
Proof.
  eexists. split; [vm_compute; reflexivity|].
  lazymatch goal with
  | |- context [l_edges ?l] =>
      destruct (uncalled_source_blocks_target 800 (js "T(P.out) V(T.out) W(x)")
                  (declared ["T"; "P"; "V"; "W"]%string) l
                  (CallInstance.mk (js "T") (js "T_0") (js "P.out")) (js "P"))
        as (H1 & _ & H3 & _ & H5)
  end.
  - vm_compute. reflexivity.
  - vm_compute. apply elem_of_cons. by left.
  - vm_compute. apply elem_of_cons. by left.
  - vm_compute. apply elem_of_cons. right. apply elem_of_cons. by left.
  - intros c'. vm_compute. intros Hc' Hn.
    repeat (apply elem_of_cons in Hc' as [->|Hc']; [done|]).
    by apply elem_of_nil in Hc'.
  - split; [exact H1|]. split; [exact H3|].
    destruct (H5 (js "V")) as (Hout & _ & Hnode & _).
    + apply rtc_once. exists (VisEdge.mk (js "T->V") (js "T") (js "V") 90 60 90 0 105 30).
      split; [|done]. vm_compute. apply elem_of_cons. right.
      apply elem_of_cons. by left.
    + by split.
Defined.

(** ** Runs that return *)

Lemma foldl_throws_inv {A B} (I : A → Prop) (f : A → B → option A) l :
  (∀ a x, x ∈ l → I a → ∃ a', f a x = Some a' ∧ I a') →
  ∀ a, I a → ∃ a', foldl_throws f a l = Some a' ∧ I a'.
Proof.
  induction l as [|x l IH]; intros Hstep a Ha; [by exists a|].
  destruct (Hstep a x) as (a' & Hfa & Ha'); [apply elem_of_cons; by left|done|].
  simpl. rewrite Hfa. apply IH; [|done].
  intros a0 x0 Hx0. apply Hstep, elem_of_cons. by right.
Qed.

Lemma build_nodes_Gproto calls :
  (∀ c, c ∈ calls → CallInstance.name c ≠ PROTO) →
  ns_Gproto (build_nodes calls) = None.
Proof.
  induction calls as [|c calls IH] using rev_ind; intros Hall; [done|].
  assert (build_nodes (calls ++ [c]) = add_node (build_nodes calls) c) as ->
    by apply foldl_snoc.
  unfold add_node. destruct (ns_nodeMap (build_nodes calls) !! _).
  - apply IH. intros c' Hc'. apply Hall, elem_of_app. by left.
  - rewrite bool_decide_eq_false_2.
    + cbn [ns_Gproto]. apply IH. intros c' Hc'. apply Hall, elem_of_app. by left.
    + apply Hall, elem_of_app. right. by apply list_elem_of_singleton.
Qed.

(** With [Object.prototype] as the prototype of [G], a source that is not
    named like one of its members is an own array or [undefined]. *)
Lemma add_edge_returns defined t st s :
  es_Gproto st = None →
  (s ∈ defined → s ∉ Object_prototype) →
  ∃ st', add_edge defined t st s = Some st' ∧ es_Gproto st' = None.
Proof.
  intros Hproto Hs. unfold add_edge.
  destruct (bool_decide (s ∈ defined)) eqn:Hd; cbn [andb]; [|by exists st].
  apply bool_decide_eq_true in Hd.
  destruct (negb (bool_decide (s = t))); [|by exists st].
  destruct (has_edge_id _ _); [by exists st|].
  cbv zeta. unfold G_get. rewrite Hproto.
  destruct (es_G st !! s) as [a|].
  - case_bool_decide; eexists; (split; [reflexivity|done]).
  - rewrite bool_decide_eq_false_2 by (by apply Hs).
    eexists; (split; [reflexivity|done]).
Qed.

(** X23. [parseWorkflow] returns (it throws nothing) whenever no recognized
    call has the name [__proto__] and no reference to a declared process in
    the argument text of a recognized call is the name of a member of
    [Object.prototype]; in particular whenever no declared process is named
    like a member of [Object.prototype]. *)
Theorem returns_without_inherited_names (canvasWidth : float)
    (workflowContent : js_value) (processes : list NextflowProcess.t) :
  ((∀ c, c ∈ recognized_calls workflowContent processes →
         CallInstance.name c ≠ PROTO
         ∧ ∀ r, r ∈ references (CallInstance.inputs c) →
                r ∈ map NextflowProcess.name processes →
                r ∉ Object_prototype) →
   ∃ v, parseWorkflow canvasWidth workflowContent processes = Some v)
  ∧ ((∀ p, p ∈ processes → NextflowProcess.name p ∉ Object_prototype) →
     ∃ v, parseWorkflow canvasWidth workflowContent processes = Some v).
Proof.
  assert ((∀ c, c ∈ recognized_calls workflowContent processes →
                CallInstance.name c ≠ PROTO
                ∧ ∀ r, r ∈ references (CallInstance.inputs c) →
                       r ∈ map NextflowProcess.name processes →
                       r ∉ Object_prototype) →
          ∃ v, parseWorkflow canvasWidth workflowContent processes = Some v)
    as Hfirst.
  { destruct workflowContent as [s| | | | |]; try (by eexists).
    cbn [recognized_calls]. intros Hcalls.
    unfold parseWorkflow, parseWorkflow_locals. cbv zeta.
    destruct (foldl_throws_inv (λ st, es_Gproto st = None)
                (add_edges_of (map NextflowProcess.name processes))
                (calledProcessInstances s processes)) with
      (a := mkEdgeState []
              (ns_G (build_nodes (calledProcessInstances s processes)))
              (ns_Gproto (build_nodes (calledProcessInstances s processes)))
              (ns_inDegree (build_nodes (calledProcessInstances s processes))))
      as (es & Hes & _).
    - intros st c Hc Hst. unfold add_edges_of.
      apply foldl_throws_inv; [|done].
      intros st' r Hr Hst'. apply add_edge_returns; [done|].
      by apply (Hcalls c Hc).
    - cbn [es_Gproto]. apply build_nodes_Gproto. intros c Hc.
      by apply (Hcalls c Hc).
    - unfold infer_edges. rewrite Hes. by eexists. }
  split; [exact Hfirst|]. intros Hnames. apply Hfirst.
  assert (∀ n, n ∈ map NextflowProcess.name processes → n ∉ Object_prototype)
    as Hdecl.
  { intros n (p & -> & Hp)%list_elem_of_fmap. by apply Hnames. }
  intros c Hc.
  assert (CallInstance.name c ∈ map NextflowProcess.name processes) as Hname.
  { destruct workflowContent as [s| | | | |];
      try (by apply elem_of_nil in Hc).
    by eapply called_declared. }
  split.
  - intros Hproto. apply (Hdecl _ Hname). rewrite Hproto.
    vm_compute. do 7 (apply elem_of_cons; right). apply elem_of_cons. by left.
  - intros r _. apply Hdecl.
Qed.

Lemma returns_without_inherited_names_witness :
  ∃ v, parseWorkflow 800 (JString (js "FASTQC(reads) toString(FASTQC.out)"))
         (declared ["FASTQC"; "toString"]%string) = Some v.
Proof.
  apply (proj1 (returns_without_inherited_names 800
                  (JString (js "FASTQC(reads) toString(FASTQC.out)"))
                  (declared ["FASTQC"; "toString"]%string))).
  intros c. vm_compute.
  intros [->|[->|H%elem_of_nil]%elem_of_cons]%elem_of_cons; [| |done].
  - split; [done|]. cbn [CallInstance.inputs]. intros r.
    by intros ?%elem_of_nil.
  - split; [done|]. cbn [CallInstance.inputs].
    intros r [->|H%elem_of_nil]%elem_of_cons; [|done]. intros _ H.
    repeat (apply elem_of_cons in H as [H|H]; [done|]).
    by apply elem_of_nil in H.
Defined.

(** ** Two runs of the effect *)

(** Every returned node is either as it was created or placed at a position
    of a layer. *)
Lemma returned_node_cases canvasWidth s processes l nd :
  parseWorkflow_locals canvasWidth s processes = Some l →
  nd ∈ l_nodes l →
  nd = new_node (VisNode.id nd)
  ∨ ∃ k layer j,
      l_layers l !! k = Some layer ∧ j < length layer
      ∧ nd = VisNode.mk (VisNode.id nd) (VisNode.id nd)
               (Nat.iter j next_x (layer_start canvasWidth (length layer)))
               (layer_y k) NODE_WIDTH NODE_HEIGHT.
Proof.
  intros Hl Hnd.
  pose proof (returned_node_unique canvasWidth s processes l nd) as Hu.
  destruct (locals_Some _ _ _ _ Hl) as (es & Hes & ->).
  destruct (decide (VisNode.id nd ∈ concat
                      (l_layers (lay_out canvasWidth
                         (calledProcessInstances s processes)
                         (build_nodes (calledProcessInstances s processes)) es))))
    as [Hin|Hout].
  - right.
    apply elem_of_concat in Hin as (layer & [j Hj]%list_elem_of_lookup
                                    & [k Hk]%list_elem_of_lookup).
    exists k, layer, j. split; [done|]. split; [by eapply lookup_lt_Some|].
    apply Hu; [done|done| |done].
    by apply (pass_placed canvasWidth s processes es Hes).
  - left. by apply (pass_unplaced canvasWidth s processes es Hes).
Qed.

Lemma narrow_nodes s processes l nd :
  parseWorkflow_locals 800 s processes = Some l →
  (∀ layer, layer ∈ l_layers l → length layer ≤ 2) →
  nd ∈ l_nodes l →
  narrow_right_edge (VisNode.x nd + VisNode.width nd)%float.
Proof.
  intros Hl Hnarrow Hnd.
  destruct (returned_node_cases 800 s processes l nd Hl Hnd)
    as [->|(k & layer & j & Hk & Hj & ->)]; [by left|].
  specialize (Hnarrow layer (list_elem_of_lookup_2 _ _ _ Hk)).
  cbn [VisNode.x VisNode.width].
  destruct (length layer) as [|[|[|len]]]; [lia| | |lia].
  - assert (j = 0) as -> by lia. right. right. by left.
  - destruct j as [|[|j]]; [right; by left|by repeat right|lia].
Qed.

Lemma narrow_bounds nodes : ∀ m,
  (∀ nd, nd ∈ nodes → narrow_right_edge (VisNode.x nd + VisNode.width nd)%float) →
  m.1 = 0%float ∨ narrow_right_edge m.1 →
  (foldl grow_bounds m nodes).1 = 0%float
  ∨ narrow_right_edge (foldl grow_bounds m nodes).1.
Proof.
  induction nodes as [|nd nodes IH]; intros m Hall Hm; [done|].
  simpl. apply IH.
  - intros nd' Hnd'. apply Hall, elem_of_cons. by right.
  - unfold grow_bounds. cbn [fst].
    pose proof (Hall nd (list_elem_of_here nd nodes)) as Hv.
    unfold narrow_right_edge in *.
    destruct Hm as [->|[->|[->|[->| ->]]]];
      destruct Hv as [->|[->|[-> | ->]]]; vm_compute; tauto.
Qed.

(** The data of a run depend on the canvas size only through its width. *)
Lemma effect_fst canvasSizeForLayout pipeline :
  (effect canvasSizeForLayout pipeline).1
  = default (mkVisData [] [])
      (parseWorkflow (cs_width canvasSizeForLayout) (workflowContent pipeline)
         (processes pipeline)).
Proof. unfold effect. by destruct (parseWorkflow _ _ _). Qed.

(** C2, as stated, fails: with three independent calls, the first run of
    the effect from the initial canvas size places the nodes at x = 80, 340,
    600 and widens the shared canvas to 940; the second run on the same
    inputs places them at x = 120, 380, 640. *)
Lemma second_run_moves_nodes :
  let pipeline := mkPipeline (JString (js "A() B() C()"))
                    (declared ["A"; "B"; "C"]%string) in
  let r := effect_twice initial_canvasSizeForLayout pipeline in
  map VisNode.x (nodes r.1) = [80; 340; 600]%float
  ∧ cs_width (effect initial_canvasSizeForLayout pipeline).2 = 940%float
  ∧ map VisNode.x (nodes r.2) = [120; 380; 640]%float
  ∧ r.1 ≠ r.2.
Proof.
  cbv zeta. repeat split; try (vm_compute; reflexivity).
  intros H.
  assert (map (λ nd, (VisNode.x nd =? 80)%float)
            (nodes (effect_twice initial_canvasSizeForLayout
                      (mkPipeline (JString (js "A() B() C()"))
                         (declared ["A"; "B"; "C"]%string))).1)
          = map (λ nd, (VisNode.x nd =? 80)%float)
              (nodes (effect_twice initial_canvasSizeForLayout
                        (mkPipeline (JString (js "A() B() C()"))
                           (declared ["A"; "B"; "C"]%string))).2)) as Hx
    by (by rewrite H).
  vm_compute in Hx. discriminate Hx.
Qed.

(** C2, amended. Two runs of the effect in succession on identical inputs
    give identical results (the same nodes with the same coordinates and
    the same edges with the same control points) whenever the first run
    leaves the shared canvas width as it found it; starting from the
    initial canvas size, this is the case when no layer has more than two
    nodes. *)
Theorem rerun_identical_when_width_kept :
  (∀ canvasSizeForLayout pipeline,
     cs_width (effect canvasSizeForLayout pipeline).2
     = cs_width canvasSizeForLayout →
     (effect_twice canvasSizeForLayout pipeline).1
     = (effect_twice canvasSizeForLayout pipeline).2)
  ∧ (∀ pipeline,
       (∀ layer,
          layer ∈ layers_of 800 (workflowContent pipeline) (processes pipeline) →
          length layer ≤ 2) →
       cs_width (effect initial_canvasSizeForLayout pipeline).2 = 800%float
       ∧ (effect_twice initial_canvasSizeForLayout pipeline).1
         = (effect_twice initial_canvasSizeForLayout pipeline).2).
Proof.
  assert (∀ canvasSizeForLayout pipeline,
            cs_width (effect canvasSizeForLayout pipeline).2
            = cs_width canvasSizeForLayout →
            (effect_twice canvasSizeForLayout pipeline).1
            = (effect_twice canvasSizeForLayout pipeline).2) as Hkept.
  { intros cs p Hw. unfold effect_twice. cbv zeta. cbn [fst snd].
    by rewrite !effect_fst, Hw. }
  split; [done|]. intros [content procs] Hnarrow. cbn [workflowContent processes] in *.
  assert (cs_width (effect initial_canvasSizeForLayout (mkPipeline content procs)).2
          = 800%float) as Hw.
  { unfold effect. cbv zeta. cbn [cs_width workflowContent processes
                                  initial_canvasSizeForLayout].
    destruct (parseWorkflow 800 content procs) as [v|] eqn:Hv; [|done].
    cbn [snd cs_width].
    destruct (narrow_bounds (nodes v) (0, 0)%float) as [H0|H0].
    - intros nd Hnd. destruct content as [s| | | | |];
        try (injection Hv as <-; by apply elem_of_nil in Hnd).
      apply parseWorkflow_Some in Hv as (l & Hl & ->).
      apply (narrow_nodes s procs l); [done| |done].
      intros layer Hlayer. apply Hnarrow. unfold layers_of. by rewrite Hl.
    - by left.
    - by rewrite H0.
    - unfold narrow_right_edge in H0.
      destruct H0 as [H0|[H0|[H0|H0]]]; by rewrite H0. }
  split; [done|]. by apply Hkept.
Qed.

Lemma rerun_identical_when_width_kept_witness :
  let pipeline := mkPipeline (JString (js "A(...) B(A.out) C(A.out)"))
                    (declared ["A"; "B"; "C"]%string) in
  layers_of 800 (workflowContent pipeline) (processes pipeline)
  = [[js "A"]; [js "B"; js "C"]]
  ∧ cs_width (effect initial_canvasSizeForLayout pipeline).2 = 800%float
  ∧ (effect_twice initial_canvasSizeForLayout pipeline).1
    = (effect_twice initial_canvasSizeForLayout pipeline).2.
Proof.
  cbv zeta. split; [by vm_compute|].
  apply (proj2 rerun_identical_when_width_kept
           (mkPipeline (JString (js "A(...) B(A.out) C(A.out)"))
              (declared ["A"; "B"; "C"]%string))).
  intros layer. vm_compute.
  intros [->|[->|H%elem_of_nil]%elem_of_cons]%elem_of_cons; simpl; [lia|lia|done].
Defined.

(** * Further properties of the code *)

Section layering.
Context (nodeMap : gmap jsstring nat)
        (E : list VisEdge.t) (G : gmap jsstring (list jsstring)).
Hypothesis HG : ∀ u, G !! u = (λ _, succs E u) <$> nodeMap !! u.
Hypothesis Hpairs : NoDup (map edge_pair E).
Hypothesis Hnonempty : nodeMap !! [] = None.

Local Abbreviation linv := (layering_inv nodeMap E).

(** The queue after one visit: the successors that were at in-degree 1 join
    it, in the order of the successor list. *)
Lemma visit_queue P u q layer nlm inD cl :
  kahn_inv nodeMap E P (u :: q) inD nlm →
  let st' := visit G cl (mkWaveState (u :: q) layer nlm inD) in
  ws_queue st' = q ++ filter (λ v, inD !! v = Some 1%Z) (succs E u)
  ∧ ws_nodeLayerMap st' = <[u := cl]> nlm.
Proof.
  intros Hinv. cbv zeta.
  assert (is_Some (nodeMap !! u)) as Hu.
  { apply (ki_node _ _ _ _ _ _ Hinv), elem_of_app. right.
    apply elem_of_cons. by left. }
  assert (u ≠ []) as Hne.
  { intros ->. rewrite Hnonempty in Hu. by destruct Hu. }
  rewrite visit_cons by done. cbn [ws_queue ws_nodeLayerMap].
  rewrite HG. destruct Hu as [i ->]. cbn [fmap option_fmap option_map default].
  rewrite relax_fold by (by apply succs_NoDup). done.
Qed.

Lemma visit_linv L cur u q layer nlm inD :
  linv L cur (u :: q) inD nlm →
  let st' := visit G (length L) (mkWaveState (u :: q) layer nlm inD) in
  ws_layer st' = layer ++ [u]
  ∧ ∃ new, ws_queue st' = q ++ new
           ∧ linv L (cur ++ [u]) (q ++ new) (ws_inDegree st')
               (ws_nodeLayerMap st').
Proof.
  intros [Hbase Hcomplete Hidx Horder Hne]. cbv zeta.
  destruct (visit_inv nodeMap E G HG Hpairs Hnonempty
              (concat L ++ cur) u q layer nlm inD (length L) Hbase)
    as (Hl & new & Hq & Hinv').
  destruct (visit_queue (concat L ++ cur) u q layer nlm inD (length L) Hbase)
    as [Hq' Hnlm].
  cbv zeta in Hl, Hq, Hinv', Hq', Hnlm.
  split; [done|]. exists new. split; [done|].
  assert (new = filter (λ v, inD !! v = Some 1%Z) (succs E u)) as Hnew.
  { rewrite Hq in Hq'. by apply app_inv_head in Hq'. }
  assert (u ∉ concat L ++ cur) as HuP.
  { pose proof (ki_nodup _ _ _ _ _ _ Hbase) as Hnd.
    apply NoDup_app in Hnd as (_ & Hd & _). intros HP.
    apply (Hd u HP), elem_of_cons. by left. }
  rewrite <- (app_assoc (concat L)) in Hinv'.
  split; [exact Hinv'| | |exact Horder|exact Hne].
  - intros v Hv Hp.
    pose proof (pending_snoc E (concat L ++ cur) u v Hpairs HuP) as Hs.
    rewrite <- (app_assoc (concat L)) in Hs.
    destruct (decide (v ∈ succs E u)) as [Hin|Hin].
    + apply elem_of_app. right. apply elem_of_app. right. rewrite Hnew.
      apply list_elem_of_filter. split; [|done].
      rewrite (ki_deg _ _ _ _ _ _ Hbase v Hv). f_equal. lia.
    + assert (v ∈ (concat L ++ cur) ++ u :: q) as Hvin.
      { apply Hcomplete; [done|lia]. }
      rewrite !elem_of_app, elem_of_cons in Hvin.
      rewrite !elem_of_app, list_elem_of_singleton. tauto.
  - intros v k. rewrite Hnlm. destruct (decide (u = v)) as [<-|Huv].
    + rewrite lookup_insert_eq. split.
      * intros [= <-]. right. split; [done|]. apply elem_of_app. right.
        by apply list_elem_of_singleton.
      * intros [(layer' & Hk & Hin)|[-> _]]; [|done].
        destruct HuP. apply elem_of_app. left. apply elem_of_concat.
        exists layer'. split; [done|]. by eapply list_elem_of_lookup_2.
    + rewrite lookup_insert_ne by done. rewrite Hidx.
      rewrite elem_of_app, list_elem_of_singleton.
      split; (intros [?|[? ?]]; [by left|right; split; [done|]]); [by left|].
      destruct H0 as [?|?]; [done|congruence].
Qed.

Lemma wave_linv L q1 : ∀ cur q2 layer nlm inD,
  linv L cur (q1 ++ q2) inD nlm →
  let st' := wave G (length L) (length q1) (mkWaveState (q1 ++ q2) layer nlm inD) in
  ws_layer st' = layer ++ q1
  ∧ ∃ new, ws_queue st' = q2 ++ new
           ∧ linv L (cur ++ q1) (q2 ++ new) (ws_inDegree st')
               (ws_nodeLayerMap st').
Proof.
  induction q1 as [|u q1 IH]; intros cur q2 layer nlm inD Hinv; cbv zeta.
  - simpl. rewrite !app_nil_r. split; [done|]. exists [].
    by rewrite !app_nil_r.
  - cbn [length wave].
    destruct (visit_linv L cur u (q1 ++ q2) layer nlm inD Hinv)
      as (Hl & new1 & Hq & Hinv1).
    change ((u :: q1) ++ q2) with (u :: q1 ++ q2).
    destruct (visit G (length L) (mkWaveState (u :: q1 ++ q2) layer nlm inD))
      as [queue1 layer1 nlm1 inD1].
    simpl in Hl, Hq, Hinv1. subst queue1 layer1.
    rewrite <- app_assoc in Hinv1 |- *.
    destruct (IH (cur ++ [u]) (q2 ++ new1) (layer ++ [u]) nlm1 inD1 Hinv1)
      as (Hl2 & new2 & Hq2 & Hinv2).
    split.
    + rewrite Hl2, <- app_assoc. done.
    + exists (new1 ++ new2). rewrite Hq2. rewrite <- !app_assoc in *.
      done.
Qed.

Lemma kahn_step_linv st :
  ks_queue st ≠ [] →
  linv (ks_layers st) [] (ks_queue st) (ks_inDegree st) (ks_nodeLayerMap st) →
  let st' := kahn_step G st in
  ks_layers st' = ks_layers st ++ [ks_queue st]
  ∧ linv (ks_layers st') [] (ks_queue st') (ks_inDegree st')
      (ks_nodeLayerMap st').
Proof.
  intros Hq0 Hinv. unfold kahn_step. cbv zeta.
  pose proof Hinv as [Hbase0 _ _ Horder0 Hne0].
  pose proof (wave_linv (ks_layers st) (ks_queue st) [] [] []
                (ks_nodeLayerMap st) (ks_inDegree st)) as Hw.
  rewrite !app_nil_r in Hw. cbv zeta in Hw. simpl in Hw.
  destruct (Hw Hinv) as (Hl & new & Hq & [Hbase Hcomplete Hidx _ _]).
  cbn [ks_layers ks_queue ks_inDegree ks_nodeLayerMap].
  rewrite Hl, Hq. split; [done|].
  assert (concat (ks_layers st ++ [ks_queue st]) ++ []
          = concat (ks_layers st) ++ ks_queue st) as Hcat.
  { rewrite concat_app. simpl. by rewrite !app_nil_r. }
  split.
  - by rewrite Hcat.
  - by rewrite Hcat.
  - intros v k. rewrite Hidx. rewrite length_app. simpl. split.
    + intros [(layer & Hk & Hv)|[-> Hv]].
      * left. exists layer. split; [|done]. by apply lookup_app_l_Some.
      * left. exists (ks_queue st). split; [|done].
        by rewrite lookup_app_r, Nat.sub_diag.
    + intros [(layer & Hk & Hv)|[_ Hv%elem_of_nil]]; [|done].
      apply lookup_app_Some in Hk as [Hk|[Hlen Hk]].
      * left. by exists layer.
      * apply list_lookup_singleton_Some in Hk as [Hk0 <-]. right.
        split; [lia|done].
  - intros k layer e Hk He Ht.
    apply lookup_app_Some in Hk as [Hk|[Hlen Hk]].
    + destruct (Horder0 k layer e Hk He Ht) as (j & layer' & Hj & Hl' & Hs).
      exists j, layer'. split; [done|]. split; [|done].
      by apply lookup_app_l_Some.
    + apply list_lookup_singleton_Some in Hk as [Hk0 <-].
      assert (VisEdge.source e ∈ concat (ks_layers st) ++ []) as Hs.
      { eapply pending_0; [|exact He|done].
        apply (ki_ready _ _ _ _ _ _ Hbase0), elem_of_app. by right. }
      rewrite app_nil_r in Hs.
      apply elem_of_concat in Hs as (layer' & Hs & [j Hj]%list_elem_of_lookup).
      exists j, layer'. split; [|split; [|done]].
      * apply lookup_lt_Some in Hj. lia.
      * by apply lookup_app_l_Some.
  - intros layer [Hl'| ->%list_elem_of_singleton]%elem_of_app; [by apply Hne0|done].
Qed.

Lemma kahn_linv fuel : ∀ st,
  linv (ks_layers st) [] (ks_queue st) (ks_inDegree st) (ks_nodeLayerMap st) →
  let st' := kahn fuel G st in
  linv (ks_layers st') [] (ks_queue st') (ks_inDegree st') (ks_nodeLayerMap st').
Proof.
  induction fuel as [|fuel IH]; intros st Hinv; cbv zeta; [done|].
  simpl. destruct (ks_queue st) as [|u q] eqn:Hq.
  - by rewrite Hq.
  - rewrite <- Hq in *. apply IH. apply kahn_step_linv; [|done].
    by rewrite Hq.
Qed.

(** The layers only grow at the end, wave after wave. *)
Lemma kahn_layers_prefix fuel : ∀ st,
  ks_layers st `prefix_of` ks_layers (kahn fuel G st).
Proof.
  induction fuel as [|fuel IH]; intros st; [done|].
  simpl. destruct (ks_queue st) as [|u q] eqn:Hq; [done|].
  etrans; [|apply IH]. unfold kahn_step. simpl. by apply prefix_app_r.
Qed.

Lemma kahn_first_layer fuel st :
  linv (ks_layers st) [] (ks_queue st) (ks_inDegree st) (ks_nodeLayerMap st) →
  ks_layers st = [] → ks_queue st ≠ [] →
  ks_layers (kahn (S fuel) G st) !! 0 = Some (ks_queue st).
Proof.
  intros Hinv Hl Hq. simpl. destruct (ks_queue st) as [|u q] eqn:Hq'; [done|].
  rewrite <- Hq' in *.
  eapply prefix_lookup_Some; [|apply kahn_layers_prefix].
  destruct (kahn_step_linv st Hq Hinv) as [-> _]. by rewrite Hl.
Qed.
End layering.

(** ** The layers of a pass *)

Lemma route_edge_target nodeMap nodes e :
  VisEdge.target (route_edge nodeMap nodes e) = VisEdge.target e.
Proof.
  pose proof (route_edge_pair nodeMap nodes e) as Hp. unfold edge_pair in Hp.
  congruence.
Qed.

Lemma route_edge_source nodeMap nodes e :
  VisEdge.source (route_edge nodeMap nodes e) = VisEdge.source e.
Proof.
  pose proof (route_edge_pair nodeMap nodes e) as Hp. unfold edge_pair in Hp.
  congruence.
Qed.

Lemma route_edge_id nodeMap nodes e :
  VisEdge.id (route_edge nodeMap nodes e) = VisEdge.id e.
Proof.
  unfold route_edge.
  destruct (nodeMap_get nodeMap nodes (VisEdge.source e)) as [[? ?]|]; [|done].
  by destruct (nodeMap_get nodeMap nodes (VisEdge.target e)) as [[? ?]|].
Qed.

Lemma preds_count_routed nodeMap nodes es t :
  preds_count (map (route_edge nodeMap nodes) es) t = preds_count es t.
Proof.
  unfold preds_count. induction es as [|e es IH]; [done|].
  rewrite map_cons, !filter_cons, route_edge_target.
  case_decide; simpl; by rewrite IH.
Qed.

Lemma filter_fmap_comm {A B} (f : A → B) (P : B → Prop)
    `{∀ x, Decision (P x)} (l : list A) :
  filter P (map f l) = map f (filter (λ a, P (f a)) l).
Proof.
  induction l as [|a l IH]; [done|].
  rewrite map_cons, !filter_cons. case_decide; by rewrite ?map_cons, IH.
Qed.

Lemma concat_length_nonempty {A} (ls : list (list A)) :
  (∀ l, l ∈ ls → l ≠ []) → length ls ≤ length (concat ls).
Proof.
  induction ls as [|l ls IH]; intros Hne; [done|].
  simpl. rewrite length_app.
  assert (l ≠ []) as Hl by (apply Hne, elem_of_cons; by left).
  assert (length ls ≤ length (concat ls)) as IH'.
  { apply IH. intros l' Hl'. apply Hne, elem_of_cons. by right. }
  destruct l; [done|]. simpl. lia.
Qed.

Section pass_layers.
Context (canvasWidth : float) (workflowContent : jsstring)
        (processes : list NextflowProcess.t) (es : EdgeState).

Let definedProcessNames := map NextflowProcess.name processes.
Let calls := calledProcessInstances workflowContent processes.
Let ns := build_nodes calls.
Hypothesis Hes : infer_edges definedProcessNames calls ns = Some es.
Let l := lay_out canvasWidth calls ns es.

Lemma pass_node_ids n :
  is_Some (ns_nodeMap ns !! n) ↔ n ∈ map VisNode.id (l_nodes l).
Proof.
  apply node_index_ok_dom,
    (pass_index_ok canvasWidth workflowContent processes es Hes).
Qed.

Lemma pass_initial_layering :
  layering_inv (ordinary (ns_nodeMap ns)) (es_edges es) [] []
    (initial_queue (ns_nodes ns) (es_inDegree es)) (es_inDegree es) ∅.
Proof.
  pose proof (pass_nodes_inv workflowContent processes) as Hn.
  pose proof (pass_edges_inv workflowContent processes es Hes) as He.
  fold calls ns in Hn. fold definedProcessNames calls ns in He.
  split.
  - apply (pass_initial workflowContent processes es Hes).
  - intros v Hv Hp. simpl. unfold initial_queue.
    pose proof Hv as [_ Hv']%ordinary_is_Some.
    apply (node_index_ok_dom _ (ns_nodes ns) v (ni_index _ _ Hn)) in Hv'.
    apply list_elem_of_fmap in Hv' as (nd & -> & Hnd).
    apply list_elem_of_fmap. exists nd. split; [done|].
    apply list_elem_of_filter. split; [|done].
    rewrite (ei_inDegree _ _ _ He). destruct Hv as [i ->]. simpl.
    rewrite pending_nil in Hp. by rewrite Hp.
  - intros v k. rewrite lookup_empty. split; [done|].
    intros [(layer & Hk & _)|[_ Hv%elem_of_nil]]; done.
  - intros k layer e Hk. done.
  - intros layer Hl%elem_of_nil. done.
Qed.

(** The layering invariant at the [return]. *)
Lemma pass_layering :
  layering_inv (ordinary (ns_nodeMap ns)) (es_edges es) (l_layers l) [] []
    (l_inDegree l) (l_nodeLayerMap l).
Proof.
  pose proof (pass_edges_inv workflowContent processes es Hes) as He.
  fold definedProcessNames calls ns in He.
  destruct (pass_kahn canvasWidth workflowContent processes es Hes) as [Hq _].
  fold definedProcessNames calls ns l in Hq.
  assert (layering_inv (ordinary (ns_nodeMap ns)) (es_edges es) (l_layers l) []
            (l_queue l) (l_inDegree l) (l_nodeLayerMap l)) as H;
    [|by rewrite Hq in H].
  unfold l, lay_out, layering.
  cbn [l_queue l_layers l_inDegree l_nodeLayerMap].
  apply (kahn_linv (ordinary (ns_nodeMap ns)) (es_edges es) (es_G es)).
  - apply (ei_G _ _ _ He).
  - by eapply edges_inv_pairs_NoDup.
  - apply (pass_ordinary_nonempty workflowContent processes).
  - apply pass_initial_layering.
Qed.

(** The initial queue: the nodes other than [__proto__] that no edge
    enters. *)
Lemma pass_roots :
  initial_queue (ns_nodes ns) (es_inDegree es)
  = filter (λ n, n ≠ PROTO ∧ preds_count (l_edges l) n = 0)
      (map VisNode.id (l_nodes l)).
Proof.
  pose proof (pass_nodes_inv workflowContent processes) as Hn.
  pose proof (pass_edges_inv workflowContent processes es Hes) as He.
  fold calls ns in Hn. fold definedProcessNames calls ns in He.
  unfold l, ns, calls.
  rewrite (pass_nodes_ids canvasWidth workflowContent processes es Hes).
  fold calls ns. rewrite filter_fmap_comm. unfold initial_queue. f_equal.
  apply filter_ext_elem. intros nd Hnd.
  unfold ns, calls.
  rewrite (pass_edges canvasWidth workflowContent processes es).
  fold definedProcessNames calls ns. rewrite preds_count_routed.
  rewrite (ei_inDegree _ _ _ He), ordinary_lookup.
  case_bool_decide as Hproto.
  - split; [done|]. by intros [? _].
  - assert (is_Some (ns_nodeMap ns !! VisNode.id nd)) as [i ->].
    { apply (node_index_ok_dom _ (ns_nodes ns) _ (ni_index _ _ Hn)).
      apply list_elem_of_fmap. by exists nd. }
    simpl. split; [intros [= H]; split; [done|lia]|by intros [_ ->]].
Qed.

Lemma pass_first_layer :
  match initial_queue (ns_nodes ns) (es_inDegree es) with
  | [] => l_layers l = []
  | _ :: _ => l_layers l !! 0 = Some (initial_queue (ns_nodes ns) (es_inDegree es))
  end.
Proof.
  pose proof (pass_edges_inv workflowContent processes es Hes) as He.
  fold definedProcessNames calls ns in He.
  unfold l, lay_out, layering. cbn [l_layers].
  destruct (initial_queue (ns_nodes ns) (es_inDegree es)) as [|u q] eqn:Hq.
  - done.
  - rewrite <- Hq.
    apply (kahn_first_layer (ordinary (ns_nodeMap ns)) (es_edges es) (es_G es)).
    + apply (ei_G _ _ _ He).
    + by eapply edges_inv_pairs_NoDup.
    + apply (pass_ordinary_nonempty workflowContent processes).
    + apply pass_initial_layering.
    + done.
    + simpl. by rewrite Hq.
Qed.

(** An edge of the result comes from an inferred edge with the same ends. *)
Lemma pass_edge_origin e :
  e ∈ l_edges l →
  ∃ e0, e0 ∈ es_edges es ∧ VisEdge.source e0 = VisEdge.source e
        ∧ VisEdge.target e0 = VisEdge.target e ∧ VisEdge.id e0 = VisEdge.id e.
Proof.
  unfold l, ns, calls.
  rewrite (pass_edges canvasWidth workflowContent processes es).
  intros (e0 & -> & He0)%list_elem_of_fmap. exists e0.
  by rewrite route_edge_source, route_edge_target, route_edge_id.
Qed.

Lemma pass_edge_target_node e :
  e ∈ l_edges l → VisEdge.target e ∈ map VisNode.id (l_nodes l).
Proof.
  intros (e0 & He0 & _ & <- & _)%pass_edge_origin. apply pass_node_ids.
  apply (ei_target _ _ _ (pass_edges_inv workflowContent processes es Hes)). done.
Qed.

Lemma pass_edge_order e k layer :
  e ∈ l_edges l → l_layers l !! k = Some layer → VisEdge.target e ∈ layer →
  ∃ j layer', j < k ∧ l_layers l !! j = Some layer' ∧ VisEdge.source e ∈ layer'.
Proof.
  intros (e0 & He0 & <- & <- & _)%pass_edge_origin Hk Ht.
  by apply (li_order _ _ _ _ _ _ _ pass_layering k layer e0).
Qed.

(** A node is unplaced exactly when it is [__proto__] or an edge from an
    unplaced source enters it. *)
Lemma pass_unplaced_iff n :
  n ∈ map VisNode.id (l_nodes l) ∧ n ∉ concat (l_layers l)
  ↔ (n = PROTO ∧ PROTO ∈ map VisNode.id (l_nodes l))
    ∨ ∃ e, e ∈ l_edges l ∧ VisEdge.target e = n
           ∧ VisEdge.source e ∉ concat (l_layers l).
Proof.
  pose proof pass_layering as [Hbase Hcomplete _ _ _].
  rewrite app_nil_r in Hbase. split.
  - intros [Hn Hout]. destruct (decide (n = PROTO)) as [->|Hproto]; [by left|].
    right. apply pass_node_ids in Hn.
    assert (is_Some (ordinary (ns_nodeMap ns) !! n)) as Hn'
      by (by apply ordinary_is_Some).
    destruct (pending (es_edges es) (concat (l_layers l)) n) as [|p] eqn:Hp.
    { destruct Hout. specialize (Hcomplete n Hn').
      rewrite !app_nil_r in Hcomplete. by apply Hcomplete. }
    unfold pending in Hp.
    destruct (filter _ (es_edges es)) as [|e0 rest] eqn:Hf; [done|].
    assert (e0 ∈ filter (λ e, VisEdge.target e = n
                              ∧ VisEdge.source e ∉ concat (l_layers l))
                   (es_edges es)) as Hin.
    { rewrite Hf. apply elem_of_cons. by left. }
    apply list_elem_of_filter in Hin as [[Ht Hs] He0].
    exists (route_edge (ns_nodeMap ns) (l_nodes l) e0).
    rewrite route_edge_source, route_edge_target. split; [|done].
    unfold l, ns, calls.
  rewrite (pass_edges canvasWidth workflowContent processes es).
    apply list_elem_of_fmap. by exists e0.
  - intros [[-> Hn]|(e & He & <- & Hs)].
    + split; [done|].
      intros [? _]%(pass_layers_ordinary canvasWidth workflowContent processes
                      es Hes)%ordinary_is_Some.
      done.
    + split; [by apply pass_edge_target_node|].
      intros Ht. apply Hs.
      apply pass_edge_origin in He as (e0 & He0 & <- & Ht0 & _).
      rewrite <- Ht0 in Ht.
      apply (pending_0 (es_edges es) _ (VisEdge.target e0) e0); [|done|done].
      apply (ki_ready _ _ _ _ _ _ Hbase). by rewrite app_nil_r.
Qed.

Lemma pass_layer_index v k :
  l_nodeLayerMap l !! v = Some k
  ↔ ∃ layer, l_layers l !! k = Some layer ∧ v ∈ layer.
Proof.
  rewrite (li_index _ _ _ _ _ _ _ pass_layering v k). split; [|intros ?; by left].
  intros [H|[_ H%elem_of_nil]]; done.
Qed.

(** A placed node is in one layer only. *)
Lemma pass_layer_unique v j k layer layer' :
  l_layers l !! j = Some layer → v ∈ layer →
  l_layers l !! k = Some layer' → v ∈ layer' → j = k.
Proof.
  intros Hj Hv Hk Hv'.
  assert (l_nodeLayerMap l !! v = Some j) as H1 by (apply pass_layer_index; eauto).
  assert (l_nodeLayerMap l !! v = Some k) as H2 by (apply pass_layer_index; eauto).
  congruence.
Qed.
End pass_layers.

Section chain.
Context (nodeMap : gmap jsstring nat)
        (E : list VisEdge.t) (G : gmap jsstring (list jsstring)).
Hypothesis HG : ∀ u, G !! u = (λ _, succs E u) <$> nodeMap !! u.
Hypothesis Hpairs : NoDup (map edge_pair E).
Hypothesis Hnonempty : nodeMap !! [] = None.

(** The nodes that a wave adds to the queue are successors of the nodes
    that it processes. *)
Lemma wave_new L q1 : ∀ cur q2 layer nlm inD,
  layering_inv nodeMap E L cur (q1 ++ q2) inD nlm →
  ∃ new,
    ws_queue (wave G (length L) (length q1) (mkWaveState (q1 ++ q2) layer nlm inD))
    = q2 ++ new
    ∧ ∀ v, v ∈ new →
           ∃ e, e ∈ E ∧ VisEdge.source e ∈ q1 ∧ VisEdge.target e = v.
Proof.
  induction q1 as [|u q1 IH]; intros cur q2 layer nlm inD Hinv.
  - exists []. simpl. rewrite app_nil_r. split; [done|]. by intros v ?%elem_of_nil.
  - cbn [length wave]. change ((u :: q1) ++ q2) with (u :: q1 ++ q2) in *.
    destruct (visit_linv nodeMap E G HG Hpairs Hnonempty L cur u
                (q1 ++ q2) layer nlm inD Hinv) as (Hl & new1 & Hq & Hinv1).
    destruct (visit_queue nodeMap E G HG Hpairs Hnonempty _ u (q1 ++ q2) layer nlm inD
                (length L) (li_base _ _ _ _ _ _ _ Hinv)) as [Hq' _].
    cbv zeta in Hl, Hq, Hinv1, Hq'.
    assert (new1 = filter (λ v, inD !! v = Some 1%Z) (succs E u)) as Hnew1.
    { rewrite Hq in Hq'. by apply app_inv_head in Hq'. }
    destruct (visit G (length L) (mkWaveState (u :: q1 ++ q2) layer nlm inD))
      as [queue1 layer1 nlm1 inD1].
    simpl in Hl, Hq, Hinv1. subst queue1 layer1.
    rewrite <- app_assoc in Hinv1 |- *.
    destruct (IH (cur ++ [u]) (q2 ++ new1) (layer ++ [u]) nlm1 inD1 Hinv1)
      as (new2 & Hq2 & Hnew2).
    exists (new1 ++ new2). rewrite Hq2, <- app_assoc. split; [done|].
    intros v [Hv|Hv]%elem_of_app.
    + rewrite Hnew1 in Hv. apply list_elem_of_filter in Hv as [_ Hv].
      apply elem_of_succs in Hv as (e & He & Hs & Ht).
      exists e. split; [done|]. split; [|done]. rewrite Hs.
      apply elem_of_cons. by left.
    + destruct (Hnew2 v Hv) as (e & He & Hs & Ht).
      exists e. split; [done|]. split; [|done]. apply elem_of_cons. by right.
Qed.

Lemma kahn_step_chained st :
  ks_queue st ≠ [] →
  layering_inv nodeMap E (ks_layers st) [] (ks_queue st) (ks_inDegree st)
    (ks_nodeLayerMap st) →
  chained E (ks_layers st) (ks_queue st) →
  chained E (ks_layers (kahn_step G st)) (ks_queue (kahn_step G st)).
Proof.
  intros Hq0 Hinv [Hprev Hqueue].
  destruct (kahn_step_linv nodeMap E G HG Hpairs Hnonempty st Hq0 Hinv)
    as [Hl _].
  cbv zeta in Hl. rewrite Hl.
  pose proof (wave_new (ks_layers st) (ks_queue st) [] [] []
                (ks_nodeLayerMap st) (ks_inDegree st)) as Hw.
  rewrite !app_nil_r in Hw. destruct (Hw Hinv) as (new & Hq & Hnew).
  simpl in Hq. unfold kahn_step. cbn [ks_queue]. rewrite Hq.
  split.
  - intros k layer v Hk Hv.
    apply lookup_app_Some in Hk as [Hk|[Hlen Hk]].
    + destruct (Hprev k layer v Hk Hv) as (e & layer' & He & Ht & Hk' & Hs).
      exists e, layer'. repeat split; try done. by apply lookup_app_l_Some.
    + apply list_lookup_singleton_Some in Hk as [Hk0 <-].
      assert (ks_layers st ≠ []) as Hne.
      { intros Hnil. rewrite Hnil in Hk0. simpl in Hk0. lia. }
      destruct (Hqueue v Hv Hne) as (e & layer' & He & Ht & Hlast & Hs).
      exists e, layer'. repeat split; try done.
      rewrite last_lookup in Hlast. apply lookup_app_l_Some.
      replace k with (pred (length (ks_layers st))) by lia. done.
  - intros v Hv _. destruct (Hnew v Hv) as (e & He & Hs & Ht).
    exists e, (ks_queue st). repeat split; try done. by rewrite last_snoc.
Qed.

Lemma kahn_chained fuel : ∀ st,
  layering_inv nodeMap E (ks_layers st) [] (ks_queue st) (ks_inDegree st)
    (ks_nodeLayerMap st) →
  chained E (ks_layers st) (ks_queue st) →
  chained E (ks_layers (kahn fuel G st)) (ks_queue (kahn fuel G st)).
Proof.
  induction fuel as [|fuel IH]; intros st Hinv Hch; [done|].
  simpl. destruct (ks_queue st) as [|u q] eqn:Hq.
  - by rewrite Hq.
  - rewrite <- Hq in *.
    assert (ks_queue st ≠ []) as Hne by (by rewrite Hq).
    apply IH.
    + by apply (kahn_step_linv nodeMap E G HG Hpairs Hnonempty st).
    + by apply kahn_step_chained.
Qed.
End chain.

(** ** The layering, on every input *)

(** A run that returns, evaluated. *)
Ltac returned := eexists; split; [vm_compute; reflexivity|].

(** X1. Every returned edge whose target is in a layer has its source in a
    layer of strictly smaller index, and the two end nodes are returned with
    the [y] of their layers: the target is drawn in a lower row than the
    source. *)
Theorem edges_lead_to_later_layers (canvasWidth : float)
    (workflowContent : jsstring) (processes : list NextflowProcess.t)
    (l : Locals) (e : VisEdge.t) (k : nat) (layer : list jsstring) :
  parseWorkflow_locals canvasWidth workflowContent processes = Some l →
  e ∈ l_edges l →
  l_layers l !! k = Some layer →
  VisEdge.target e ∈ layer →
  ∃ j layer',
    j < k ∧ l_layers l !! j = Some layer' ∧ VisEdge.source e ∈ layer'
    ∧ (∀ nd, nd ∈ l_nodes l → VisNode.id nd = VisEdge.source e →
             VisNode.y nd = layer_y j)
    ∧ (∀ nd, nd ∈ l_nodes l → VisNode.id nd = VisEdge.target e →
             VisNode.y nd = layer_y k).
Proof.
  intros Hl He Hk Ht.
  pose proof (λ nd nd', returned_node_unique canvasWidth workflowContent
                          processes l nd nd' Hl) as Hu.
  destruct (locals_Some _ _ _ _ Hl) as (es & Hes & ->).
  destruct (pass_edge_order canvasWidth workflowContent processes es Hes e k layer
              He Hk Ht) as (j & layer' & Hjk & Hj & Hs).
  exists j, layer'. split; [done|]. split; [done|]. split; [done|].
  set (l := lay_out canvasWidth (calledProcessInstances workflowContent processes)
              (build_nodes (calledProcessInstances workflowContent processes)) es)
    in *.
  assert (∀ i lay n nd,
            l_layers l !! i = Some lay → n ∈ lay → nd ∈ l_nodes l →
            VisNode.id nd = n → VisNode.y nd = layer_y i) as Hy.
  { intros i lay n nd Hi [p Hp]%list_elem_of_lookup Hnd Hid.
    pose proof (pass_placed canvasWidth workflowContent processes es Hes i lay p n
                  Hi Hp) as Hplaced.
    by rewrite (Hu nd _ Hnd Hplaced Hid). }
  split; intros nd Hnd Hid; eapply Hy; eauto.
Qed.

Lemma edges_lead_to_later_layers_witness :
  ∃ l, parseWorkflow_locals 800 (js "A(x) B(A.out)")
         (declared ["A"; "B"]%string) = Some l
  ∧ ∃ j layer',
    j < 1 ∧ l_layers l !! j = Some layer' ∧ js "A" ∈ layer'
    ∧ (∀ nd, nd ∈ l_nodes l → VisNode.id nd = js "A" → VisNode.y nd = layer_y j)
    ∧ (∀ nd, nd ∈ l_nodes l → VisNode.id nd = js "B" → VisNode.y nd = layer_y 1).
Proof.
  returned.
  apply (edges_lead_to_later_layers 800 (js "A(x) B(A.out)")
           (declared ["A"; "B"]%string) _
           (VisEdge.mk (js "A->B") (js "A") (js "B") 400 160 400 260 430 220)
           1 [js "B"]).
  - vm_compute. reflexivity.
  - vm_compute. apply elem_of_cons. by left.
  - by vm_compute.
  - apply elem_of_cons. by left.
Defined.

(** X2. The layering is by longest path: a node of the first layer has no
    entering edge, and a node of any later layer has an entering edge whose
    source is in the layer just before (all its other sources being in
    earlier layers). *)
Theorem layer_is_one_below_a_source (canvasWidth : float)
    (workflowContent : jsstring) (processes : list NextflowProcess.t)
    (l : Locals) (k : nat) (layer : list jsstring) (v : jsstring) :
  parseWorkflow_locals canvasWidth workflowContent processes = Some l →
  l_layers l !! k = Some layer →
  v ∈ layer →
  match k with
  | 0 => ∀ e, e ∈ l_edges l → VisEdge.target e ≠ v
  | S k' => ∃ e layer', e ∈ l_edges l ∧ VisEdge.target e = v
                        ∧ l_layers l !! k' = Some layer'
                        ∧ VisEdge.source e ∈ layer'
  end.
Proof.
  intros (es & Hes & ->)%locals_Some Hk Hv. destruct k as [|k'].
  - intros e He Ht.
    destruct (pass_edge_order canvasWidth workflowContent processes es Hes e 0
                layer He Hk) as (j & _ & Hj & _); [by rewrite Ht|lia].
  - pose proof (pass_edges_inv workflowContent processes es Hes) as He.
    pose proof (pass_edges canvasWidth workflowContent processes es) as Hedges.
    set (calls := calledProcessInstances workflowContent processes) in *.
    set (ns := build_nodes calls) in *.
    set (l := lay_out canvasWidth calls ns es) in *.
    assert (chained (es_edges es) (l_layers l) (l_queue l)) as [Hprev _].
    { unfold l, lay_out, layering. cbn [l_layers l_queue].
      apply (kahn_chained (ordinary (ns_nodeMap ns)) (es_edges es) (es_G es)).
      - apply (ei_G _ _ _ He).
      - by eapply edges_inv_pairs_NoDup.
      - apply (pass_ordinary_nonempty workflowContent processes).
      - apply (pass_initial_layering workflowContent processes es Hes).
      - split; [by intros k layer0 v0 ?|]. by intros v0 _ ?. }
    destruct (Hprev k' layer v Hk Hv) as (e & layer' & He0 & Ht & Hk' & Hs).
    exists (route_edge (ns_nodeMap ns) (l_nodes l) e), layer'.
    rewrite route_edge_source, route_edge_target. split; [|done].
    rewrite Hedges. apply list_elem_of_fmap. by exists e.
Qed.

Lemma layer_is_one_below_a_source_witness :
  ∃ l, parseWorkflow_locals 800 (js "A(x) B(A.out) C(A.out, B.out)")
         (declared ["A"; "B"; "C"]%string) = Some l
  ∧ ∃ e layer', e ∈ l_edges l ∧ VisEdge.target e = js "C"
                ∧ l_layers l !! 1 = Some layer' ∧ VisEdge.source e ∈ layer'.
Proof.
  returned.
  apply (layer_is_one_below_a_source 800 (js "A(x) B(A.out) C(A.out, B.out)")
           (declared ["A"; "B"; "C"]%string) _ 2 [js "C"] (js "C")).
  - vm_compute. reflexivity.
  - by vm_compute.
  - apply elem_of_cons. by left.
Defined.

(** X3. When [parseWorkflow] returns, a name is the id of a returned node
    that is in no layer exactly when it is [__proto__] and a call has that
    name (its in-degree is never found to be 0), or some returned edge
    enters it from a source that is in no layer (a source that is itself
    unplaced, or that is not a node at all). *)
Theorem unplaced_iff_fed_by_unplaced (canvasWidth : float)
    (workflowContent : jsstring) (processes : list NextflowProcess.t)
    (l : Locals) (n : jsstring) :
  parseWorkflow_locals canvasWidth workflowContent processes = Some l →
  n ∈ map VisNode.id (l_nodes l) ∧ n ∉ concat (l_layers l)
  ↔ (n = PROTO ∧ PROTO ∈ map VisNode.id (l_nodes l))
    ∨ ∃ e, e ∈ l_edges l ∧ VisEdge.target e = n
           ∧ VisEdge.source e ∉ concat (l_layers l).
Proof.
  intros (es & Hes & ->)%locals_Some. by apply pass_unplaced_iff.
Qed.

Lemma unplaced_iff_fed_by_unplaced_witness :
  ∃ l, parseWorkflow_locals 800 (js "__proto__(x) A(y) B(C.out)")
         (declared ["__proto__"; "A"; "B"; "C"]%string) = Some l
  ∧ l_layers l = [[js "A"]]
  ∧ map VisNode.id (l_nodes l) = [PROTO; js "A"; js "B"]
  ∧ map edge_pair (l_edges l) = [(js "C", js "B")]
  ∧ (PROTO ∈ map VisNode.id (l_nodes l) ∧ PROTO ∉ concat (l_layers l))
  ∧ (js "B" ∈ map VisNode.id (l_nodes l) ∧ js "B" ∉ concat (l_layers l)).
Proof.
  returned. split; [by vm_compute|]. split; [by vm_compute|].
  split; [by vm_compute|]. split.
  - apply (unplaced_iff_fed_by_unplaced 800 (js "__proto__(x) A(y) B(C.out)")
             (declared ["__proto__"; "A"; "B"; "C"]%string) _ PROTO).
    + vm_compute. reflexivity.
    + left. split; [done|]. vm_compute. apply elem_of_cons. by left.
  - apply (unplaced_iff_fed_by_unplaced 800 (js "__proto__(x) A(y) B(C.out)")
             (declared ["__proto__"; "A"; "B"; "C"]%string) _ (js "B")).
    + vm_compute. reflexivity.
    + right. exists (VisEdge.mk (js "C->B") (js "C") (js "B") 0 0 0 0 0 0).
      split; [vm_compute; apply elem_of_cons; by left|]. split; [done|].
      vm_compute. intros [H|H%elem_of_nil]%elem_of_cons; done.
Defined.

(** X4. When [parseWorkflow] returns, every returned node is in a layer
    exactly when no call has the name [__proto__], every returned edge
    starts at a returned node and some ranking of the names strictly grows
    along every edge (the inferred graph has no cycle and no edge from a
    process that is never called). *)
Theorem all_placed_iff_ranked (canvasWidth : float)
    (workflowContent : jsstring) (processes : list NextflowProcess.t)
    (l : Locals) :
  parseWorkflow_locals canvasWidth workflowContent processes = Some l →
  (∀ n, n ∈ map VisNode.id (l_nodes l) → n ∈ concat (l_layers l))
  ↔ (PROTO ∉ map VisNode.id (l_nodes l))
    ∧ (∀ e, e ∈ l_edges l → VisEdge.source e ∈ map VisNode.id (l_nodes l))
    ∧ ∃ rank : jsstring → nat,
        ∀ e, e ∈ l_edges l → rank (VisEdge.source e) < rank (VisEdge.target e).
Proof.
  intros (es & Hes & ->)%locals_Some.
  set (l := lay_out canvasWidth (calledProcessInstances workflowContent processes)
              (build_nodes (calledProcessInstances workflowContent processes)) es).
  split.
  - intros Hall.
    assert (∀ e, e ∈ l_edges l →
              ∃ j k, j < k ∧ l_nodeLayerMap l !! VisEdge.source e = Some j
                     ∧ l_nodeLayerMap l !! VisEdge.target e = Some k) as Hedge.
    { intros e He.
      pose proof (pass_edge_target_node canvasWidth workflowContent processes
                    es Hes e He) as Ht.
      apply Hall, elem_of_concat in Ht as (layer & Ht & [k Hk]%list_elem_of_lookup).
      destruct (pass_edge_order canvasWidth workflowContent processes es Hes
                  e k layer He Hk Ht) as (j & layer' & Hjk & Hj & Hs).
      exists j, k. split; [done|].
      split; apply (pass_layer_index canvasWidth workflowContent processes es Hes);
        eexists; split; eassumption. }
    split; [|split].
    + intros Hproto.
      apply Hall,
        (pass_layers_ordinary canvasWidth workflowContent processes es Hes),
        ordinary_is_Some in Hproto as [? _].
      done.
    + intros e He. destruct (Hedge e He) as (j & k & _ & Hj & _).
      apply (pass_layer_index canvasWidth workflowContent processes es Hes) in Hj
        as (layer' & Hj & Hs).
      apply (pass_node_ids canvasWidth workflowContent processes es Hes).
      apply (pass_layers_node canvasWidth workflowContent processes es Hes).
      apply elem_of_concat. exists layer'. split; [done|].
      by eapply list_elem_of_lookup_2.
    + exists (λ v, default 0 (l_nodeLayerMap l !! v)). intros e He.
      destruct (Hedge e He) as (j & k & Hjk & -> & ->). done.
  - intros (Hproto & Hsrc & rank & Hrank).
    assert (∀ m n, rank n < m → n ∈ map VisNode.id (l_nodes l) →
                   n ∈ concat (l_layers l)) as Hind.
    { induction m as [|m IH]; intros n Hm Hn; [lia|].
      destruct (decide (n ∈ concat (l_layers l))) as [|Hout]; [done|].
      destruct (proj1 (pass_unplaced_iff canvasWidth workflowContent processes
                         es Hes n) (conj Hn Hout))
        as [[_ ?]|(e & He & <- & Hs)]; [done|].
      destruct Hs. apply IH; [|exact (Hsrc e He)].
      pose proof (Hrank e He). lia. }
    intros n Hn. apply (Hind (S (rank n))); [lia|done].
Qed.

Lemma all_placed_iff_ranked_witness :
  ∃ l, parseWorkflow_locals 800 (js "B(A.out) A(x)")
         (declared ["A"; "B"]%string) = Some l
  ∧ l_layers l = [[js "A"]; [js "B"]]
  ∧ ∀ n, n ∈ map VisNode.id (l_nodes l) → n ∈ concat (l_layers l).
Proof.
  returned. split; [by vm_compute|].
  apply (all_placed_iff_ranked 800 (js "B(A.out) A(x)")
           (declared ["A"; "B"]%string)).
  - vm_compute. reflexivity.
  - split; [|split].
    + vm_compute. intros H.
      repeat (apply elem_of_cons in H as [H|H]; [done|]).
      by apply elem_of_nil in H.
    + intros e. vm_compute. intros [->|H%elem_of_nil]%elem_of_cons; [|done].
      simpl. apply elem_of_cons. right. apply elem_of_cons. by left.
    + exists (λ n, if bool_decide (n = js "A") then 0 else 1).
      intros e. vm_compute. intros [->|H%elem_of_nil]%elem_of_cons; [|done].
      simpl. lia.
Defined.

(** X5. At the [return] the queue is empty; the layers are non-empty and
    pairwise disjoint, hold ids of returned nodes only, and are at most as
    many as the nodes; [nodeLayerMap] maps a name to [k] exactly when the
    name is in layer [k]. *)
Theorem layers_partition_placed_nodes (canvasWidth : float)
    (workflowContent : jsstring) (processes : list NextflowProcess.t)
    (l : Locals) :
  parseWorkflow_locals canvasWidth workflowContent processes = Some l →
  l_queue l = []
  ∧ NoDup (concat (l_layers l))
  ∧ (∀ layer, layer ∈ l_layers l → layer ≠ [])
  ∧ (∀ n, n ∈ concat (l_layers l) → n ∈ map VisNode.id (l_nodes l))
  ∧ length (l_layers l) ≤ length (l_nodes l)
  ∧ (∀ v k, l_nodeLayerMap l !! v = Some k
            ↔ ∃ layer, l_layers l !! k = Some layer ∧ v ∈ layer).
Proof.
  intros (es & Hes & ->)%locals_Some.
  set (ns := build_nodes (calledProcessInstances workflowContent processes)).
  set (l := lay_out canvasWidth (calledProcessInstances workflowContent processes)
              ns es).
  pose proof (pass_layering canvasWidth workflowContent processes es Hes)
    as [Hbase _ _ _ Hne].
  fold ns l in Hbase, Hne. rewrite app_nil_r in Hbase.
  split; [apply (pass_kahn canvasWidth workflowContent processes es Hes)|].
  split; [apply (pass_layers_NoDup canvasWidth workflowContent processes es Hes)|].
  split; [exact Hne|].
  split; [|split;
           [|apply (pass_layer_index canvasWidth workflowContent processes es Hes)]].
  - intros n Hn.
    apply (pass_node_ids canvasWidth workflowContent processes es Hes).
    by apply (pass_layers_node canvasWidth workflowContent processes es Hes).
  - etrans; [by apply concat_length_nonempty|].
    assert (∀ v, is_Some (ordinary (ns_nodeMap ns) !! v) →
                 v ∈ map VisNode.id (l_nodes l)) as Hdom.
    { intros v [_ Hv]%ordinary_is_Some.
      by apply (pass_node_ids canvasWidth workflowContent processes es Hes). }
    pose proof (kahn_inv_length _ _ _ Hdom _ _ _ _ Hbase) as Hlen.
    change (length (@nil jsstring)) with 0 in Hlen.
    rewrite Nat.add_0_r in Hlen. exact Hlen.
Qed.

Lemma layers_partition_placed_nodes_witness :
  ∃ l, parseWorkflow_locals 800 (js "__proto__(x) A(y) B(A.out)")
         (declared ["__proto__"; "A"; "B"]%string) = Some l
  ∧ l_layers l = [[js "A"]; [js "B"]]
  ∧ length (l_nodes l) = 3
  ∧ l_queue l = []
  ∧ NoDup (concat (l_layers l)).
Proof.
  returned. split; [by vm_compute|]. split; [by vm_compute|].
  lazymatch goal with
  | |- context [l_queue ?l] =>
      destruct (layers_partition_placed_nodes 800 (js "__proto__(x) A(y) B(A.out)")
                  (declared ["__proto__"; "A"; "B"]%string) l)
        as (Hq & Hnd & _)
  end.
  - vm_compute. reflexivity.
  - by split.
Defined.

(** X6. When [parseWorkflow] returns, the first layer holds the returned
    nodes other than [__proto__] that no returned edge enters, in the order
    of the node list; when there is no such node there is no layer at
    all. *)
Theorem first_layer_is_the_roots (canvasWidth : float)
    (workflowContent : jsstring) (processes : list NextflowProcess.t)
    (l : Locals) :
  let roots := filter (λ n, n ≠ PROTO ∧ preds_count (l_edges l) n = 0)
                 (map VisNode.id (l_nodes l)) in
  parseWorkflow_locals canvasWidth workflowContent processes = Some l →
  match roots with
  | [] => l_layers l = []
  | _ :: _ => l_layers l !! 0 = Some roots
  end.
Proof.
  cbv zeta. intros (es & Hes & ->)%locals_Some.
  rewrite <- (pass_roots canvasWidth workflowContent processes es Hes).
  by apply pass_first_layer.
Qed.

Lemma first_layer_is_the_roots_witness :
  ∃ l, parseWorkflow_locals 800 (js "__proto__(x) A(y)")
         (declared ["__proto__"; "A"]%string) = Some l
  ∧ map (λ nd, (VisNode.id nd, VisNode.x nd, VisNode.y nd)) (l_nodes l)
    = [(PROTO, 0%float, 0%float); (js "A", 310%float, 100%float)]
  ∧ l_edges l = []
  ∧ l_layers l !! 0 = Some [js "A"].
Proof.
  returned. split; [by vm_compute|]. split; [by vm_compute|].
  lazymatch goal with
  | |- context [l_layers ?l] =>
      pose proof (first_layer_is_the_roots 800 (js "__proto__(x) A(y)")
                    (declared ["__proto__"; "A"]%string) l) as H
  end.
  cbv zeta in H. apply H. vm_compute. reflexivity.
Defined.

(** ** Order of the nodes *)

Lemma first_seen_snoc l x :
  first_seen (l ++ [x])
  = if bool_decide (x ∈ l) then first_seen l else first_seen l ++ [x].
Proof.
  induction l as [|a l IH].
  - rewrite bool_decide_eq_false_2 by (by intros ?%elem_of_nil). done.
  - change ((a :: l) ++ [x]) with (a :: (l ++ [x])). cbn [first_seen].
    rewrite IH. destruct (decide (x ∈ l)) as [Hin|Hout].
    + rewrite !bool_decide_eq_true_2; [done| |done]. apply elem_of_cons. by right.
    + rewrite (bool_decide_eq_false_2 (x ∈ l)) by done.
      rewrite filter_app, filter_cons, filter_nil.
      destruct (decide (x = a)) as [->|Hne].
      * rewrite decide_False by (intros H; by apply H).
        rewrite app_nil_r, bool_decide_eq_true_2; [done|].
        apply elem_of_cons. by left.
      * rewrite decide_True by done.
        rewrite bool_decide_eq_false_2; [done|].
        intros [?|?]%elem_of_cons; done.
Qed.

Lemma build_nodes_ids calls :
  map VisNode.id (ns_nodes (build_nodes calls))
  = first_seen (map CallInstance.name calls).
Proof.
  induction calls as [|c calls IH] using rev_ind; [done|].
  pose proof (build_nodes_inv calls) as Hinv.
  assert (build_nodes (calls ++ [c]) = add_node (build_nodes calls) c) as ->
    by apply foldl_snoc.
  rewrite map_app. cbn [map]. rewrite first_seen_snoc. unfold add_node.
  destruct (ns_nodeMap (build_nodes calls) !! CallInstance.name c)
    as [i|] eqn:Hc.
  - rewrite bool_decide_eq_true_2; [done|].
    destruct (proj1 (ni_names _ _ Hinv (CallInstance.name c)))
      as (c' & Hc' & Hname); [by rewrite Hc|].
    apply list_elem_of_fmap. by exists c'.
  - assert (CallInstance.name c ∉ map CallInstance.name calls) as Hnew.
    { intros (c' & Hname & Hc')%list_elem_of_fmap.
      assert (is_Some (ns_nodeMap (build_nodes calls) !! CallInstance.name c))
        as [? ?]; [|congruence].
      apply (ni_names _ _ Hinv). by exists c'. }
    rewrite (bool_decide_eq_false_2 _ Hnew).
    case_bool_decide; cbn [ns_nodes]; by rewrite map_app, IH.
Qed.

(** X7. When [parseWorkflow] returns, the returned nodes are in the order in
    which their names first occur among the recognized calls. *)
Theorem nodes_in_first_call_order (canvasWidth : float)
    (workflowContent : js_value) (processes : list NextflowProcess.t)
    (v : VisData) :
  parseWorkflow canvasWidth workflowContent processes = Some v →
  map VisNode.id (nodes v)
  = first_seen (map CallInstance.name
                  (recognized_calls workflowContent processes)).
Proof.
  destruct workflowContent as [s| | | | |]; try (by intros [= <-]).
  intros (l & (es & Hes & ->)%locals_Some & ->)%parseWorkflow_Some.
  cbn [nodes recognized_calls].
  rewrite (pass_nodes_ids canvasWidth s processes es Hes). apply build_nodes_ids.
Qed.

Lemma nodes_in_first_call_order_witness :
  ∃ v, parseWorkflow 800 (JString (js "B(A.out) A(x) B(y) C(B.out)"))
         (declared ["A"; "B"; "C"]%string) = Some v
  ∧ map VisNode.id (nodes v) = [js "B"; js "A"; js "C"].
Proof.
  returned.
  refine (eq_trans (nodes_in_first_call_order 800
            (JString (js "B(A.out) A(x) B(y) C(B.out)"))
            (declared ["A"; "B"; "C"]%string) _ _) _).
  - vm_compute. reflexivity.
  - vm_compute. reflexivity.
Defined.

(** ** Position of the nodes *)

(** X21. Every returned node has the fixed width and height.  A node that
    is in a layer is at the coordinates of its position in that layer; a
    node that is in no layer is at (0, 0), where it was created, so all
    unplaced nodes are drawn on top of each other. *)
Theorem nodes_placed_or_at_origin (canvasWidth : float)
    (workflowContent : jsstring) (processes : list NextflowProcess.t)
    (l : Locals) (nd : VisNode.t) :
  parseWorkflow_locals canvasWidth workflowContent processes = Some l →
  nd ∈ l_nodes l →
  VisNode.width nd = NODE_WIDTH ∧ VisNode.height nd = NODE_HEIGHT
  ∧ if bool_decide (VisNode.id nd ∈ concat (l_layers l)) then
      ∃ k layer j,
        l_layers l !! k = Some layer ∧ layer !! j = Some (VisNode.id nd)
        ∧ VisNode.x nd
          = Nat.iter j next_x (layer_start canvasWidth (length layer))
        ∧ VisNode.y nd = layer_y k
    else VisNode.x nd = 0%float ∧ VisNode.y nd = 0%float.
Proof.
  intros Hl Hnd.
  pose proof (λ nd', returned_node_unique canvasWidth workflowContent processes
                       l nd nd' Hl Hnd) as Hu.
  destruct (locals_Some _ _ _ _ Hl) as (es & Hes & ->).
  case_bool_decide as Hin.
  - apply elem_of_concat in Hin as (layer & [j Hj]%list_elem_of_lookup
                                    & [k Hk]%list_elem_of_lookup).
    pose proof (pass_placed canvasWidth workflowContent processes es Hes
                  k layer j _ Hk Hj) as Hp.
    rewrite (Hu _ Hp eq_refl).
    split; [done|]. split; [done|]. by exists k, layer, j.
  - by rewrite (pass_unplaced canvasWidth workflowContent processes es Hes
                  nd Hnd Hin).
Qed.

Lemma nodes_placed_or_at_origin_witness :
  ∃ l, parseWorkflow_locals 800 (js "A(B.out) B(A.out) C(x)")
         (declared ["A"; "B"; "C"]%string) = Some l
  ∧ let nd := VisNode.mk (js "B") (js "B") 0 0 180 60 in
    nd ∈ l_nodes l
    ∧ VisNode.width nd = NODE_WIDTH ∧ VisNode.height nd = NODE_HEIGHT
    ∧ VisNode.x nd = 0%float ∧ VisNode.y nd = 0%float.
Proof.
  returned. cbv zeta.
  lazymatch goal with
  | |- ?nd ∈ l_nodes ?l ∧ _ =>
      assert (nd ∈ l_nodes l) as Hnd
        by (vm_compute; apply elem_of_cons; right; apply elem_of_cons; by left);
      split; [exact Hnd|];
      refine (nodes_placed_or_at_origin 800 (js "A(B.out) B(A.out) C(x)")
                (declared ["A"; "B"; "C"]%string) l nd _ Hnd)
  end.
  vm_compute. reflexivity.
Defined.

(** ** Geometry of the edges *)

(** X8. The target of every returned edge is the id of a returned node; and
    when the source is the id of a returned node too, the edge starts at the
    bottom centre of the source node and ends at the top centre of the
    target node, as these nodes are returned (after the layout). *)
Theorem edges_join_returned_nodes (canvasWidth : float)
    (workflowContent : jsstring) (processes : list NextflowProcess.t)
    (l : Locals) (e : VisEdge.t) :
  parseWorkflow_locals canvasWidth workflowContent processes = Some l →
  e ∈ l_edges l →
  (∃ tgt, tgt ∈ l_nodes l ∧ VisNode.id tgt = VisEdge.target e)
  ∧ ∀ src tgt,
      src ∈ l_nodes l → VisNode.id src = VisEdge.source e →
      tgt ∈ l_nodes l → VisNode.id tgt = VisEdge.target e →
      VisEdge.startX e = (VisNode.x src + VisNode.width src / 2)%float
      ∧ VisEdge.startY e = (VisNode.y src + VisNode.height src)%float
      ∧ VisEdge.endX e = (VisNode.x tgt + VisNode.width tgt / 2)%float
      ∧ VisEdge.endY e = VisNode.y tgt.
Proof.
  intros (es & Hes & ->)%locals_Some He. split.
  - pose proof (pass_edge_target_node canvasWidth workflowContent processes
                  es Hes e He) as Ht.
    apply list_elem_of_fmap in Ht as (tgt & Hid & Ht). by exists tgt.
  - intros src tgt [i Hi]%list_elem_of_lookup Hs [j Hj]%list_elem_of_lookup Ht.
    rewrite (pass_edges canvasWidth workflowContent processes es) in He.
    apply list_elem_of_fmap in He as (e0 & -> & He0).
    rewrite route_edge_source in Hs. rewrite route_edge_target in Ht.
    pose proof (pass_index_ok canvasWidth workflowContent processes es Hes) as Hok.
    unfold route_edge.
    rewrite (proj2 (nodeMap_get_Some _ _ (VisEdge.source e0) i src Hok)) by done.
    rewrite (proj2 (nodeMap_get_Some _ _ (VisEdge.target e0) j tgt Hok)) by done.
    done.
Qed.

Lemma edges_join_returned_nodes_witness :
  ∃ l, parseWorkflow_locals 800 (js "A(x) B(A.out)")
         (declared ["A"; "B"]%string) = Some l
  ∧ (∃ tgt, tgt ∈ l_nodes l ∧ VisNode.id tgt = js "B")
  ∧ ∀ src tgt,
      src ∈ l_nodes l → VisNode.id src = js "A" →
      tgt ∈ l_nodes l → VisNode.id tgt = js "B" →
      400%float = (VisNode.x src + VisNode.width src / 2)%float
      ∧ 160%float = (VisNode.y src + VisNode.height src)%float
      ∧ 400%float = (VisNode.x tgt + VisNode.width tgt / 2)%float
      ∧ 260%float = VisNode.y tgt.
Proof.
  returned.
  apply (edges_join_returned_nodes 800 (js "A(x) B(A.out)")
           (declared ["A"; "B"]%string) _
           (VisEdge.mk (js "A->B") (js "A") (js "B") 400 160 400 260 430 220)).
  - vm_compute. reflexivity.
  - vm_compute. apply elem_of_cons. by left.
Defined.

(** X9. The id of every returned edge is its source, an arrow and its
    target, and no two returned edges have the same id. *)
Theorem edge_ids_name_the_pair (canvasWidth : float)
    (workflowContent : js_value) (processes : list NextflowProcess.t)
    (v : VisData) :
  parseWorkflow canvasWidth workflowContent processes = Some v →
  (∀ e, e ∈ edges v →
        VisEdge.id e = VisEdge.source e ++ js "->" ++ VisEdge.target e)
  ∧ NoDup (map VisEdge.id (edges v)).
Proof.
  destruct workflowContent as [s| | | | |];
    try (intros [= <-]; simpl; split; [by intros e ?%elem_of_nil|constructor]).
  intros (l & (es & Hes & ->)%locals_Some & ->)%parseWorkflow_Some.
  cbn [edges].
  pose proof (pass_edges_inv s processes es Hes) as He.
  split.
  - intros e (e0 & He0 & <- & <- & <-)%(pass_edge_origin canvasWidth s processes es).
    by rewrite (ei_shape _ _ _ He e0 He0) at 1.
  - rewrite (pass_edges canvasWidth s processes es), map_map.
    erewrite map_ext; [apply (ei_nodup _ _ _ He)|].
    intros e. apply route_edge_id.
Qed.

Lemma edge_ids_name_the_pair_witness :
  ∃ v, parseWorkflow 800 (JString (js "A(x) B(A.out) C(A.out, B.out)"))
         (declared ["A"; "B"; "C"]%string) = Some v
  ∧ map VisEdge.id (edges v) = [js "A->B"; js "A->C"; js "B->C"]
  ∧ NoDup (map VisEdge.id (edges v)).
Proof.
  returned. split; [by vm_compute|].
  apply (edge_ids_name_the_pair 800
           (JString (js "A(x) B(A.out) C(A.out, B.out)"))
           (declared ["A"; "B"; "C"]%string)).
  vm_compute. reflexivity.
Defined.

(** ** Dependence on the declared processes *)

Lemma scan_calls_ext f : ∀ defined defined' s k,
  (∀ n, n ∈ defined ↔ n ∈ defined') →
  scan_calls f defined s k = scan_calls f defined' s k.
Proof.
  induction f as [|f IH]; intros defined defined' s k Hsame; [done|].
  simpl. destruct (exec_processCallRegex s) as [[[w args] rest]|]; [|done].
  rewrite (bool_decide_ext _ _ (Hsame w)).
  case_bool_decide; [f_equal|]; by apply IH.
Qed.

(** X10. The result depends on the process list only through the set of the
    declared names: the order of the processes, repeated names and all
    other fields of a process are irrelevant. *)
Theorem result_depends_on_declared_names_only (canvasWidth : float)
    (workflowContent : js_value) (processes processes' : list NextflowProcess.t) :
  (∀ n, n ∈ map NextflowProcess.name processes
        ↔ n ∈ map NextflowProcess.name processes') →
  parseWorkflow canvasWidth workflowContent processes
  = parseWorkflow canvasWidth workflowContent processes'.
Proof.
  intros Hsame. destruct workflowContent as [s| | | | |]; try done.
  assert (calledProcessInstances s processes = calledProcessInstances s processes')
    as Hcalls by (by apply scan_calls_ext).
  unfold parseWorkflow, parseWorkflow_locals. cbv zeta.
  rewrite Hcalls.
  by rewrite (infer_edges_ext _ _ _ _ Hsame).
Qed.

Lemma result_depends_on_declared_names_only_witness :
  parseWorkflow 800 (JString (js "A(x) B(A.out)"))
    [process_named (js "A"); process_named (js "B")]
  = parseWorkflow 800 (JString (js "A(x) B(A.out)"))
      [NextflowProcess.mk (js "7") (js "B") (js "second") [] [] [] (js "echo");
       process_named (js "A"); process_named (js "B")].
Proof.
  apply (result_depends_on_declared_names_only 800
           (JString (js "A(x) B(A.out)"))
           [process_named (js "A"); process_named (js "B")]
           [NextflowProcess.mk (js "7") (js "B") (js "second") [] [] [] (js "echo");
            process_named (js "A"); process_named (js "B")]).
  intros n. cbn [map NextflowProcess.name process_named].
  rewrite !elem_of_cons. tauto.
Defined.

(** ** Lexical shape of the names *)

(** X11. The id of every returned node and both ends of every returned edge
    are non-empty runs of word characters: a declared process whose name is
    empty or has any other code unit (a space, a hyphen, a dot) never shows
    up in the result, whatever the workflow text. *)
Theorem returned_names_are_words (canvasWidth : float)
    (workflowContent : js_value) (processes : list NextflowProcess.t)
    (v : VisData) :
  let word (n : jsstring) := n ≠ [] ∧ Forall (λ c, is_word c = true) n in
  parseWorkflow canvasWidth workflowContent processes = Some v →
  (∀ nd, nd ∈ nodes v → word (VisNode.id nd))
  ∧ (∀ e, e ∈ edges v → word (VisEdge.source e) ∧ word (VisEdge.target e)).
Proof.
  destruct workflowContent as [s| | | | |]; cbv zeta;
    try (intros [= <-]; simpl;
         split; [by intros nd ?%elem_of_nil|by intros e ?%elem_of_nil]).
  intros (l & Hl & ->)%parseWorkflow_Some. cbn [nodes edges].
  assert (∀ n, n ∈ map VisNode.id (l_nodes l) →
               n ≠ [] ∧ Forall (λ c, is_word c = true) n) as Hnode.
  { intros n (c & Hc & <-)%(returned_ids canvasWidth s processes l); [|done].
    by eapply scan_calls_word. }
  split.
  - intros nd Hnd. apply Hnode, list_elem_of_fmap. by exists nd.
  - intros e He. split.
    + assert (edge_pair e ∈ map edge_pair (l_edges l)) as Hin.
      { apply list_elem_of_fmap. by exists e. }
      rewrite (returned_pairs canvasWidth s processes l Hl) in Hin.
      unfold first_wins in Hin.
      apply foldl_record_pair_elem in Hin as [Hin%elem_of_nil|Hin]; [done|].
      apply discovered_guard in Hin as (_ & _ & c & _ & _ & Hr).
      by eapply scan_refs_word.
    + destruct (locals_Some _ _ _ _ Hl) as (es & Hes & ->).
      by apply Hnode, (pass_edge_target_node canvasWidth s processes es Hes).
Qed.

Lemma returned_names_are_words_witness :
  ∃ v, parseWorkflow 800 (JString (js "a-b(x) b(a.out)"))
         (declared ["a-b"; "a"; "b"]%string) = Some v
  ∧ map VisNode.id (nodes v) = [js "b"]
  ∧ ∀ nd, nd ∈ nodes v →
          VisNode.id nd ≠ [] ∧ Forall (λ c, is_word c = true) (VisNode.id nd).
Proof.
  returned. split; [by vm_compute|].
  apply (returned_names_are_words 800 (JString (js "a-b(x) b(a.out)"))
           (declared ["a-b"; "a"; "b"]%string)).
  vm_compute. reflexivity.
Defined.

(** ** Numbering of the calls *)

Lemma scan_calls_ids f : ∀ defined s k,
  map CallInstance.callId (scan_calls f defined s k)
  = imap (λ i c, CallInstance.name c ++ js "_" ++ decimal (k + i))
      (scan_calls f defined s k).
Proof.
  induction f as [|f IH]; intros defined s k; [done|].
  simpl. destruct (exec_processCallRegex s) as [[[w args] rest]|]; [|done].
  case_bool_decide; [|apply IH].
  rewrite map_cons, imap_cons. cbn [CallInstance.name CallInstance.callId].
  rewrite Nat.add_0_r. f_equal. rewrite IH. apply imap_ext.
  intros i c _. simpl. by rewrite Nat.add_succ_r.
Qed.

(** X12. The call ids number the recognized calls from 0 in the order of the
    text: the id of the call at position [i] is its process name, an
    underscore and [i] in decimal.  A match with an undeclared name takes no
    number. *)
Theorem call_ids_count_recognized_calls (workflowContent : jsstring)
    (processes : list NextflowProcess.t) :
  map CallInstance.callId (calledProcessInstances workflowContent processes)
  = imap (λ i c, CallInstance.name c ++ js "_" ++ decimal i)
      (calledProcessInstances workflowContent processes).
Proof. apply scan_calls_ids. Qed.

(** ** The references of an argument text *)

Lemma match_ref_at_text s w rest :
  match_ref_at s = Some (w, rest) → ∃ mid, s = w ++ js ".out" ++ mid ++ rest.
Proof.
  unfold match_ref_at.
  destruct (span is_word s) as [w0 r] eqn:Hw.
  apply span_spec in Hw as (-> & Hw & _).
  destruct w0 as [|c0 w0]; [done|].
  destruct (strip_prefix (js ".out") r) as [r1|] eqn:Hp; [|done].
  apply strip_prefix_Some in Hp as ->.
  destruct r1 as [|c r2].
  { intros [= <- <-]. by exists []. }
  destruct (c =? DOT)%N.
  - destruct (span is_word r2) as [w2 r3] eqn:H2.
    apply span_spec in H2 as (-> & _ & _).
    destruct w2 as [|c2 w2]; intros [= <- <-]; [by exists []|].
    by exists (c :: c2 :: w2).
  - intros [= <- <-]. by exists [].
Qed.

Lemma exec_sourceProcessRegex_text s w rest :
  exec_sourceProcessRegex s = Some (w, rest) →
  ∃ pre mid, s = pre ++ w ++ js ".out" ++ mid ++ rest.
Proof.
  induction s as [|c s IH]; simpl; [done|].
  destruct (match_ref_at (c :: s)) as [m|] eqn:Hm.
  - intros [= ->]. apply match_ref_at_text in Hm as [mid Hm]. by exists [], mid.
  - intros (pre & mid & ->)%IH. by exists (c :: pre), mid.
Qed.

Lemma scan_refs_text f : ∀ s r,
  r ∈ scan_refs f s → ∃ pre post, s = pre ++ r ++ js ".out" ++ post.
Proof.
  induction f as [|f IH]; intros s r; simpl; [by intros ?%elem_of_nil|].
  destruct (exec_sourceProcessRegex s) as [[w rest]|] eqn:He;
    [|by intros ?%elem_of_nil].
  apply exec_sourceProcessRegex_text in He as (pre & mid & ->).
  intros [->|Hr]%elem_of_cons.
  - by exists pre, (mid ++ rest).
  - apply IH in Hr as (pre' & post' & ->).
    exists (pre ++ w ++ js ".out" ++ mid ++ pre'), post'.
    by rewrite <- !app_assoc.
Qed.

Lemma match_ref_at_occurrence w rest :
  w ≠ [] → Forall (λ c, is_word c = true) w →
  ∃ rest', match_ref_at (w ++ js ".out" ++ rest) = Some (w, rest').
Proof.
  intros Hne Hw. unfold match_ref_at.
  rewrite (span_run is_word w (js ".out" ++ rest)); [|done|done].
  destruct w as [|c w]; [done|].
  change (strip_prefix (js ".out") (js ".out" ++ rest)) with (Some rest).
  destruct rest as [|c1 r2]; [by eexists|].
  destruct (c1 =? DOT)%N; [|by eexists].
  destruct (span is_word r2) as [[|c2 w2] r3]; by eexists.
Qed.

(** X13. Every reference found in an argument text is a non-empty run of
    word characters that the text continues with [.out]; and a text that
    starts with such a run and [.out] has it as its first reference,
    whatever follows ([A.output_dir] refers to [A]). *)
Theorem references_are_out_selectors :
  (∀ inputArgs r,
     r ∈ references inputArgs →
     r ≠ [] ∧ Forall (λ c, is_word c = true) r
     ∧ ∃ pre post, inputArgs = pre ++ r ++ js ".out" ++ post)
  ∧ (∀ w rest,
       w ≠ [] → Forall (λ c, is_word c = true) w →
       head (references (w ++ js ".out" ++ rest)) = Some w).
Proof.
  split.
  - intros inputArgs r Hr. unfold references in Hr.
    destruct (scan_refs_word _ _ _ Hr) as [Hne Hw].
    split; [done|]. split; [done|]. by eapply scan_refs_text.
  - intros w rest Hne Hw. unfold references.
    destruct (match_ref_at_occurrence w rest Hne Hw) as [rest' Hm].
    cbn [scan_refs].
    destruct w as [|c w]; [done|].
    change ((c :: w) ++ js ".out" ++ rest) with (c :: (w ++ js ".out" ++ rest)) in *.
    cbn [exec_sourceProcessRegex]. by rewrite Hm.
Qed.

Lemma references_are_out_selectors_witness :
  head (references (js "A.output_dir, x")) = Some (js "A").
Proof.
  apply (proj2 references_are_out_selectors (js "A") (js "put_dir, x")).
  - done.
  - by repeat constructor.
Defined.

(** ** Trimming *)

Lemma is_space_not_word c : is_space c = true → is_word c = false.
Proof.
  unfold is_space, is_word. intros Hc.
  repeat match goal with
         | H : (_ || _)%bool = true |- _ => apply orb_true_iff in H as [H|H]
         | H : (_ && _)%bool = true |- _ => apply andb_true_iff in H as [? ?]
         | H : (_ <=? _)%N = true |- _ => apply N.leb_le in H
         | H : (_ =? _)%N = true |- _ => apply N.eqb_eq in H
         end;
    repeat match goal with
           | |- (_ || _)%bool = false => apply orb_false_iff; split
           | |- (_ && _)%bool = false => apply andb_false_iff
           end;
    try (apply N.eqb_neq; lia);
    try (left; apply N.leb_gt; lia);
    try (right; apply N.leb_gt; lia).
Qed.

Lemma trimStart_spec s :
  ∃ w, s = w ++ trimStart s ∧ Forall (λ c, is_space c = true) w
       ∧ match trimStart s with [] => True | c :: _ => is_space c = false end.
Proof.
  unfold trimStart. destruct (span is_space s) as [w r] eqn:Hs.
  apply span_spec in Hs as (-> & Hw & Hr). by exists w.
Qed.

Lemma trimStart_nonspace c s : is_space c = false → trimStart (c :: s) = c :: s.
Proof. intros Hc. unfold trimStart. simpl. by rewrite Hc. Qed.

(** The text is white space, its trimmed part, white space; the trimmed
    part is empty or starts and ends with a code unit that is not white
    space. *)
Lemma trim_spec s :
  ∃ w1 w2, s = w1 ++ trim s ++ w2
           ∧ Forall (λ c, is_space c = true) w1
           ∧ Forall (λ c, is_space c = true) w2
           ∧ (trim s = []
              ∨ (∃ c t, trim s = c :: t ∧ is_space c = false)
                ∧ (∃ t c, trim s = t ++ [c] ∧ is_space c = false)).
Proof.
  unfold trim.
  destruct (trimStart_spec s) as (w1 & Hs & Hw1 & Hhd1).
  destruct (trimStart_spec (reverse (trimStart s))) as (w2 & Hr & Hw2 & Hhd2).
  set (t0 := trimStart s) in *.
  set (t1 := trimStart (reverse t0)) in *.
  assert (t0 = reverse t1 ++ reverse w2) as Ht0.
  { rewrite <- reverse_app, <- Hr. by rewrite reverse_involutive. }
  exists w1, (reverse w2). split; [by rewrite <- Ht0|]. split; [done|].
  split; [by apply Forall_reverse|].
  destruct t1 as [|c t1]; [by left|]. right. split.
  - rewrite reverse_cons in Ht0 |- *.
    destruct (reverse t1 ++ [c]) as [|c' t'] eqn:Ht; [by destruct (reverse t1)|].
    exists c', t'. split; [done|]. rewrite Ht0 in Hhd1. done.
  - exists (reverse t1), c. by rewrite reverse_cons.
Qed.

Lemma blank_Forall s : blank s = true ↔ Forall (λ c, is_space c = true) s.
Proof.
  unfold blank. induction s as [|c s IH]; simpl.
  - split; [constructor|done].
  - by rewrite andb_true_iff, Forall_cons, IH.
Qed.

Lemma trim_blank s : truthy (trim s) = negb (blank s).
Proof.
  destruct (trim_spec s) as (w1 & w2 & Hs & Hw1 & Hw2 & Ht).
  destruct Ht as [Ht|[(c & t & Ht & Hc) _]].
  - rewrite Ht in Hs |- *. simpl in *. symmetry. apply negb_false_iff.
    apply blank_Forall. rewrite Hs. by apply Forall_app.
  - rewrite Ht in Hs |- *. simpl. symmetry. apply negb_true_iff.
    apply not_true_is_false. intros Hall%blank_Forall.
    rewrite Hs in Hall. apply Forall_app in Hall as [_ Hall].
    apply Forall_cons in Hall as [Hall _]. congruence.
Qed.

Lemma trim_idemp s : trim (trim s) = trim s.
Proof.
  destruct (trim_spec s) as (_ & _ & _ & _ & _ & Ht).
  destruct Ht as [->|[(c & t & Ht & Hc) (t' & c' & Ht' & Hc')]]; [done|].
  unfold trim at 1. rewrite Ht at 1. rewrite trimStart_nonspace by done.
  rewrite <- Ht, Ht', reverse_app. simpl.
  rewrite trimStart_nonspace by done.
  by rewrite reverse_cons, reverse_involutive.
Qed.

(** ** The views *)

Lemma blank_no_match s :
  Forall (λ c, is_space c = true) s → exec_processCallRegex s = None.
Proof.
  induction 1 as [|c s Hc Hs IH]; [done|].
  cbn [exec_processCallRegex]. unfold match_call_at. cbn [span].
  by rewrite (is_space_not_word c Hc).
Qed.

Lemma blank_no_calls s processes :
  blank s = true → calledProcessInstances s processes = [].
Proof.
  intros Hb. unfold calledProcessInstances. simpl.
  rewrite blank_no_match; [done|]. by apply blank_Forall.
Qed.

Lemma no_calls_no_nodes canvasWidth s processes l :
  parseWorkflow_locals canvasWidth s processes = Some l →
  l_nodes l = [] ↔ calledProcessInstances s processes = [].
Proof.
  intros Hl. split.
  - intros Hn. destruct (calledProcessInstances s processes) as [|c calls] eqn:Hc;
      [done|].
    assert (CallInstance.name c ∈ map VisNode.id (l_nodes l)) as Hin.
    { apply (returned_ids canvasWidth s processes l _ Hl). exists c.
      split; [|done]. rewrite Hc. apply elem_of_cons. by left. }
    rewrite Hn in Hin. by apply elem_of_nil in Hin.
  - intros Hc. unfold parseWorkflow_locals in Hl. rewrite Hc in Hl.
    by injection Hl as <-.
Qed.

(** Without a recognized call nothing is thrown. *)
Lemma no_calls_returns canvasWidth s processes :
  calledProcessInstances s processes = [] →
  parseWorkflow canvasWidth (JString s) processes = Some (mkVisData [] []).
Proof.
  intros Hc. unfold parseWorkflow, parseWorkflow_locals. by rewrite Hc.
Qed.

Lemma visualizer_unfold message cs s ps :
  WorkflowVisualizer message cs s ps
  = render
      (match parseWorkflow (cs_width cs) (JString s) ps with
       | Some _ => None
       | None => Some (js "Could not visualize workflow: " ++ message)
       end)
      (default (mkVisData [] []) (parseWorkflow (cs_width cs) (JString s) ps))
      s ps.
Proof.
  unfold WorkflowVisualizer, effect_error, effect.
  cbn [workflowContent processes]. by destruct (parseWorkflow _ _ _).
Qed.

Lemma error_text_truthy message :
  truthy (js "Could not visualize workflow: " ++ message) = true.
Proof. by vm_compute. Qed.

(** X14. Whatever the state and the pipeline, the closing paragraph "No
    process calls found ..." of the drawing card is never shown: its
    condition is the one under which the component has already returned
    the card that reports that no call was found. *)
Theorem no_calls_note_never_shown (errorVisualizing : option jsstring)
    (visData : VisData) (workflowContent : jsstring)
    (processes : list NextflowProcess.t) :
  match render errorVisualizing visData workflowContent processes with
  | GraphCard _ noCallsNote _ _ => noCallsNote = false
  | _ => True
  end.
Proof.
  unfold render. cbv zeta.
  destruct (match errorVisualizing with Some m => truthy m | None => false end);
    [done|].
  by destruct (length processes =? 0), (length (nodes visData) =? 0),
    (truthy workflowContent), (truthy (trim workflowContent)).
Qed.

(** X15. What the visualizer shows for a pipeline once its effect has run.
    When [parseWorkflow] throws, the error card with the text "Could not
    visualize workflow: " and the message of the error.  Otherwise: with a
    blank workflow text, the request for processes when there is no process
    and else an empty drawing with the download button disabled; with any
    other text, the report that no call was found when the text has no
    recognized call and else the drawing of the result, which has at least
    one node, with the button enabled.  Nothing is thrown when the text has
    no recognized call. *)
Theorem view_after_effect (message : jsstring) (canvasSizeForLayout : CanvasSize)
    (workflowContent : jsstring) (processes : list NextflowProcess.t) :
  WorkflowVisualizer message canvasSizeForLayout workflowContent processes
  = match parseWorkflow (cs_width canvasSizeForLayout) (JString workflowContent)
            processes with
    | None => ErrorCard (js "Could not visualize workflow: " ++ message)
    | Some v =>
        if blank workflowContent then
          match processes with
          | [] => DefineProcessesCard
          | _ :: _ => GraphCard true false [] []
          end
        else
          match calledProcessInstances workflowContent processes with
          | [] => NoCallsCard
          | _ :: _ => GraphCard false false (nodes v) (edges v)
          end
    end
  ∧ (∀ v, parseWorkflow (cs_width canvasSizeForLayout) (JString workflowContent)
            processes = Some v →
          (nodes v = [] ↔ calledProcessInstances workflowContent processes = []))
  ∧ (calledProcessInstances workflowContent processes = [] →
     parseWorkflow (cs_width canvasSizeForLayout) (JString workflowContent)
       processes = Some (mkVisData [] [])).
Proof.
  split; [|split].
  - rewrite visualizer_unfold.
    destruct (parseWorkflow (cs_width canvasSizeForLayout)
                (JString workflowContent) processes) as [v|] eqn:Hv.
    + cbn [default]. unfold render. cbv zeta. rewrite trim_blank.
      destruct (blank workflowContent) eqn:Hb.
      * pose proof (blank_no_calls workflowContent processes Hb) as Hc.
        rewrite (no_calls_returns _ _ _ Hc) in Hv. injection Hv as <-.
        cbn [nodes edges length negb].
        rewrite orb_true_r, !andb_false_r, andb_true_r.
        by destruct processes.
      * assert (truthy workflowContent = true) as ->.
        { by destruct workflowContent. }
        cbn [negb orb]. rewrite andb_false_r, !andb_true_r.
        apply parseWorkflow_Some in Hv as (l & Hl & ->). cbn [nodes edges].
        pose proof (no_calls_no_nodes _ _ _ _ Hl) as Hnodes.
        destruct (calledProcessInstances workflowContent processes)
          as [|c calls] eqn:Hc.
        -- by rewrite (proj2 Hnodes eq_refl).
        -- destruct (l_nodes l) as [|nd nds] eqn:Hn; [|done].
           by pose proof (proj1 Hnodes eq_refl).
    + unfold render. cbv zeta. cbn [default].
      by rewrite error_text_truthy.
  - intros v (l & Hl & ->)%parseWorkflow_Some. cbn [nodes].
    by apply (no_calls_no_nodes (cs_width canvasSizeForLayout)).
  - apply no_calls_returns.
Qed.

Lemma view_after_effect_witness :
  WorkflowVisualizer (js "G[sourceProcessName].includes is not a function")
    initial_canvasSizeForLayout (js "T(constructor.out)")
    (declared ["T"; "constructor"]%string)
  = ErrorCard (js "Could not visualize workflow: "
               ++ js "G[sourceProcessName].includes is not a function")
  ∧ WorkflowVisualizer [] initial_canvasSizeForLayout (js "// todo")
      (declared ["T"]%string)
    = NoCallsCard.
Proof.
  split.
  - refine (eq_trans (proj1 (view_after_effect _ _ _ _)) _).
    vm_compute. reflexivity.
  - refine (eq_trans (proj1 (view_after_effect _ _ _ _)) _).
    vm_compute. reflexivity.
Defined.

(** ** The canvas after the effect *)

Lemma Math_max_800 b : (Math_max 800 b <? 800)%float = false.
Proof.
  unfold Math_max. change (is_nan 800) with false. cbn [orb].
  destruct (is_nan b); [done|].
  destruct (b <? 800)%float eqn:Hb; [done|].
  destruct (800 <? b)%float; [done|]. done.
Qed.

Lemma Math_max_600 b : (Math_max 600 b <? 600)%float = false.
Proof.
  unfold Math_max. change (is_nan 600) with false. cbn [orb].
  destruct (is_nan b); [done|].
  destruct (b <? 600)%float eqn:Hb; [done|].
  destruct (600 <? b)%float; [done|]. done.
Qed.

(** X16. The effect and the shared canvas.  When [parseWorkflow] returns,
    the data are its result and the canvas is afterwards neither narrower
    than 800 nor lower than 600, and 800 by 600 when the result has no node.
    When [parseWorkflow] throws, the data are the empty graph and the canvas
    is left as it was.  So a canvas that is at least 800 by 600 stays so,
    whatever the pipeline. *)
Theorem canvas_after_effect (canvasSizeForLayout : CanvasSize)
    (pipeline : Pipeline) :
  let r := effect canvasSizeForLayout pipeline in
  match parseWorkflow (cs_width canvasSizeForLayout) (workflowContent pipeline)
          (processes pipeline) with
  | Some v =>
      r.1 = v
      ∧ (cs_width r.2 <? 800)%float = false
      ∧ (cs_height r.2 <? 600)%float = false
      ∧ (nodes v = [] → r.2 = initial_canvasSizeForLayout)
  | None => r = (mkVisData [] [], canvasSizeForLayout)
  end
  ∧ ((cs_width canvasSizeForLayout <? 800)%float = false →
     (cs_height canvasSizeForLayout <? 600)%float = false →
     (cs_width r.2 <? 800)%float = false ∧ (cs_height r.2 <? 600)%float = false).
Proof.
  cbv zeta. unfold effect. cbv zeta.
  destruct (parseWorkflow (cs_width canvasSizeForLayout) (workflowContent pipeline)
              (processes pipeline)) as [v|].
  - cbn [fst snd cs_width cs_height]. split.
    + split; [done|]. split; [apply Math_max_800|]. split; [apply Math_max_600|].
      intros ->. reflexivity.
    + intros _ _. split; [apply Math_max_800|apply Math_max_600].
  - cbn [snd]. split; [done|]. by intros Hw Hh.
Qed.

Lemma canvas_after_effect_witness :
  (effect (mkCanvasSize 940 600)
     (mkPipeline (JString (js "T(constructor.out)"))
        (declared ["T"; "constructor"]%string)))
  = (mkVisData [] [], mkCanvasSize 940 600)
  ∧ (effect (mkCanvasSize 1460 920)
       (mkPipeline (JString (js "// nothing yet")) (declared ["A"]%string))).2
    = initial_canvasSizeForLayout.
Proof.
  split.
  - generalize (proj1 (canvas_after_effect (mkCanvasSize 940 600)
                         (mkPipeline (JString (js "T(constructor.out)"))
                            (declared ["T"; "constructor"]%string)))).
    vm_compute. intros H. exact H.
  - generalize (proj1 (canvas_after_effect (mkCanvasSize 1460 920)
                         (mkPipeline (JString (js "// nothing yet"))
                            (declared ["A"]%string)))).
    vm_compute. intros (_ & _ & _ & H). apply H. reflexivity.
Defined.

(** ** The list handlers *)

Lemma filter_all {A} (P : A → Prop) `{∀ x, Decision (P x)} (l : list A) :
  Forall P l → filter P l = l.
Proof.
  induction 1 as [|a l Ha Hl IH]; [done|].
  by rewrite filter_cons, decide_True, IH.
Qed.

Section handlers_facts.
Context {A : Type} (id : A → jsstring).

Lemma add_or_update_ids item items :
  map id (add_or_update id item items)
  = if bool_decide (id item ∈ map id items) then map id items
    else map id items ++ [id item].
Proof.
  unfold add_or_update.
  destruct (list_find _ items) as [[i p0]|] eqn:Hf.
  - apply list_find_Some in Hf as (Hi & Hid & _).
    rewrite bool_decide_eq_true_2.
    + rewrite list_fmap_insert. apply list_insert_id.
      by rewrite list_lookup_fmap, Hi, <- Hid.
    + apply list_elem_of_fmap. exists p0. split; [done|].
      by eapply list_elem_of_lookup_2.
  - apply list_find_None in Hf.
    rewrite bool_decide_eq_false_2; [by rewrite map_app|].
    intros (p & Hid & Hp)%list_elem_of_fmap.
    rewrite Forall_forall in Hf. by apply (Hf p Hp).
Qed.

Lemma add_or_update_elem item items p :
  NoDup (map id items) →
  p ∈ add_or_update id item items ↔ p = item ∨ (p ∈ items ∧ id p ≠ id item).
Proof.
  intros Hnd. unfold add_or_update.
  destruct (list_find _ items) as [[i p0]|] eqn:Hf.
  - apply list_find_Some in Hf as (Hi & Hid & _). split.
    + intros [j Hj]%list_elem_of_lookup.
      apply list_lookup_insert_Some in Hj as [(_ & -> & _)|[Hne Hj]]; [by left|].
      right. split; [by eapply list_elem_of_lookup_2|]. intros Hp.
      apply Hne. apply (NoDup_lookup _ i j (id item) Hnd).
      * by rewrite list_lookup_fmap, Hi, <- Hid.
      * by rewrite list_lookup_fmap, Hj, <- Hp.
    + intros [->|[[j Hj]%list_elem_of_lookup Hne]].
      * apply list_elem_of_lookup. exists i. apply list_lookup_insert_eq.
        by eapply lookup_lt_Some.
      * apply list_elem_of_lookup. exists j. rewrite list_lookup_insert_ne; [done|].
        intros ->. congruence.
  - apply list_find_None in Hf. rewrite Forall_forall in Hf.
    rewrite elem_of_app, list_elem_of_singleton. split.
    + intros [Hp| ->]; [|by left]. right. split; [done|]. by apply Hf.
    + intros [->|[Hp _]]; [by right|by left].
Qed.

Lemma delete_add_or_update item items :
  delete_item id true (id item) (add_or_update id item items)
  = delete_item id true (id item) items.
Proof.
  unfold delete_item, add_or_update.
  destruct (list_find _ items) as [[i p0]|] eqn:Hf.
  - apply list_find_Some in Hf as (Hi & Hid & _).
    rewrite insert_take_drop by (by eapply lookup_lt_Some).
    rewrite <- (take_drop_middle items i p0 Hi) at 3.
    rewrite !filter_app, !filter_cons.
    rewrite decide_False by (intros H; by apply H).
    rewrite decide_False by (intros H; by apply H). done.
  - rewrite filter_app, filter_cons, filter_nil.
    rewrite decide_False by (intros H; by apply H). by rewrite app_nil_r.
Qed.
End handlers_facts.

(** X17. Adding or updating an item in a list whose ids are pairwise
    distinct keeps them distinct and keeps the order of the ids: an item
    with a known id takes the place of the one that had this id, an item
    with a new id goes to the end; afterwards the list has the item and,
    of the former items, exactly those with another id. *)
Theorem add_or_update_keeps_ids_distinct {A : Type} (id : A → jsstring)
    (item : A) (items : list A) :
  let items' := add_or_update id item items in
  NoDup (map id items) →
  NoDup (map id items')
  ∧ map id items'
    = (if bool_decide (id item ∈ map id items) then map id items
       else map id items ++ [id item])
  ∧ (∀ p, p ∈ items' ↔ p = item ∨ (p ∈ items ∧ id p ≠ id item)).
Proof.
  cbv zeta. intros Hnd. split; [|split].
  - rewrite add_or_update_ids. case_bool_decide as Hin; [done|].
    apply NoDup_app. split; [done|]. split; [|apply NoDup_singleton].
    by intros x Hx ->%list_elem_of_singleton.
  - apply add_or_update_ids.
  - intros p. by apply add_or_update_elem.
Qed.

Lemma add_or_update_keeps_ids_distinct_witness :
  handleAddOrUpdateProcess
    (NextflowProcess.mk (js "1") (js "ALIGN") [] [] [] [] (js "bwa mem"))
    [NextflowProcess.mk (js "1") (js "ALIGN") [] [] [] [] [];
     NextflowProcess.mk (js "2") (js "CALL") [] [] [] [] []]
  = [NextflowProcess.mk (js "1") (js "ALIGN") [] [] [] [] (js "bwa mem");
     NextflowProcess.mk (js "2") (js "CALL") [] [] [] [] []]
  ∧ map NextflowProcess.id
      (handleAddOrUpdateProcess
         (NextflowProcess.mk (js "1") (js "ALIGN") [] [] [] [] (js "bwa mem"))
         [NextflowProcess.mk (js "1") (js "ALIGN") [] [] [] [] [];
          NextflowProcess.mk (js "2") (js "CALL") [] [] [] [] []])
    = [js "1"; js "2"].
Proof.
  split; [by vm_compute|].
  refine (eq_trans (proj1 (proj2 (add_or_update_keeps_ids_distinct
            NextflowProcess.id
            (NextflowProcess.mk (js "1") (js "ALIGN") [] [] [] [] (js "bwa mem"))
            [NextflowProcess.mk (js "1") (js "ALIGN") [] [] [] [] [];
             NextflowProcess.mk (js "2") (js "CALL") [] [] [] [] []] _))) _).
  - vm_compute. apply NoDup_cons. split; [by intros [?|?%elem_of_nil]%elem_of_cons|].
    apply NoDup_singleton.
  - by vm_compute.
Defined.

(** X18. Deleting (with the confirmation given) the id of an item that was
    just added or updated gives the list that deleting this id from the
    former list gives; so adding an item with a new id and deleting it again
    restores the list, and without the confirmation nothing changes. *)
Theorem delete_undoes_add {A : Type} (id : A → jsstring)
    (item : A) (items : list A) :
  delete_item id true (id item) (add_or_update id item items)
  = delete_item id true (id item) items
  ∧ (id item ∉ map id items →
     delete_item id true (id item) (add_or_update id item items) = items)
  ∧ delete_item id false (id item) (add_or_update id item items)
    = add_or_update id item items.
Proof.
  split; [apply delete_add_or_update|]. split; [|done].
  intros Hnew. rewrite delete_add_or_update. unfold delete_item.
  apply filter_all, Forall_forall. intros p Hp Hid. apply Hnew.
  apply list_elem_of_fmap. by exists p.
Qed.

Lemma delete_undoes_add_witness :
  handleDeleteParameter true (js "9")
    (handleAddOrUpdateParameter
       (PipelineParameter.mk (js "9") (js "reads") [] [] TPath)
       [PipelineParameter.mk (js "4") (js "genome") [] [] TFile])
  = [PipelineParameter.mk (js "4") (js "genome") [] [] TFile].
Proof.
  apply (delete_undoes_add PipelineParameter.id
           (PipelineParameter.mk (js "9") (js "reads") [] [] TPath)
           [PipelineParameter.mk (js "4") (js "genome") [] [] TFile]).
  vm_compute. by intros [?|?%elem_of_nil]%elem_of_cons.
Defined.

(** ** From the process list to the drawing *)

Lemma returned_declared canvasWidth s processes l :
  parseWorkflow_locals canvasWidth s processes = Some l →
  (∀ n, n ∈ map VisNode.id (l_nodes l) → n ∈ map NextflowProcess.name processes)
  ∧ (∀ e, e ∈ l_edges l →
          VisEdge.source e ∈ map NextflowProcess.name processes
          ∧ VisEdge.target e ∈ map NextflowProcess.name processes).
Proof.
  intros Hl.
  assert (∀ n, n ∈ map VisNode.id (l_nodes l) →
               n ∈ map NextflowProcess.name processes) as Hnode.
  { intros n (c & Hc & <-)%(returned_ids canvasWidth s processes l); [|done].
    by eapply called_declared. }
  split; [done|]. intros e He. split.
  - assert (edge_pair e ∈ map edge_pair (l_edges l)) as Hin.
    { apply list_elem_of_fmap. by exists e. }
    rewrite (returned_pairs canvasWidth s processes l Hl) in Hin.
    unfold first_wins in Hin.
    apply foldl_record_pair_elem in Hin as [Hin%elem_of_nil|Hin]; [done|].
    by apply discovered_guard in Hin as (Hdef & _).
  - destruct (locals_Some _ _ _ _ Hl) as (es & Hes & ->).
    by apply Hnode, (pass_edge_target_node canvasWidth s processes es Hes).
Qed.

(** X19. Once every process with a given name is deleted from the process
    list, the drawing has no node and no edge end of that name, whatever the
    workflow text still says. *)
Theorem deleted_process_leaves_the_drawing (canvasWidth : float)
    (workflowContent : js_value) (processes : list NextflowProcess.t)
    (procId P : jsstring) (v : VisData) :
  (∀ p, p ∈ processes → NextflowProcess.name p = P →
        NextflowProcess.id p = procId) →
  parseWorkflow canvasWidth workflowContent
    (handleDeleteProcess true procId processes) = Some v →
  (P ∉ map VisNode.id (nodes v))
  ∧ (∀ e, e ∈ edges v → VisEdge.source e ≠ P ∧ VisEdge.target e ≠ P).
Proof.
  intros Honly.
  assert (P ∉ map NextflowProcess.name
                (handleDeleteProcess true procId processes)) as Hgone.
  { intros (p & -> & [Hid Hp]%list_elem_of_filter)%list_elem_of_fmap.
    by apply Hid, Honly. }
  destruct workflowContent as [s| | | | |];
    try (intros [= <-]; simpl;
         split; [by intros ?%elem_of_nil|by intros e ?%elem_of_nil]).
  intros (l & Hl & ->)%parseWorkflow_Some. cbn [nodes edges].
  destruct (returned_declared canvasWidth s
              (handleDeleteProcess true procId processes) l Hl) as [Hn He].
  split.
  - intros HP. by apply Hgone, Hn.
  - intros e Hin. destruct (He e Hin) as [Hs Ht].
    split; intros <-; by apply Hgone.
Qed.

Lemma deleted_process_leaves_the_drawing_witness :
  ∃ v, parseWorkflow 800 (JString (js "A(x) B(A.out)"))
         (handleDeleteProcess true (js "1")
            [NextflowProcess.mk (js "1") (js "A") [] [] [] [] [];
             NextflowProcess.mk (js "2") (js "B") [] [] [] [] []]) = Some v
  ∧ map VisNode.id (nodes v) = [js "B"]
  ∧ (js "A" ∉ map VisNode.id (nodes v))
  ∧ (∀ e, e ∈ edges v → VisEdge.source e ≠ js "A" ∧ VisEdge.target e ≠ js "A").
Proof.
  returned. split; [by vm_compute|].
  apply (deleted_process_leaves_the_drawing 800 (JString (js "A(x) B(A.out)"))
           [NextflowProcess.mk (js "1") (js "A") [] [] [] [] [];
            NextflowProcess.mk (js "2") (js "B") [] [] [] [] []]
           (js "1") (js "A")).
  - intros p [->|[->|?%elem_of_nil]%elem_of_cons]%elem_of_cons; done.
  - vm_compute. reflexivity.
Defined.

(** ** Saving a process or a parameter *)

(** X20. [ProcessEditor] saves a process exactly when its name is not
    blank.  What it saves differs from the form only in the name, which is
    the typed name without the white space at its two ends: not empty,
    starting and ending with a code unit that is not white space; and
    submitting what was saved saves the same again.  [ParameterEditor]
    makes the same test but saves the parameter as typed, with the white
    space around its name. *)
Theorem editors_save_named_items :
  (∀ currentProc,
     (ProcessEditor_handleSubmit currentProc = None
      ↔ blank (NextflowProcess.name currentProc) = true)
     ∧ ∀ saved,
         ProcessEditor_handleSubmit currentProc = Some saved →
         (NextflowProcess.id saved, NextflowProcess.description saved,
          NextflowProcess.inputDeclarations saved,
          NextflowProcess.outputDeclarations saved,
          NextflowProcess.directiveDeclarations saved,
          NextflowProcess.script saved)
         = (NextflowProcess.id currentProc,
            NextflowProcess.description currentProc,
            NextflowProcess.inputDeclarations currentProc,
            NextflowProcess.outputDeclarations currentProc,
            NextflowProcess.directiveDeclarations currentProc,
            NextflowProcess.script currentProc)
         ∧ (∃ w1 w2,
              NextflowProcess.name currentProc
              = w1 ++ NextflowProcess.name saved ++ w2
              ∧ Forall (λ c, is_space c = true) w1
              ∧ Forall (λ c, is_space c = true) w2)
         ∧ (∃ c t, NextflowProcess.name saved = c :: t ∧ is_space c = false)
         ∧ (∃ t c, NextflowProcess.name saved = t ++ [c] ∧ is_space c = false)
         ∧ ProcessEditor_handleSubmit saved = Some saved)
  ∧ (∀ currentParam,
       ParameterEditor_handleSubmit currentParam
       = if blank (PipelineParameter.name currentParam) then None
         else Some currentParam).
Proof.
  split.
  - intros currentProc. unfold ProcessEditor_handleSubmit. cbv zeta. split.
    + rewrite trim_blank, negb_involutive.
      destruct (blank (NextflowProcess.name currentProc)); by split.
    + intros saved.
      destruct (truthy (trim (NextflowProcess.name currentProc))) eqn:Ht; [|done].
      intros [= <-].
      cbn [negb NextflowProcess.id NextflowProcess.name
             NextflowProcess.description NextflowProcess.inputDeclarations
             NextflowProcess.outputDeclarations
             NextflowProcess.directiveDeclarations NextflowProcess.script].
      split; [done|].
      destruct (trim_spec (NextflowProcess.name currentProc))
        as (w1 & w2 & Hs & Hw1 & Hw2 & Hends).
      split; [by exists w1, w2|].
      destruct Hends as [Hnil|[Hfirst Hlast]]; [by rewrite Hnil in Ht|].
      split; [done|]. split; [done|].
      by rewrite trim_idemp, Ht.
  - intros currentParam. unfold ParameterEditor_handleSubmit.
    by rewrite trim_blank, negb_involutive.
Qed.

Lemma editors_save_named_items_witness :
  ProcessEditor_handleSubmit
    (NextflowProcess.mk (js "1") (js "ALIGN READS") [] [] [] [] [])
  = Some (NextflowProcess.mk (js "1") (js "ALIGN READS") [] [] [] [] []).
Proof.
  destruct (proj2 (proj1 editors_save_named_items
              (NextflowProcess.mk (js "1") (js "  ALIGN READS ") [] [] [] [] []))
              (NextflowProcess.mk (js "1") (js "ALIGN READS") [] [] [] [] []))
    as (_ & _ & _ & _ & Hagain).
  - by vm_compute.
  - exact Hagain.
Defined.
